(** * lsm-engine: a shallow embedding of the storage engine and its properties

    The development follows the source files of the engine:
    bloom.go, wal.go, memtable.go, sstable.go, sstable_reader.go,
    compaction.go, db.go and db_internal.go.

    Conventions.
    - A Go [[]byte] is a [list byte]; where the code tests a slice against
      [nil] (DB.Get) the slice is a [slice], which keeps the nil slice apart
      from the empty one.
    - A Go [string] is a [string]; [<] on strings is the lexicographic order
      on bytes, [String.ltb].
    - [uint32] and [uint64] values are integers in [Z] with the wrap-around
      written out ([u32], [u64]).  [int] and [int64] values are lengths and
      file offsets; they live in [Z].
    - A Go function that can panic, or that returns an [error], returns a
      [result]. *)

From Stdlib Require Import ZArith List Bool Lia.
From Stdlib Require Import Strings.String Strings.Ascii Strings.Byte.
From Stdlib Require Import Sorted Permutation.
Import ListNotations.
Local Open Scope Z_scope.

(** ** Results of fallible code *)

Inductive result (A : Type) : Type :=
| Ok (a : A)
| Err (msg : string)
| Panic.
Arguments Ok {A} a.
Arguments Err {A} msg.
Arguments Panic {A}.

Definition bind {A B : Type} (r : result A) (k : A -> result B) : result B :=
  match r with
  | Ok a => k a
  | Err m => Err m
  | Panic => Panic
  end.

Notation "x <- r ;; k" := (bind r (fun x => k))
  (at level 61, r at next level, right associativity).

(** ** Bytes and fixed-width integers *)

Definition Z_of_byte (b : byte) : Z := Z.of_N (Byte.to_N b).

Definition byte_of_Z (z : Z) : byte :=
  match Byte.of_N (Z.to_N (z mod 256)) with
  | Some b => b
  | None => x00
  end.

Definition u32 (z : Z) : Z := z mod 2 ^ 32.
Definition u64 (z : Z) : Z := z mod 2 ^ 64.

(** binary.LittleEndian.PutUint32 / Uint32 *)
Definition PutUint32 (v : Z) : list byte :=
  [byte_of_Z v; byte_of_Z (v / 2 ^ 8); byte_of_Z (v / 2 ^ 16); byte_of_Z (v / 2 ^ 24)].

Definition Uint32 (b : list byte) : Z :=
  match b with
  | b0 :: b1 :: b2 :: b3 :: _ =>
      Z_of_byte b0 + 2 ^ 8 * Z_of_byte b1 + 2 ^ 16 * Z_of_byte b2 + 2 ^ 24 * Z_of_byte b3
  | _ => 0
  end.

(** binary.LittleEndian.PutUint64 / Uint64 *)
Definition PutUint64 (v : Z) : list byte :=
  PutUint32 v ++ PutUint32 (v / 2 ^ 32).

Definition Uint64 (b : list byte) : Z :=
  Uint32 b + 2 ^ 32 * Uint32 (skipn 4 b).

Definition len {A : Type} (l : list A) : Z := Z.of_nat (List.length l).

(** [b[lo:hi]] on a slice of length [len b]; [None] when Go panics with
    "slice bounds out of range". *)
Definition subslice {A : Type} (b : list A) (lo hi : Z) : option (list A) :=
  if (0 <=? lo) && (lo <=? hi) && (hi <=? len b)
  then Some (firstn (Z.to_nat (hi - lo)) (skipn (Z.to_nat lo) b))
  else None.

(** ** bloom.go *)

Record BloomFilter : Type := mkBloom {
  bits : list byte;   (* bit array packed into bytes *)
  numBits : Z;        (* uint32: total number of bits (m) *)
  numHash : Z         (* uint32: number of hash functions (k) *)
}.

(** NewBloomFilter computes [m] and [k] in float64 from [expectedItems] and
    [fpRate]; the embedding takes the two numbers [math.Ceil(m)] and
    [math.Ceil(k)] as its arguments and starts at the conversion to
    [uint32]. *)
Definition NewBloomFilter (ceil_m ceil_k : Z) : BloomFilter :=
  let numBits := u32 ceil_m in
  let numBits := if numBits <? 8 then 8 else numBits in
  let numHash := u32 ceil_k in
  let numHash := if numHash <? 1 then 1 else numHash in
  {| bits := repeat x00 (Z.to_nat (u32 (numBits + 7) / 8));
     numBits := numBits;
     numHash := numHash |}.

(** hash/fnv New64a: FNV-1a on 64 bits. *)
Definition fnv_offset64 : Z := 14695981039346656037.
Definition fnv_prime64 : Z := 1099511628211.

Definition fnv64a (key : list byte) : Z :=
  fold_left (fun h b => u64 (Z.lxor h (Z_of_byte b) * fnv_prime64)) key fnv_offset64.

Definition hash (key : list byte) : Z * Z :=
  let sum := fnv64a key in
  let h1 := u32 sum in
  let h2 := u32 (Z.shiftr sum 32) in
  let h2 := if h2 =? 0 then 1 else h2 in
  (h1, h2).

(** [(h1 + i*h2) % bf.numBits] in uint32 arithmetic; the caller has checked
    that [numBits] is not zero. *)
Definition bit_pos (bf : BloomFilter) (h1 h2 i : Z) : Z :=
  u32 (h1 + i * h2) mod numBits bf.

(** [bits[idx] |= mask], [None] when the index is out of range. *)
Fixpoint or_at (l : list byte) (idx : nat) (mask : Z) : option (list byte) :=
  match l, idx with
  | [], _ => None
  | b :: l', O => Some (byte_of_Z (Z.lor (Z_of_byte b) mask) :: l')
  | b :: l', S n =>
      match or_at l' n mask with
      | Some r => Some (b :: r)
      | None => None
      end
  end.

(** The [for i := uint32(0); i < bf.numHash; i++] loop of Add, [n] rounds
    left, at index [i]. *)
Fixpoint Add_loop (n : nat) (i h1 h2 : Z) (bf : BloomFilter) : result BloomFilter :=
  match n with
  | O => Ok bf
  | S n' =>
      if numBits bf =? 0 then Panic
      else
        let pos := bit_pos bf h1 h2 i in
        match or_at (bits bf) (Z.to_nat (pos / 8)) (Z.shiftl 1 (pos mod 8)) with
        | None => Panic
        | Some bs =>
            Add_loop n' (i + 1) h1 h2
              {| bits := bs; numBits := numBits bf; numHash := numHash bf |}
        end
  end.

Definition Add (bf : BloomFilter) (key : list byte) : result BloomFilter :=
  let '(h1, h2) := hash key in
  Add_loop (Z.to_nat (numHash bf)) 0 h1 h2 bf.

Fixpoint MayContain_loop (n : nat) (i h1 h2 : Z) (bf : BloomFilter) : result bool :=
  match n with
  | O => Ok true
  | S n' =>
      if numBits bf =? 0 then Panic
      else
        let pos := bit_pos bf h1 h2 i in
        match nth_error (bits bf) (Z.to_nat (pos / 8)) with
        | None => Panic
        | Some b =>
            if Z.land (Z_of_byte b) (Z.shiftl 1 (pos mod 8)) =? 0
            then Ok false
            else MayContain_loop n' (i + 1) h1 h2 bf
        end
  end.

Definition MayContain (bf : BloomFilter) (key : list byte) : result bool :=
  let '(h1, h2) := hash key in
  MayContain_loop (Z.to_nat (numHash bf)) 0 h1 h2 bf.

Definition Serialize (bf : BloomFilter) : list byte :=
  PutUint32 (numBits bf) ++ PutUint32 (numHash bf) ++ bits bf.

(** [NewBloomFilter(1, 0.01)]: m = ln 100 / (ln 2)^2 = 9.58..., so
    [math.Ceil(m)] is 10, and k = m * ln 2 = 6.64..., so [math.Ceil(k)] is 7. *)
Definition NewBloomFilter_1_001 : BloomFilter := NewBloomFilter 10 7.

Definition DeserializeBloom (data : list byte) : BloomFilter :=
  if len data <? 8 then NewBloomFilter_1_001
  else
    {| bits := skipn 8 data;
       numBits := Uint32 (firstn 4 data);
       numHash := Uint32 (firstn 4 (skipn 4 data)) |}.

(** Adding a batch of keys, as WriteSSTable does. *)
Fixpoint AddAll (bf : BloomFilter) (keys : list (list byte)) : result BloomFilter :=
  match keys with
  | [] => Ok bf
  | k :: ks => bf' <- Add bf k ;; AddAll bf' ks
  end.

(** ** wal.go *)

(** A Go [[]byte] value: the nil slice, or a slice with its bytes. *)
Inductive slice : Type :=
| Nil
| Bytes (b : list byte).

Definition slice_bytes (s : slice) : list byte :=
  match s with
  | Nil => []
  | Bytes b => b
  end.

Definition is_nil (s : slice) : bool :=
  match s with
  | Nil => true
  | Bytes _ => false
  end.

Definition OpPut : byte := x01.
Definition OpDelete : byte := x02.

Record WALEntry : Type := mkWALEntry {
  Op : byte;
  Key : list byte;
  Value : slice   (* empty for deletes *)
}.

(** hash/crc32 ChecksumIEEE: the reflected CRC-32 with polynomial
    0xEDB88320, bit by bit. *)
Definition crc32_bit (crc : Z) : Z :=
  if Z.testbit crc 0 then Z.lxor (Z.shiftr crc 1) 3988292384 else Z.shiftr crc 1.

Definition crc32_byte (crc : Z) (b : byte) : Z :=
  let c := Z.lxor crc (Z_of_byte b) in
  crc32_bit (crc32_bit (crc32_bit (crc32_bit (crc32_bit (crc32_bit (crc32_bit (crc32_bit c))))))).

Definition ChecksumIEEE (data : list byte) : Z :=
  Z.lxor (fold_left crc32_byte data 4294967295) 4294967295.

(** The payload Append builds: op + key_len + key + val_len + val. *)
Definition encodePayload (entry : WALEntry) : list byte :=
  [Op entry]
    ++ PutUint32 (len (Key entry)) ++ Key entry
    ++ PutUint32 (len (slice_bytes (Value entry))) ++ slice_bytes (Value entry).

(** The record Append writes: length + CRC + payload. *)
Definition encodeRecord (entry : WALEntry) : list byte :=
  let payload := encodePayload entry in
  PutUint32 (len payload) ++ PutUint32 (ChecksumIEEE payload) ++ payload.

(** Append on a file opened with O_APPEND: the record goes to the end of the
    file, written and synced in full. *)
Definition Append (file : list byte) (entry : WALEntry) : list byte :=
  file ++ encodeRecord entry.

(** [copy(make([]byte, n), src)]: [n] bytes, those of [src] first. *)
Definition make_copy (n : Z) (src : list byte) : list byte :=
  firstn (Z.to_nat n) src ++ repeat x00 (Z.to_nat n - List.length src).

Definition decodePayload (payload : list byte) : result WALEntry :=
  if len payload <? 9 then Err "payload too short"
  else
    let op := nth 0 payload x00 in
    let keyLen := Uint32 (firstn 4 (skipn 1 payload)) in
    if u32 (len payload) <? u32 (5 + keyLen + 4) then Err "payload truncated at key"
    else
      match subslice payload 5 (u32 (5 + keyLen)) with
      | None => Panic
      | Some keySrc =>
          let key := make_copy keyLen keySrc in
          let valOff := u32 (5 + keyLen) in
          match subslice payload valOff (u32 (valOff + 4)) with
          | None => Panic
          | Some valLenBytes =>
              let valLen := Uint32 valLenBytes in
              if u32 (len payload) <? u32 (valOff + 4 + valLen)
              then Err "payload truncated at value"
              else
                match subslice payload (u32 (valOff + 4)) (u32 (valOff + 4 + valLen)) with
                | None => Panic
                | Some valSrc =>
                    Ok {| Op := op; Key := key; Value := Bytes (make_copy valLen valSrc) |}
                end
          end
      end.

(** The loop of Replay over what is left of the file.  Every round reads at
    least the 8 header bytes, so [fuel] above the length of the file is never
    used up. *)
Fixpoint Replay_loop (fuel : nat) (f : list byte) : result (list WALEntry) :=
  match fuel with
  | O => Ok []
  | S fuel' =>
      if len f <? 8 then Ok []                        (* EOF or partial header *)
      else
        let length := Uint32 (firstn 4 f) in
        let storedCRC := Uint32 (firstn 4 (skipn 4 f)) in
        if 64 * 1024 * 1024 <? length then Ok []      (* absurdly large entry *)
        else
          let rest := skipn 8 f in
          if len rest <? length then Ok []            (* partial payload *)
          else
            let payload := firstn (Z.to_nat length) rest in
            if negb (ChecksumIEEE payload =? storedCRC) then Ok []   (* corrupted entry *)
            else
              match decodePayload payload with
              | Err _ => Ok []
              | Panic => Panic
              | Ok entry =>
                  entries <- Replay_loop fuel' (skipn (Z.to_nat length) rest) ;;
                  Ok (entry :: entries)
              end
  end.

(** Replay of the file at a path: [None] is a missing file. *)
Definition Replay (file : option (list byte)) : result (list WALEntry) :=
  match file with
  | None => Ok []
  | Some f => Replay_loop (S (List.length f)) f
  end.

(** ** memtable.go *)

Definition DefaultMemtableSize : Z := 4 * 1024 * 1024.

(** [len(s)] of a Go string and the conversion [[]byte(s)]. *)
Definition str_len (s : string) : Z := Z.of_nat (String.length s).
Definition bytes_of (s : string) : list byte := list_byte_of_string s.

Record memEntry : Type := mkMemEntry {
  key : string;
  value : slice;
  tombstone : bool
}.

Record Memtable : Type := mkMemtable {
  entries : list memEntry;
  size : Z;        (* approximate memory usage in bytes *)
  threshold : Z
}.

Definition NewMemtable (threshold : Z) : Memtable :=
  {| entries := []; size := 0; threshold := threshold |}.

(** sort.Search(n, f): binary search for the smallest index in [0, n) at
    which [f] holds, [n] if there is none.  The interval [i, j) shrinks in
    every round, so [n] rounds are enough. *)
Fixpoint Search_loop (fuel : nat) (f : nat -> bool) (i j : nat) : nat :=
  match fuel with
  | O => i
  | S fuel' =>
      if (i <? j)%nat then
        let h := ((i + j) / 2)%nat in
        if negb (f h) then Search_loop fuel' f (h + 1)%nat j
        else Search_loop fuel' f i h
      else i
  end.

Definition Search (n : nat) (f : nat -> bool) : nat := Search_loop n f 0%nat n.

(** [a >= b] on Go strings. *)
Definition str_ge (a b : string) : bool := negb (String.ltb a b).

Definition zero_memEntry : memEntry := {| key := EmptyString; value := Nil; tombstone := false |}.

Definition search (m : Memtable) (k : string) : nat :=
  Search (List.length (entries m))
    (fun i => str_ge (key (nth i (entries m) zero_memEntry)) k).

(** [m.entries[idx] = e] *)
Fixpoint set_nth {A : Type} (l : list A) (idx : nat) (e : A) : list A :=
  match l, idx with
  | [], _ => []
  | _ :: l', O => e :: l'
  | a :: l', S n => a :: set_nth l' n e
  end.

(** Grow by one, shift the tail right, store at [idx]. *)
Definition insert_at {A : Type} (l : list A) (idx : nat) (e : A) : list A :=
  firstn idx l ++ e :: skipn idx l.

Definition mem_Put (m : Memtable) (k : string) (v : slice) : Memtable :=
  let idx := search m k in
  match nth_error (entries m) idx with
  | Some old =>
      if String.eqb (key old) k then
        {| entries := set_nth (entries m) idx {| key := key old; value := v; tombstone := false |};
           size := size m - len (slice_bytes (value old)) + len (slice_bytes v);
           threshold := threshold m |}
      else
        {| entries := insert_at (entries m) idx {| key := k; value := v; tombstone := false |};
           size := size m + (str_len k + len (slice_bytes v) + 1);
           threshold := threshold m |}
  | None =>
      {| entries := insert_at (entries m) idx {| key := k; value := v; tombstone := false |};
         size := size m + (str_len k + len (slice_bytes v) + 1);
         threshold := threshold m |}
  end.

(** Returns (value, true) if found, (nil, true) for a tombstone, (nil, false)
    if the key was never written. *)
Definition mem_Get (m : Memtable) (k : string) : slice * bool :=
  let idx := search m k in
  match nth_error (entries m) idx with
  | Some e =>
      if String.eqb (key e) k then
        if tombstone e then (Nil, true) else (value e, true)
      else (Nil, false)
  | None => (Nil, false)
  end.

Definition mem_Delete (m : Memtable) (k : string) : Memtable :=
  let idx := search m k in
  match nth_error (entries m) idx with
  | Some old =>
      if String.eqb (key old) k then
        {| entries := set_nth (entries m) idx {| key := key old; value := Nil; tombstone := true |};
           size := size m - len (slice_bytes (value old));
           threshold := threshold m |}
      else
        {| entries := insert_at (entries m) idx {| key := k; value := Nil; tombstone := true |};
           size := size m + (str_len k + 1);
           threshold := threshold m |}
  | None =>
      {| entries := insert_at (entries m) idx {| key := k; value := Nil; tombstone := true |};
         size := size m + (str_len k + 1);
         threshold := threshold m |}
  end.

Definition IsFull (m : Memtable) : bool := threshold m <=? size m.

Definition mem_Len (m : Memtable) : Z := len (entries m).

(** ** sstable.go: the entry types *)

Module SSTableEntry.
Record t : Type := mk {
  Key : string;
  Value : slice;
  Tombstone : bool
}.
End SSTableEntry.

Module indexEntry.
Record t : Type := mk {
  Key : string;
  Offset : Z     (* int64 *)
}.
End indexEntry.

(** ** compaction.go *)

Definition CompactionThreshold : Z := 4.

Definition zero_SSTableEntry : SSTableEntry.t :=
  SSTableEntry.mk EmptyString Nil false.

(** The cursor [positions[i]] into [sets[i]] is kept as the part of
    [sets[i]] from the cursor on: the set is exhausted when that part is
    empty, [sets[i][pos]] is its head, and [positions[i]++] drops the head. *)

(** First loop of a round: the smallest key under the cursors, with the
    index of the set where it was first seen; [minSet] is -1 while nothing
    was seen. *)
Fixpoint find_min (rems : list (list SSTableEntry.t)) (i : Z) (minKey : string) (minSet : Z)
  : string * Z :=
  match rems with
  | [] => (minKey, minSet)
  | [] :: rest => find_min rest (i + 1) minKey minSet
  | (e :: _) :: rest =>
      if (minSet =? -1) || String.ltb (SSTableEntry.Key e) minKey
      then find_min rest (i + 1) (SSTableEntry.Key e) i
      else find_min rest (i + 1) minKey minSet
  end.

(** Second loop of a round: the winner is the entry of the lowest-indexed
    set whose cursor is at [minKey]; every cursor at [minKey] advances. *)
Fixpoint pick_winner (rems : list (list SSTableEntry.t)) (i : Z) (minKey : string)
    (winner : SSTableEntry.t) (winnerIdx : Z)
  : SSTableEntry.t * Z * list (list SSTableEntry.t) :=
  match rems with
  | [] => (winner, winnerIdx, [])
  | [] :: rest =>
      let '(w, wi, rest') := pick_winner rest (i + 1) minKey winner winnerIdx in
      (w, wi, [] :: rest')
  | (e :: r) :: rest =>
      if String.eqb (SSTableEntry.Key e) minKey then
        let '(winner1, winnerIdx1) :=
          if (winnerIdx =? -1) || (i <? winnerIdx) then (e, i) else (winner, winnerIdx) in
        let '(w, wi, rest') := pick_winner rest (i + 1) minKey winner1 winnerIdx1 in
        (w, wi, r :: rest')
      else
        let '(w, wi, rest') := pick_winner rest (i + 1) minKey winner winnerIdx in
        (w, wi, (e :: r) :: rest')
  end.

(** The rounds of kWayMerge.  Every round that does not break advances a
    cursor, so there are at most as many rounds as entries. *)
Fixpoint kWayMerge_loop (fuel : nat) (rems : list (list SSTableEntry.t)) : list SSTableEntry.t :=
  match fuel with
  | O => []
  | S fuel' =>
      let '(minKey, minSet) := find_min rems 0 EmptyString (-1) in
      if minSet =? -1 then []
      else
        let '(winner, _, rems') := pick_winner rems 0 minKey zero_SSTableEntry (-1) in
        winner :: kWayMerge_loop fuel' rems'
  end.

Definition kWayMerge (sets : list (list SSTableEntry.t)) : list SSTableEntry.t :=
  kWayMerge_loop (S (List.length (List.concat sets))) sets.

(** The entries Compact hands to WriteSSTable: the merge without its
    tombstones. *)
Definition Compact_live (allSets : list (list SSTableEntry.t)) : list SSTableEntry.t :=
  filter (fun e => negb (SSTableEntry.Tombstone e)) (kWayMerge allSets).

(** ** sstable.go: WriteSSTable *)

Definition sstMagic : Z := 1280527700.   (* 0x4C534D54, "LSMT" *)
Definition footerSize : Z := 8 + 4 + 8 + 4 + 4.

(** [uint64(x)] of an [int64] and back. *)
Definition int64 (u : Z) : Z := if u <? 2 ^ 63 then u else u - 2 ^ 64.

(** Data entry: [key_len(4)][key][value_len(4)][value][tombstone(1)] *)
Definition encode_data_entry (e : SSTableEntry.t) : list byte :=
  let keyBytes := bytes_of (SSTableEntry.Key e) in
  PutUint32 (len keyBytes) ++ keyBytes
    ++ PutUint32 (len (slice_bytes (SSTableEntry.Value e))) ++ slice_bytes (SSTableEntry.Value e)
    ++ [if SSTableEntry.Tombstone e then x01 else x00].

(** Index entry: [key_len(4)][key][offset(8)] *)
Definition encode_index_entry (idx : indexEntry.t) : list byte :=
  let keyBytes := bytes_of (indexEntry.Key idx) in
  PutUint32 (len keyBytes) ++ keyBytes ++ PutUint64 (indexEntry.Offset idx).

(** The loop that writes the data entries and collects the index: the bytes
    written, the index, and the offset reached. *)
Fixpoint write_data (entries : list SSTableEntry.t) (offset : Z)
  : list byte * list indexEntry.t * Z :=
  match entries with
  | [] => ([], [], offset)
  | e :: rest =>
      let buf := encode_data_entry e in
      let '(data, index, offset') := write_data rest (offset + len buf) in
      (buf ++ data, indexEntry.mk (SSTableEntry.Key e) offset :: index, offset')
  end.

(** The loop that writes the index entries: the bytes written and the offset
    reached. *)
Fixpoint write_index (index : list indexEntry.t) (offset : Z) : list byte * Z :=
  match index with
  | [] => ([], offset)
  | idx :: rest =>
      let buf := encode_index_entry idx in
      let '(bytes, offset') := write_index rest (offset + len buf) in
      (buf ++ bytes, offset')
  end.

(** [sizing n] stands for the float64 computation of NewBloomFilter at
    [expectedItems = n] and [fpRate = 0.01]: the pair of [math.Ceil(m)] and
    [math.Ceil(k)]. *)
Definition NewBloomFilter_sized (sizing : Z -> Z * Z) (expectedItems : Z) : BloomFilter :=
  let expectedItems := if expectedItems <? 1 then 1 else expectedItems in
  NewBloomFilter (fst (sizing expectedItems)) (snd (sizing expectedItems)).

(** The contents of the file WriteSSTable creates.  The file system takes
    every write. *)
Definition WriteSSTable (sizing : Z -> Z * Z) (entries : list SSTableEntry.t)
  : result (list byte) :=
  bloom <- AddAll (NewBloomFilter_sized sizing (len entries))
             (map (fun e => bytes_of (SSTableEntry.Key e)) entries) ;;
  let '(data, index, offset) := write_data entries 0 in
  let indexOffset := offset in
  let '(indexBytes, offset) := write_index index offset in
  let bloomBytes := Serialize bloom in
  let bloomOffset := offset in
  let footer :=
    PutUint64 indexOffset ++ PutUint32 (len index)
      ++ PutUint64 bloomOffset ++ PutUint32 (len bloomBytes) ++ PutUint32 sstMagic in
  Ok (data ++ indexBytes ++ bloomBytes ++ footer).

(** ** sstable_reader.go *)

Record SSTableReader : Type := mkReader {
  file : list byte;            (* the contents behind the open file handle *)
  index : list indexEntry.t;
  bloom : BloomFilter
}.

(** [f.ReadAt(make([]byte, n), off)]: [None] on an error (negative offset,
    or fewer than [n] bytes from [off] on). *)
Definition ReadAt (f : list byte) (n off : Z) : option (list byte) :=
  if off <? 0 then None
  else if n =? 0 then Some []
  else if off + n <=? len f then Some (firstn (Z.to_nat n) (skipn (Z.to_nat off) f))
  else None.

(** The loop of OpenSSTable that decodes [n] index entries from [pos] on. *)
Fixpoint decode_index (n : nat) (indexData : list byte) (pos : Z)
  : result (list indexEntry.t) :=
  match n with
  | O => Ok []
  | S n' =>
      match subslice indexData pos (pos + 4) with
      | None => Panic
      | Some b4 =>
          let keyLen := Uint32 b4 in
          let pos := pos + 4 in
          match subslice indexData pos (pos + keyLen) with
          | None => Panic
          | Some keyBytes =>
              let pos := pos + keyLen in
              match subslice indexData pos (pos + 8) with
              | None => Panic
              | Some b8 =>
                  rest <- decode_index n' indexData (pos + 8) ;;
                  Ok (indexEntry.mk (string_of_list_byte keyBytes) (int64 (Uint64 b8)) :: rest)
              end
          end
      end
  end.

Definition OpenSSTable (f : list byte) : result SSTableReader :=
  if len f <? footerSize then Err "sstable too small"
  else
    match ReadAt f footerSize (len f - footerSize) with
    | None => Err "sstable read footer"
    | Some footer =>
        let magic := Uint32 (skipn 24 footer) in
        if negb (magic =? sstMagic) then Err "sstable bad magic"
        else
          let indexOffset := int64 (Uint64 footer) in
          let indexCount := Uint32 (skipn 8 footer) in
          let bloomOffset := int64 (Uint64 (skipn 12 footer)) in
          let bloomSize := Uint32 (skipn 20 footer) in
          match ReadAt f bloomSize bloomOffset with
          | None => Err "sstable read bloom"
          | Some bloomData =>
              let bloom := DeserializeBloom bloomData in
              if bloomOffset - indexOffset <? 0 then Panic   (* make: len out of range *)
              else
                match ReadAt f (bloomOffset - indexOffset) indexOffset with
                | None => Err "sstable read index"
                | Some indexData =>
                    index <- decode_index (Z.to_nat indexCount) indexData 0 ;;
                    Ok {| file := f; index := index; bloom := bloom |}
                end
          end
    end.

(** readEntry: [Ok None] is the Go result with [found = false]. *)
Definition readEntry (r : SSTableReader) (offset : Z) : result (option (slice * bool)) :=
  match ReadAt (file r) 4 offset with
  | None => Ok None
  | Some buf4 =>
      let keyLen := Uint32 buf4 in
      let valLenOff := offset + 4 + keyLen in
      match ReadAt (file r) 4 valLenOff with
      | None => Ok None
      | Some buf4 =>
          let valLen := Uint32 buf4 in
          let valOff := valLenOff + 4 in
          match ReadAt (file r) (u32 (valLen + 1)) valOff with
          | None => Ok None
          | Some data =>
              match subslice data 0 valLen, nth_error data (Z.to_nat valLen) with
              | Some value, Some t => Ok (Some (Bytes value, Byte.eqb t x01))
              | _, _ => Panic
              end
          end
      end
  end.

Definition zero_indexEntry : indexEntry.t := indexEntry.mk EmptyString 0.

Definition sst_Get (r : SSTableReader) (k : string) : result (option (slice * bool)) :=
  may <- MayContain (bloom r) (bytes_of k) ;;
  if negb may then Ok None
  else
    let idx := Search (List.length (index r))
                 (fun i => str_ge (indexEntry.Key (nth i (index r) zero_indexEntry)) k) in
    match nth_error (index r) idx with
    | None => Ok None
    | Some ie =>
        if negb (String.eqb (indexEntry.Key ie) k) then Ok None   (* bloom false positive *)
        else readEntry r (indexEntry.Offset ie)
    end.

Fixpoint ReadAll_loop (r : SSTableReader) (idxs : list indexEntry.t)
  : result (list SSTableEntry.t) :=
  match idxs with
  | [] => Ok []
  | idx :: rest =>
      got <- readEntry r (indexEntry.Offset idx) ;;
      match got with
      | None => ReadAll_loop r rest
      | Some (val, tomb) =>
          entries <- ReadAll_loop r rest ;;
          Ok (SSTableEntry.mk (indexEntry.Key idx) (Bytes (slice_bytes val)) tomb :: entries)
      end
  end.

Definition ReadAll (r : SSTableReader) : result (list SSTableEntry.t) :=
  ReadAll_loop r (index r).

(** ** compaction.go: Compact *)

Fixpoint ReadAll_each (readers : list SSTableReader) : result (list (list SSTableEntry.t)) :=
  match readers with
  | [] => Ok []
  | r :: rest =>
      s <- ReadAll r ;;
      ss <- ReadAll_each rest ;;
      Ok (s :: ss)
  end.

(** The contents of the file Compact writes at [outputPath]. *)
Definition Compact (sizing : Z -> Z * Z) (readers : list SSTableReader) : result (list byte) :=
  allSets <- ReadAll_each readers ;;
  WriteSSTable sizing (Compact_live allSets).

(** ** db.go and db_internal.go *)

(** The directory of the database.  An SSTable file is kept with its name in
    parsed form: [level] and [seq] stand for the file name
    ["{level}-{seq:06d}.sst"], which loadSSTables and allSSTables split at
    ["-"] and parse back.  The listing is in creation order; the code sorts
    what it lists by sequence number.  The file system takes every write. *)
Record sstFile : Type := mkSstFile {
  level : Z;
  seq : Z;
  contents : list byte
}.

Record Dir : Type := mkDir {
  wal : option (list byte);      (* the file "wal", [None] when missing *)
  ssts : list sstFile
}.

Definition empty_dir : Dir := {| wal := None; ssts := [] |}.

Record DB : Type := mkDB {
  dir : Dir;                          (* the directory at db.dir; db.wal appends to its "wal" *)
  mem : Memtable;
  sstables : list SSTableReader;      (* newest first *)
  nextSeq : Z                         (* next SSTable sequence number *)
}.

(** The outcome of DB.Get: the value, or ErrKeyNotFound. *)
Inductive GetResult : Type :=
| Found (v : slice)
| ErrKeyNotFound.

(** os.Create at sstPath(level, seq), then the writes. *)
Definition create_file (d : Dir) (lv sq : Z) (c : list byte) : Dir :=
  {| wal := wal d;
     ssts := filter (fun f => negb ((level f =? lv) && (seq f =? sq))) (ssts d)
               ++ [mkSstFile lv sq c] |}.

(** os.Remove of each of the files listed. *)
Definition remove_files (d : Dir) (paths : list sstFile) : Dir :=
  {| wal := wal d;
     ssts := filter (fun f => negb (existsb (fun p => (level p =? level f) && (seq p =? seq f))
                                      paths)) (ssts d) |}.

(** sort.Slice with [ssts[i].seq > ssts[j].seq]: newest first. *)
Fixpoint insert_by_seq (f : sstFile) (l : list sstFile) : list sstFile :=
  match l with
  | [] => [f]
  | g :: l' => if seq g <? seq f then f :: l else g :: insert_by_seq f l'
  end.

Definition sort_newest_first (l : list sstFile) : list sstFile :=
  fold_right insert_by_seq [] l.

(** level0SSTables: the files whose name starts with "0-". *)
Definition level0SSTables (d : Dir) : list sstFile :=
  filter (fun f => level f =? 0) (ssts d).

(** allSSTables: all .sst files, newest first. *)
Definition allSSTables (d : Dir) : list sstFile :=
  sort_newest_first (ssts d).

(** OpenSSTable on each path in turn; the first error is returned. *)
Fixpoint open_each (files : list sstFile) : result (list SSTableReader) :=
  match files with
  | [] => Ok []
  | f :: rest =>
      r <- OpenSSTable (contents f) ;;
      rs <- open_each rest ;;
      Ok (r :: rs)
  end.

Definition loadSSTables (db : DB) : result DB :=
  let next :=
    fold_left (fun n f => if n <=? seq f then seq f + 1 else n) (ssts (dir db)) (nextSeq db) in
  readers <- open_each (sort_newest_first (ssts (dir db))) ;;
  Ok {| dir := dir db; mem := mem db; sstables := sstables db ++ readers; nextSeq := next |}.

Definition maybeCompact (sizing : Z -> Z * Z) (db : DB) : result DB :=
  if len (level0SSTables (dir db)) <? CompactionThreshold then Ok db
  else
    let allPaths := allSSTables (dir db) in
    readers <- open_each allPaths ;;
    out <- Compact sizing readers ;;
    let d := create_file (dir db) 1 (nextSeq db) out in
    let d := remove_files d allPaths in
    loadSSTables {| dir := d; mem := mem db; sstables := []; nextSeq := nextSeq db + 1 |}.

Definition flush (sizing : Z -> Z * Z) (db : DB) : result DB :=
  let sstEntries :=
    map (fun e => SSTableEntry.mk (key e) (value e) (tombstone e)) (entries (mem db)) in
  f <- WriteSSTable sizing sstEntries ;;
  let d := create_file (dir db) 0 (nextSeq db) f in
  reader <- OpenSSTable f ;;
  maybeCompact sizing
    {| dir := {| wal := Some []; ssts := ssts d |};     (* remove the log, open a new one *)
       mem := NewMemtable DefaultMemtableSize;
       sstables := reader :: sstables db;
       nextSeq := nextSeq db + 1 |}.

(** The loop of Open over the replayed entries. *)
Definition apply_entry (m : Memtable) (e : WALEntry) : Memtable :=
  if Byte.eqb (Op e) OpPut then mem_Put m (string_of_list_byte (Key e)) (Value e)
  else if Byte.eqb (Op e) OpDelete then mem_Delete m (string_of_list_byte (Key e))
  else m.

Definition Open (d : Dir) : result DB :=
  db <- loadSSTables {| dir := d; mem := NewMemtable DefaultMemtableSize;
                        sstables := []; nextSeq := 1 |} ;;
  replayed <- Replay (wal d) ;;
  let m := fold_left apply_entry replayed (mem db) in
  let w := match wal d with Some w => w | None => [] end in   (* OpenWAL: O_CREATE *)
  Ok {| dir := {| wal := Some w; ssts := ssts d |};
        mem := m; sstables := sstables db; nextSeq := nextSeq db |}.

(** db.wal.Append *)
Definition wal_append (d : Dir) (e : WALEntry) : Dir :=
  {| wal := Some (Append (match wal d with Some w => w | None => [] end) e);
     ssts := ssts d |}.

Definition Put (sizing : Z -> Z * Z) (db : DB) (k : string) (v : slice) : result DB :=
  let d := wal_append (dir db) {| Op := OpPut; Key := bytes_of k; Value := v |} in
  let db := {| dir := d; mem := mem_Put (mem db) k v;
               sstables := sstables db; nextSeq := nextSeq db |} in
  if IsFull (mem db) then flush sizing db else Ok db.

(** The loop of Get over the SSTables, newest first. *)
Fixpoint Get_sstables (readers : list SSTableReader) (k : string) : result GetResult :=
  match readers with
  | [] => Ok ErrKeyNotFound
  | sst :: rest =>
      got <- sst_Get sst k ;;
      match got with
      | Some (val, tomb) => if tomb then Ok ErrKeyNotFound else Ok (Found val)
      | None => Get_sstables rest k
      end
  end.

Definition Get (db : DB) (k : string) : result GetResult :=
  let '(val, found) := mem_Get (mem db) k in
  if found then
    if is_nil val then Ok ErrKeyNotFound   (* tombstone *)
    else Ok (Found val)
  else Get_sstables (sstables db) k.

Definition Delete (sizing : Z -> Z * Z) (db : DB) (k : string) : result DB :=
  let d := wal_append (dir db) {| Op := OpDelete; Key := bytes_of k; Value := Nil |} in
  let db := {| dir := d; mem := mem_Delete (mem db) k;
               sstables := sstables db; nextSeq := nextSeq db |} in
  if IsFull (mem db) then flush sizing db else Ok db.

(** Close returns the directory it leaves behind. *)
Definition Close (sizing : Z -> Z * Z) (db : DB) : result Dir :=
  if 0 <? mem_Len (mem db) then db' <- flush sizing db ;; Ok (dir db')
  else Ok (dir db).

(** Memtable.Size, WAL.Size (the size of the log file, 0 when Stat fails)
    and DB.Stats. *)
Definition mem_Size (m : Memtable) : Z := size m.

Definition wal_Size (d : Dir) : Z :=
  match wal d with
  | Some w => len w
  | None => 0
  end.

Record DBStats : Type := mkDBStats {
  NumSSTables : Z;
  MemtableSize : Z;
  MemtableCount : Z;
  WALSize : Z
}.

Definition Stats (db : DB) : DBStats :=
  {| NumSSTables := len (sstables db);
     MemtableSize := mem_Size (mem db);
     MemtableCount := mem_Len (mem db);
     WALSize := wal_Size (dir db) |}.

(** ** db_internal.go: the names of the SSTable files *)

(** The decimal digits of a number that is not negative, as strconv and fmt
    write them: the last digit first, dividing by ten. *)
Definition digit_char (d : Z) : ascii := ascii_of_nat (48 + Z.to_nat d).

Fixpoint digits_loop (fuel : nat) (n : Z) (acc : string) : string :=
  match fuel with
  | O => acc
  | S fuel' =>
      let acc' := String (digit_char (n mod 10)) acc in
      if n <? 10 then acc' else digits_loop fuel' (n / 10) acc'
  end.

Definition digits (n : Z) : string :=
  digits_loop (S (Z.to_nat (Z.log2 n))) n EmptyString.

(** Zeros in front, up to [width] characters. *)
Fixpoint zeros (n : nat) (s : string) : string :=
  match n with
  | O => s
  | S n' => String "0" (zeros n' s)
  end.

Definition pad_zero (width : nat) (s : string) : string :=
  zeros (width - String.length s) s.

(** The verbs [%d] and [%06d] of fmt.Sprintf on an [int]; with the zero
    flag the padding goes after the sign. *)
Definition fmt_d (z : Z) : string :=
  if z <? 0 then String "-" (digits (- z)) else digits z.

Definition fmt_06d (z : Z) : string :=
  if z <? 0 then String "-" (pad_zero 5 (digits (- z))) else pad_zero 6 (digits z).

(** sstPath without the directory: [fmt.Sprintf("%d-%06d.sst", level, seq)]. *)
Definition sstPath (level seq : Z) : string :=
  fmt_d level ++ "-" ++ fmt_06d seq ++ ".sst".

(** strings.HasPrefix, strings.HasSuffix and strings.TrimSuffix *)
Definition HasPrefix (s p : string) : bool := String.prefix p s.

Definition HasSuffix (s suffix : string) : bool :=
  (String.length suffix <=? String.length s)%nat
  && String.eqb (substring (String.length s - String.length suffix) (String.length suffix) s)
       suffix.

Definition TrimSuffix (s suffix : string) : string :=
  if HasSuffix s suffix then substring 0 (String.length s - String.length suffix) s else s.

(** strings.Split with the separator ["-"]. *)
Fixpoint Split_dash (s : string) : list string :=
  match s with
  | EmptyString => [EmptyString]
  | String c rest =>
      match Split_dash rest with
      | [] => []
      | part :: parts =>
          if Ascii.eqb c "-" then EmptyString :: part :: parts
          else String c part :: parts
      end
  end.

(** The loop of strconv.Atoi over the digits. *)
Fixpoint digits_value (s : string) (n : Z) : option Z :=
  match s with
  | EmptyString => Some n
  | String ch rest =>
      let d := Z.of_nat (nat_of_ascii ch) - 48 in
      if (0 <=? d) && (d <=? 9) then digits_value rest (n * 10 + d) else None
  end.

(** strconv.Atoi: an optional sign, at least one digit, nothing else, and a
    value that fits an [int] of 64 bits; [None] is an error. *)
Definition Atoi (s : string) : option Z :=
  let '(neg, body) :=
    match s with
    | String "-" rest => (true, rest)
    | String "+" rest => (false, rest)
    | _ => (false, s)
    end in
  match body with
  | EmptyString => None
  | _ =>
      match digits_value body 0 with
      | None => None
      | Some n =>
          let z := if neg then - n else n in
          if (- 2 ^ 63 <=? z) && (z <? 2 ^ 63) then Some z else None
      end
  end.

(** What loadSSTables and allSSTables make of a directory entry: the
    sequence number of an SSTable file, [None] for an entry they skip. *)
Definition sst_seq_of_name (name : string) : option Z :=
  if negb (HasSuffix name ".sst") then None
  else
    match Split_dash (TrimSuffix name ".sst") with
    | [_; seqPart] => Atoi seqPart
    | _ => None
    end.

(** The test of level0SSTables on a directory entry. *)
Definition is_level0_name (name : string) : bool :=
  HasPrefix name "0-" && HasSuffix name ".sst".

(** * Predicates used in the statements *)

(** ** Bloom filter *)

(** Bit [p] of the packed array, [false] beyond its end. *)
Definition bit_at (bs : list byte) (p : Z) : bool :=
  match nth_error bs (Z.to_nat (p / 8)) with
  | Some b => Z.testbit (Z_of_byte b) (p mod 8)
  | None => false
  end.

(** The array covers all [numBits] bit positions and [numBits] is not 0. *)
Definition covers (bf : BloomFilter) : Prop :=
  0 < numBits bf <= 8 * len (bits bf).

(** What Add guarantees: same shape, no bit cleared, the key found. *)
Definition extends (bf bf' : BloomFilter) : Prop :=
  numBits bf' = numBits bf /\ numHash bf' = numHash bf /\
  List.length (bits bf') = List.length (bits bf) /\
  forall q, 0 <= q -> bit_at (bits bf) q = true -> bit_at (bits bf') q = true.

Definition all_bits_set (bf : BloomFilter) (key : list byte) : Prop :=
  forall j, 0 <= j < numHash bf ->
    bit_at (bits bf) (bit_pos bf (fst (hash key)) (snd (hash key)) j) = true.

(** ** Write-ahead log *)

(** The contents of a log file after appending the entries in order. *)
Definition wal_of (entries : list WALEntry) : list byte :=
  fold_left Append entries [].

(** What Replay gives back for an entry: the same op, key and value bytes, in
    freshly made slices (never nil). *)
Definition decoded (e : WALEntry) : WALEntry :=
  {| Op := Op e; Key := Key e; Value := Bytes (slice_bytes (Value e)) |}.

(** The payload of the entry is within the 64 MiB bound of Replay. *)
Definition wal_fits (e : WALEntry) : Prop :=
  9 + len (Key e) + len (slice_bytes (Value e)) <= 64 * 1024 * 1024.

(** The bytes start with a complete frame whose checksum matches: an 8-byte
    header, a declared length of at most 64 MiB, that many payload bytes, and
    the CRC of the payload equal to the stored one. *)
Definition starts_with_frame (g : list byte) : bool :=
  (8 <=? len g)
  && (Uint32 (firstn 4 g) <=? 64 * 1024 * 1024)
  && (Uint32 (firstn 4 g) <=? len (skipn 8 g))
  && (ChecksumIEEE (firstn (Z.to_nat (Uint32 (firstn 4 g))) (skipn 8 g))
        =? Uint32 (firstn 4 (skipn 4 g))).

(** A well-formed record followed by a record whose payload declares a key
    of 2^32-1 bytes but holds 9 bytes; its checksum matches. *)
Definition wal_good_entry : WALEntry :=
  {| Op := OpPut; Key := [x67; x6f; x6f; x64]; Value := Bytes [x64; x61; x74; x61] |}.

Definition wal_overlong_key_payload : list byte :=
  [x01; xff; xff; xff; xff; x00; x00; x00; x00].

Definition wal_overlong_key_record : list byte :=
  PutUint32 9 ++ PutUint32 (ChecksumIEEE wal_overlong_key_payload) ++ wal_overlong_key_payload.

(** The same with a value of 2^32-1 bytes declared after an empty key. *)
Definition wal_overlong_value_payload : list byte :=
  [x01; x00; x00; x00; x00; xff; xff; xff; xff].

Definition wal_overlong_value_record : list byte :=
  PutUint32 9 ++ PutUint32 (ChecksumIEEE wal_overlong_value_payload)
    ++ wal_overlong_value_payload.

(** Bytes appended to a log that happen to be a record in the format of
    Append. *)
Definition wal_second_entry : WALEntry :=
  {| Op := OpDelete; Key := [x6b]; Value := Nil |}.

(** An entry with a payload of 52 bytes. *)
Definition wal_long_entry : WALEntry :=
  {| Op := OpPut; Key := [x62; x69; x67]; Value := Bytes (repeat x00 40) |}.

(** ** Sorted tables and lookups *)

(** Strictly increasing keys: sorted by key with at most one entry per key. *)
Fixpoint strictly_sorted (ks : list string) : bool :=
  match ks with
  | [] => true
  | k :: rest =>
      match rest with
      | [] => true
      | k' :: _ => String.ltb k k' && strictly_sorted rest
      end
  end.

Definition sorted_entries (l : list SSTableEntry.t) : Prop :=
  strictly_sorted (map SSTableEntry.Key l) = true.

(** The entry for a key in one table. *)
Definition find_key (k : string) (l : list SSTableEntry.t) : option SSTableEntry.t :=
  find (fun e => String.eqb (SSTableEntry.Key e) k) l.

(** The entry for a key in the lowest-indexed (newest) table that has one. *)
Fixpoint newest (sets : list (list SSTableEntry.t)) (k : string) : option SSTableEntry.t :=
  match sets with
  | [] => None
  | s :: rest =>
      match find_key k s with
      | Some e => Some e
      | None => newest rest k
      end
  end.

(** Dropping the head of a set when its key is [m]. *)
Definition advance (m : string) (r : list SSTableEntry.t) : list SSTableEntry.t :=
  match r with
  | [] => []
  | e :: r' => if String.eqb (SSTableEntry.Key e) m then r' else r
  end.

(** The keys under the cursors. *)
Definition head_keys (rems : list (list SSTableEntry.t)) : list string :=
  flat_map (fun r => match r with [] => [] | e :: _ => [SSTableEntry.Key e] end) rems.

(** The head entry of the first set whose cursor is at key [m]. *)
Fixpoint first_at (m : string) (rems : list (list SSTableEntry.t)) : option SSTableEntry.t :=
  match rems with
  | [] => None
  | [] :: rest => first_at m rest
  | (e :: _) :: rest =>
      if String.eqb (SSTableEntry.Key e) m then Some e else first_at m rest
  end.

(** ** SSTable files *)

(** The data section for a list of entries, and the index collected while
    writing it from [offset] on. *)
Definition data_of (entries : list SSTableEntry.t) : list byte :=
  List.concat (map encode_data_entry entries).

Fixpoint index_of (entries : list SSTableEntry.t) (offset : Z) : list indexEntry.t :=
  match entries with
  | [] => []
  | e :: rest =>
      indexEntry.mk (SSTableEntry.Key e) offset
        :: index_of rest (offset + len (encode_data_entry e))
  end.

Definition index_bytes (index : list indexEntry.t) : list byte :=
  List.concat (map encode_index_entry index).

(** An entry as it comes back from a file: same key, value bytes and
    tombstone flag; the value is a fresh slice, never nil. *)
Definition normalized (e : SSTableEntry.t) : SSTableEntry.t :=
  SSTableEntry.mk (SSTableEntry.Key e) (Bytes (slice_bytes (SSTableEntry.Value e)))
    (SSTableEntry.Tombstone e).

(** The (key, value, tombstone) of an entry. *)
Definition entry_view (e : SSTableEntry.t) : string * list byte * bool :=
  (SSTableEntry.Key e, slice_bytes (SSTableEntry.Value e), SSTableEntry.Tombstone e).

(** The lengths of key and value fit their 32-bit fields; the reader
    allocates one byte more than the value. *)
Definition entry_fits (e : SSTableEntry.t) : Prop :=
  str_len (SSTableEntry.Key e) < 2 ^ 32 /\
  len (slice_bytes (SSTableEntry.Value e)) + 1 < 2 ^ 32.

(** The bit array of the filter for [n] items can be allocated. *)
Definition sizing_fits (sizing : Z -> Z * Z) (n : Z) : Prop :=
  u32 (fst (sizing (if n <? 1 then 1 else n))) + 7 < 2 ^ 32.

(** The table fits the format: 32-bit lengths and count, 63-bit offsets. *)
Definition table_fits (sizing : Z -> Z * Z) (entries : list SSTableEntry.t) : Prop :=
  Forall entry_fits entries /\
  len entries < 2 ^ 32 /\
  sizing_fits sizing (len entries) /\
  len (data_of entries) + len (index_bytes (index_of entries 0)) < 2 ^ 63.

(** The file WriteSSTable produces for [entries] once the filter [bf] is
    built: data, index, filter, footer. *)
Definition sst_footer (entries : list SSTableEntry.t) (bf : BloomFilter) : list byte :=
  PutUint64 (len (data_of entries))
    ++ PutUint32 (len (index_of entries 0))
    ++ PutUint64 (len (data_of entries) + len (index_bytes (index_of entries 0)))
    ++ PutUint32 (len (Serialize bf))
    ++ PutUint32 sstMagic.

Definition sst_file (entries : list SSTableEntry.t) (bf : BloomFilter) : list byte :=
  data_of entries ++ index_bytes (index_of entries 0) ++ Serialize bf ++ sst_footer entries bf.

(** The keys WriteSSTable adds to the filter. *)
Definition key_bytes (entries : list SSTableEntry.t) : list (list byte) :=
  map (fun e => bytes_of (SSTableEntry.Key e)) entries.

(** ** Sample data for the statements below *)

(** A sizing close to the float64 formula at rate 0.01 (about 9.6 bits per
    item, 7 hash positions). *)
Definition sample_sizing (n : Z) : Z * Z := (10 * n, 7).

(** The two tables of the compaction scenario: the older one and the newer
    one, which overwrites "b" and deletes "c". *)
Definition sample_older : list SSTableEntry.t :=
  [SSTableEntry.mk "a" (Bytes [x31]) false;
   SSTableEntry.mk "b" (Bytes [x6f; x6c; x64]) false;
   SSTableEntry.mk "c" (Bytes [x31]) false].

Definition sample_newer : list SSTableEntry.t :=
  [SSTableEntry.mk "b" (Bytes [x6e; x65; x77]) false;
   SSTableEntry.mk "c" Nil true;
   SSTableEntry.mk "d" (Bytes [x32]) false].

(** A reader over the file WriteSSTable produces for the entries. *)
Definition reader_of (sizing : Z -> Z * Z) (entries : list SSTableEntry.t) : result SSTableReader :=
  f <- WriteSSTable sizing entries ;; OpenSSTable f.

Definition empty_reader : SSTableReader :=
  {| file := []; index := []; bloom := NewBloomFilter_1_001 |}.

Definition sample_reader (entries : list SSTableEntry.t) : SSTableReader :=
  match reader_of sample_sizing entries with
  | Ok r => r
  | _ => empty_reader
  end.

(** ** Sequences of operations on the engine *)

Inductive operation : Type :=
| DoPut (k : string) (v : slice)
| DoDelete (k : string).

Definition step (sizing : Z -> Z * Z) (db : DB) (o : operation) : result DB :=
  match o with
  | DoPut k v => Put sizing db k v
  | DoDelete k => Delete sizing db k
  end.

(** The operations in order, each one acknowledged. *)
Fixpoint run (sizing : Z -> Z * Z) (db : DB) (ops : list operation) : result DB :=
  match ops with
  | [] => Ok db
  | o :: rest => db' <- step sizing db o ;; run sizing db' rest
  end.

(** The bytes of the most recent put on [k], [None] when the most recent
    operation on [k] is a delete or there is none; [acc] is the answer for
    the operations before [ops]. *)
Fixpoint latest (ops : list operation) (k : string) (acc : option (list byte))
  : option (list byte) :=
  match ops with
  | [] => acc
  | DoPut k' v :: rest => latest rest k (if String.eqb k' k then Some (slice_bytes v) else acc)
  | DoDelete k' :: rest => latest rest k (if String.eqb k' k then None else acc)
  end.

(** What Get is to return after [ops] on a fresh engine. *)
Definition expected (ops : list operation) (k : string) : GetResult :=
  match latest ops k None with
  | Some b => Found (Bytes b)
  | None => ErrKeyNotFound
  end.

(** ** Memtable *)

(** The binary search of the memtable and of the SSTable index, on the list
    of keys. *)
Definition key_search (ks : list string) (k : string) : nat :=
  Search (List.length ks) (fun i => str_ge (nth i ks EmptyString) k).

(** The entry for a key in the memtable. *)
Definition mem_find (k : string) (es : list memEntry) : option memEntry :=
  find (fun e => String.eqb (key e) k) es.

(** What an entry adds to the tracked size. *)
Definition entry_size (e : memEntry) : Z :=
  str_len (key e) + len (slice_bytes (value e)) + 1.

(** The sum of a measure over a list. *)
Definition sum_by {A : Type} (g : A -> Z) (l : list A) : Z :=
  fold_right (fun e acc => g e + acc) 0 l.

Definition mem_bytes (es : list memEntry) : Z := sum_by entry_size es.

(** The entries from the insertion point on, without the entry for [k]. *)
Definition drop_key (k : string) (hi : list memEntry) : list memEntry :=
  match hi with
  | [] => []
  | h :: hi' => if String.eqb (key h) k then hi' else hi
  end.

Definition dropped_size (k : string) (hi : list memEntry) : Z :=
  match hi with
  | [] => 0
  | h :: _ => if String.eqb (key h) k then entry_size h else 0
  end.

Definition sorted_mem (m : Memtable) : Prop :=
  strictly_sorted (map key (entries m)) = true.

(** The memtable as Open rebuilds it from the log: every live value is a
    fresh slice with the same bytes. *)
Definition norm_entry (e : memEntry) : memEntry :=
  if tombstone e then e else mkMemEntry (key e) (Bytes (slice_bytes (value e))) false.

Definition norm_mem (m : Memtable) : Memtable :=
  {| entries := map norm_entry (entries m); size := size m; threshold := threshold m |}.

(** The reader OpenSSTable returns for the file of a table. *)
Definition table_reader (es : list SSTableEntry.t) (bf : BloomFilter) : SSTableReader :=
  {| file := sst_file es bf; index := index_of es 0; bloom := bf |}.

(** What SSTableReader.Get returns for the entry found, if any. *)
Definition sst_answer (o : option SSTableEntry.t) : option (slice * bool) :=
  option_map (fun e => (Bytes (slice_bytes (SSTableEntry.Value e)), SSTableEntry.Tombstone e)) o.

(** ** The state of the engine *)

(** An SSTable of the directory: its level and sequence number, the entries
    written to it and the filter built for them. *)
Record table : Type := mkTable {
  t_level : Z;
  t_seq : Z;
  t_entries : list SSTableEntry.t;
  t_bloom : BloomFilter
}.

Definition table_file (t : table) : sstFile :=
  mkSstFile (t_level t) (t_seq t) (sst_file (t_entries t) (t_bloom t)).

Definition reader_of_table (t : table) : SSTableReader :=
  table_reader (t_entries t) (t_bloom t).

Definition good_table (t : table) : Prop :=
  sorted_entries (t_entries t) /\
  Forall entry_fits (t_entries t) /\
  covers (t_bloom t) /\
  (forall kb, In kb (key_bytes (t_entries t)) -> all_bits_set (t_bloom t) kb) /\
  OpenSSTable (sst_file (t_entries t) (t_bloom t)) = Ok (reader_of_table t).

(** Sequence numbers strictly decreasing, all below [n]. *)
Fixpoint desc_below (n : Z) (seqs : list Z) : Prop :=
  match seqs with
  | [] => True
  | s :: rest => s < n /\ desc_below s rest
  end.

(** The conversion of flush from a memtable entry to an SSTable entry. *)
Definition mem_entry (e : memEntry) : SSTableEntry.t :=
  SSTableEntry.mk (key e) (value e) (tombstone e).

(** The value an entry stands for: none for a tombstone. *)
Definition entry_value (e : SSTableEntry.t) : option (list byte) :=
  if SSTableEntry.Tombstone e then None else Some (slice_bytes (SSTableEntry.Value e)).

(** The value of a key across the tiers: the memtable first, then the
    tables, newest first. *)
Definition tier_lookup (mes : list memEntry) (tables : list (list SSTableEntry.t)) (k : string)
  : option (list byte) :=
  match mem_find k mes with
  | Some e => entry_value (mem_entry e)
  | None =>
      match newest tables k with
      | Some e => entry_value e
      | None => None
      end
  end.

(** The bytes an entry takes in the data and index sections of a file. *)
Definition entry_weight (e : SSTableEntry.t) : Z :=
  21 + 2 * str_len (SSTableEntry.Key e) + len (slice_bytes (SSTableEntry.Value e)).

Definition to_get_result (o : option (list byte)) : GetResult :=
  match o with
  | Some b => Found (Bytes b)
  | None => ErrKeyNotFound
  end.

(** Every live entry of the memtable has a value that is not the nil slice. *)
Definition live_non_nil (m : Memtable) : Prop :=
  Forall (fun e => tombstone e = true \/ is_nil (value e) = false) (entries m).

(** The memtable and the tables: sorted, within the format, within the
    budget of [cnt] entries and [wgt] bytes, and holding the map [h]. *)
Record StoreInv (cnt wgt : Z) (h : string -> option (list byte)) (db : DB)
    (tables : list table) : Prop := {
  si_sorted : sorted_mem (mem db);
  si_size : size (mem db) = mem_bytes (entries (mem db));
  si_threshold : threshold (mem db) = DefaultMemtableSize;
  si_fits : Forall (fun e => entry_fits (mem_entry e)) (entries (mem db));
  si_files : ssts (dir db) = rev (map table_file tables);
  si_readers : sstables db = map reader_of_table tables;
  si_good : Forall good_table tables;
  si_seqs : desc_below (nextSeq db) (map t_seq tables);
  si_count :
    len (entries (mem db)) + sum_by (fun t => len (t_entries t)) tables <= cnt;
  si_weight :
    sum_by (fun e => entry_weight (mem_entry e)) (entries (mem db))
      + sum_by (fun t => sum_by entry_weight (t_entries t)) tables <= wgt;
  si_lookup : forall k, tier_lookup (entries (mem db)) (map t_entries tables) k = h k
}.

(** The log holds the operations since the last flush, and the memtable is
    what their replay builds; it is below its threshold. *)
Record LogInv (db : DB) (wes : list WALEntry) : Prop := {
  li_wal : wal (dir db) = Some (wal_of wes);
  li_fits : Forall wal_fits wes;
  li_replay :
    fold_left apply_entry (map decoded wes) (NewMemtable DefaultMemtableSize)
    = norm_mem (mem db);
  li_below : size (mem db) < DefaultMemtableSize
}.

Definition Inv (cnt wgt : Z) (h : string -> option (list byte)) (db : DB) : Prop :=
  exists tables wes, StoreInv cnt wgt h db tables /\ LogInv db wes.

(** The map after one more operation. *)
Definition update (h : string -> option (list byte)) (k : string) (v : option (list byte))
  : string -> option (list byte) :=
  fun k' => if String.eqb k k' then v else h k'.

Definition apply_op (h : string -> option (list byte)) (o : operation)
  : string -> option (list byte) :=
  match o with
  | DoPut k v => update h k (Some (slice_bytes v))
  | DoDelete k => update h k None
  end.

(** What an operation may add to the tables, and the limits of the format
    for its key and value. *)
Definition op_weight (o : operation) : Z :=
  match o with
  | DoPut k v => 21 + 2 * str_len k + len (slice_bytes v)
  | DoDelete k => 21 + 2 * str_len k
  end.

Definition op_fits (o : operation) : Prop :=
  match o with
  | DoPut k v => str_len k < 2 ^ 32 /\ len (slice_bytes v) + 1 < 2 ^ 32
  | DoDelete k => str_len k < 2 ^ 32
  end.

(** A workload the file format can hold: keys and values within their
    32-bit fields, fewer than 2^32 operations, fewer than 2^63 bytes. *)
Definition workload_fits (ops : list operation) : Prop :=
  Forall op_fits ops /\ len ops < 2 ^ 32 /\ sum_by op_weight ops < 2 ^ 63.

(** The filter of every table of up to [N] entries can be allocated. *)
Definition sizing_ok (sizing : Z -> Z * Z) (N : Z) : Prop :=
  forall n, 0 <= n <= N -> sizing_fits sizing n.


(** Every put of the workload has a value that is not the nil slice. *)
Definition non_nil_puts (ops : list operation) : Prop :=
  forall k v, In (DoPut k v) ops -> is_nil v = false.

(** Two sessions for the statements below: the first one is cut by a crash
    after its second write, the second one deletes and writes again. *)
Definition sample_sessions : list (list operation) :=
  [[DoPut "k" Nil; DoPut "a" (Bytes [x01])];
   [DoDelete "a"; DoPut "b" (Bytes [x02; x03])]].

(** ** Calls on a memtable *)

Inductive mem_op : Type :=
| MemPut (k : string) (v : slice)
| MemDelete (k : string).

Definition mem_apply (m : Memtable) (o : mem_op) : Memtable :=
  match o with
  | MemPut k v => mem_Put m k v
  | MemDelete k => mem_Delete m k
  end.

(** What the lookup of the memtable tells apart: a live value, a deleted
    key, a key that was never written. *)
Definition mem_found (m : Memtable) (k : string) : bool := snd (mem_Get m k).

(** ** The tables of a directory *)



(** A directory with a log of one record and one level-0 table, and the
    engine Open makes of it. *)
Definition sample_dir : Dir :=
  {| wal := Some (wal_of [wal_good_entry]);
     ssts := [mkSstFile 0 5 (match WriteSSTable sample_sizing sample_newer with
                             | Ok f => f
                             | _ => []
                             end)] |}.

Definition sample_db : DB :=
  match Open sample_dir with
  | Ok db => db
  | _ => mkDB empty_dir (NewMemtable DefaultMemtableSize) [] 1
  end.

(** Two operations on the engine of [sample_dir], and the engine after
    them. *)
Definition sample_ops : list operation := [DoPut "b" Nil; DoDelete "d"].

Definition sample_db_after : DB :=
  match run sample_sizing sample_db sample_ops with
  | Ok db => db
  | _ => sample_db
  end.

(** The engine on a new directory after [i] puts of the value [v] on the one
    key [k]: [i] records in the log, one entry in the memtable, no table. *)
Definition overwritten (k : string) (v : slice) (i : nat) : DB :=
  {| dir := {| wal := Some (wal_of (repeat (mkWALEntry OpPut (bytes_of k) v) i)); ssts := [] |};
     mem := match i with
            | O => NewMemtable DefaultMemtableSize
            | S _ => {| entries := [mkMemEntry k v false];
                        size := str_len k + len (slice_bytes v) + 1;
                        threshold := DefaultMemtableSize |}
            end;
     sstables := [];
     nextSeq := 1 |}.

(** ** File names *)

(** Only the characters ['0'] to ['9']. *)
Fixpoint is_digits (s : string) : bool :=
  match s with
  | EmptyString => true
  | String c rest =>
      (48 <=? nat_of_ascii c)%nat && (nat_of_ascii c <=? 57)%nat && is_digits rest
  end.

(** ** Puts of the nil slice *)

(** Whether the most recent operation on [k] is a put of the nil slice;
    [acc] is the answer for the operations before [ops]. *)
Fixpoint latest_is_nil_put (ops : list operation) (k : string) (acc : bool) : bool :=
  match ops with
  | [] => acc
  | DoPut k' v :: rest => latest_is_nil_put rest k (if String.eqb k' k then is_nil v else acc)
  | DoDelete k' :: rest => latest_is_nil_put rest k (if String.eqb k' k then false else acc)
  end.

(** The memtable holds a live entry with the nil value for [k]. *)
Definition nil_in_mem (m : Memtable) (k : string) : bool :=
  match mem_find k (entries m) with
  | Some e => negb (tombstone e) && is_nil (value e)
  | None => false
  end.

(** * Properties *)

(** ** Bytes *)

Lemma Z_of_byte_range (b : byte) : 0 <= Z_of_byte b < 256.
Proof.
  unfold Z_of_byte. pose proof (Byte.to_N_bounded b). lia.
Qed.

Lemma Z_of_byte_of_Z (z : Z) : Z_of_byte (byte_of_Z z) = z mod 256.
Proof.
  unfold Z_of_byte, byte_of_Z.
  assert (R : 0 <= z mod 256 < 256) by (apply Z.mod_pos_bound; lia).
  destruct (Byte.of_N (Z.to_N (z mod 256))) as [b|] eqn:E.
  - apply Byte.to_of_N in E. rewrite E. lia.
  - apply Byte.of_N_None_iff in E. lia.
Qed.

Lemma byte_of_Z_of_byte (b : byte) : byte_of_Z (Z_of_byte b) = b.
Proof.
  unfold byte_of_Z. pose proof (Z_of_byte_range b) as R.
  rewrite Z.mod_small by exact R.
  unfold Z_of_byte. rewrite N2Z.id, Byte.of_to_N. reflexivity.
Qed.

Lemma Uint32_PutUint32 (v : Z) (rest : list byte) :
  Uint32 (PutUint32 v ++ rest) = u32 v.
Proof.
  unfold Uint32, PutUint32, u32. cbn [app].
  rewrite !Z_of_byte_of_Z.
  change 256 with (2 ^ 8).
  pose proof (Z.div_mod v (2 ^ 8) ltac:(lia)).
  pose proof (Z.div_mod (v / 2 ^ 8) (2 ^ 8) ltac:(lia)).
  pose proof (Z.div_mod (v / 2 ^ 8 / 2 ^ 8) (2 ^ 8) ltac:(lia)).
  pose proof (Z.div_mod (v / 2 ^ 8 / 2 ^ 8 / 2 ^ 8) (2 ^ 8) ltac:(lia)).
  pose proof (Z.mod_pos_bound v (2 ^ 8) ltac:(lia)).
  pose proof (Z.mod_pos_bound (v / 2 ^ 8) (2 ^ 8) ltac:(lia)).
  pose proof (Z.mod_pos_bound (v / 2 ^ 8 / 2 ^ 8) (2 ^ 8) ltac:(lia)).
  pose proof (Z.mod_pos_bound (v / 2 ^ 8 / 2 ^ 8 / 2 ^ 8) (2 ^ 8) ltac:(lia)).
  replace (v / 2 ^ 16) with (v / 2 ^ 8 / 2 ^ 8)
    by (rewrite Z.div_div by lia; reflexivity).
  replace (v / 2 ^ 24) with (v / 2 ^ 8 / 2 ^ 8 / 2 ^ 8)
    by (rewrite !Z.div_div by lia; reflexivity).
  apply Z.mod_unique_pos with (q := v / 2 ^ 8 / 2 ^ 8 / 2 ^ 8 / 2 ^ 8); lia.
Qed.

Lemma length_PutUint32 (v : Z) : List.length (PutUint32 v) = 4%nat.
Proof. reflexivity. Qed.

Lemma length_PutUint64 (v : Z) : List.length (PutUint64 v) = 8%nat.
Proof. reflexivity. Qed.

Lemma Uint64_PutUint64 (v : Z) (rest : list byte) :
  Uint64 (PutUint64 v ++ rest) = u64 v.
Proof.
  unfold Uint64, PutUint64. rewrite <- app_assoc.
  rewrite Uint32_PutUint32.
  change (skipn 4 (PutUint32 v ++ PutUint32 (v / 2 ^ 32) ++ rest))
    with (PutUint32 (v / 2 ^ 32) ++ rest).
  rewrite Uint32_PutUint32. unfold u32, u64.
  pose proof (Z.div_mod v (2 ^ 32) ltac:(lia)).
  pose proof (Z.div_mod (v / 2 ^ 32) (2 ^ 32) ltac:(lia)).
  pose proof (Z.mod_pos_bound v (2 ^ 32) ltac:(lia)).
  pose proof (Z.mod_pos_bound (v / 2 ^ 32) (2 ^ 32) ltac:(lia)).
  apply Z.mod_unique_pos with (q := v / 2 ^ 32 / 2 ^ 32); lia.
Qed.

Lemma u32_small (v : Z) : 0 <= v < 2 ^ 32 -> u32 v = v.
Proof. intros. unfold u32. apply Z.mod_small; assumption. Qed.

Lemma u64_small (v : Z) : 0 <= v < 2 ^ 64 -> u64 v = v.
Proof. intros. unfold u64. apply Z.mod_small; assumption. Qed.

Lemma u32_range (v : Z) : 0 <= u32 v < 2 ^ 32.
Proof. unfold u32. apply Z.mod_pos_bound. lia. Qed.

Lemma len_nonneg {A : Type} (l : list A) : 0 <= len l.
Proof. unfold len. lia. Qed.

Lemma len_app {A : Type} (l1 l2 : list A) : len (l1 ++ l2) = len l1 + len l2.
Proof. unfold len. rewrite length_app. lia. Qed.

(** ** Bloom filter *)

Lemma land_bit (a j : Z) :
  0 <= j -> (Z.land a (Z.shiftl 1 j) =? 0) = negb (Z.testbit a j).
Proof.
  intros Hj.
  assert (E : Z.land a (Z.shiftl 1 j) = if Z.testbit a j then 2 ^ j else 0).
  { apply Z.bits_inj'. intros n Hn.
    rewrite Z.land_spec, Z.shiftl_spec by assumption.
    destruct (Z.eq_dec n j) as [->|Hne].
    - rewrite Z.sub_diag. change (Z.testbit 1 0) with true. rewrite andb_true_r.
      destruct (Z.testbit a j) eqn:T.
      + rewrite Z.pow2_bits_true by lia. reflexivity.
      + rewrite Z.bits_0. reflexivity.
    - assert (Z.testbit 1 (n - j) = false) as ->.
      { destruct (Z.ltb_spec n j).
        - apply Z.testbit_neg_r. lia.
        - change 1 with (2 ^ 0). apply Z.pow2_bits_false. lia. }
      rewrite andb_false_r.
      destruct (Z.testbit a j).
      + rewrite Z.pow2_bits_false by lia. reflexivity.
      + rewrite Z.bits_0. reflexivity. }
  rewrite E. destruct (Z.testbit a j); cbn [negb].
  - apply Z.eqb_neq. pose proof (Z.pow_pos_nonneg 2 j). lia.
  - reflexivity.
Qed.

Lemma testbit_or_byte (b : byte) (j i : Z) :
  0 <= j < 8 -> 0 <= i < 8 ->
  Z.testbit (Z_of_byte (byte_of_Z (Z.lor (Z_of_byte b) (Z.shiftl 1 j)))) i
  = Z.testbit (Z_of_byte b) i || (i =? j).
Proof.
  intros Hj Hi. rewrite Z_of_byte_of_Z.
  change 256 with (2 ^ 8). rewrite Z.mod_pow2_bits_low by lia.
  rewrite Z.lor_spec, Z.shiftl_spec by lia. f_equal.
  destruct (Z.eqb_spec i j) as [->|Hne].
  - rewrite Z.sub_diag. reflexivity.
  - destruct (Z.ltb_spec i j).
    + apply Z.testbit_neg_r. lia.
    + change 1 with (2 ^ 0). apply Z.pow2_bits_false. lia.
Qed.

Lemma or_at_Some (l : list byte) (idx : nat) (mask : Z) :
  (idx < List.length l)%nat ->
  exists b, nth_error l idx = Some b /\
    exists l', or_at l idx mask = Some l' /\
      List.length l' = List.length l /\
      nth_error l' idx = Some (byte_of_Z (Z.lor (Z_of_byte b) mask)) /\
      forall k, k <> idx -> nth_error l' k = nth_error l k.
Proof.
  revert idx. induction l as [|a l IH]; intros idx Hlt; cbn [List.length] in Hlt.
  - lia.
  - destruct idx as [|idx].
    + exists a. split; [reflexivity|]. eexists. split; [reflexivity|].
      repeat split. intros [|k] Hk; [congruence|reflexivity].
    + destruct (IH idx ltac:(lia)) as (b & Hb & l' & Hor & Hlen & Hnth & Hother).
      exists b. split; [exact Hb|]. exists (a :: l'). cbn [or_at]. rewrite Hor.
      split; [reflexivity|]. split; [cbn [List.length]; congruence|].
      split; [exact Hnth|].
      intros [|k] Hk; [reflexivity|]. cbn [nth_error]. apply Hother. congruence.
Qed.

Lemma bit_pos_range (bf : BloomFilter) (h1 h2 i : Z) :
  covers bf ->
  0 <= bit_pos bf h1 h2 i < numBits bf /\
  (Z.to_nat (bit_pos bf h1 h2 i / 8) < List.length (bits bf))%nat /\
  0 <= bit_pos bf h1 h2 i mod 8 < 8.
Proof.
  intros [Hpos Hcov]. unfold bit_pos.
  pose proof (Z.mod_pos_bound (u32 (h1 + i * h2)) (numBits bf) Hpos) as R.
  split; [exact R|]. split.
  - unfold len in Hcov.
    assert (u32 (h1 + i * h2) mod numBits bf / 8 < Z.of_nat (List.length (bits bf))).
    { apply Z.div_lt_upper_bound; lia. }
    pose proof (Z.div_pos (u32 (h1 + i * h2) mod numBits bf) 8 ltac:(lia) ltac:(lia)).
    lia.
  - apply Z.mod_pos_bound. lia.
Qed.

Lemma bit_at_split (p : Z) : 0 <= p -> p = 8 * (p / 8) + p mod 8.
Proof. intros. apply Z.div_mod. lia. Qed.

(** One round of Add sets its bit and clears none. *)
Lemma or_at_bit_at (bs bs' : list byte) (p : Z) :
  0 <= p ->
  or_at bs (Z.to_nat (p / 8)) (Z.shiftl 1 (p mod 8)) = Some bs' ->
  bit_at bs' p = true /\ forall q, 0 <= q -> bit_at bs q = true -> bit_at bs' q = true.
Proof.
  intros Hp Hor.
  assert (Hlt : (Z.to_nat (p / 8) < List.length bs)%nat).
  { destruct (Nat.lt_ge_cases (Z.to_nat (p / 8)) (List.length bs)) as [|Hge]; [assumption|].
    exfalso. clear - Hor Hge. revert Hor Hge. generalize (Z.to_nat (p / 8)).
    revert bs'. induction bs as [|a bs IH]; intros bs' n Hor Hge; [discriminate|].
    destruct n as [|n]; cbn [List.length] in Hge; [lia|].
    cbn [or_at] in Hor. destruct (or_at bs n _) eqn:E; [|discriminate].
    eapply IH; [exact E|lia]. }
  destruct (or_at_Some bs _ (Z.shiftl 1 (p mod 8)) Hlt)
    as (b & Hb & l' & Hor' & _ & Hnth & Hother).
  rewrite Hor in Hor'. injection Hor' as <-.
  pose proof (Z.mod_pos_bound p 8 ltac:(lia)) as Rp.
  split.
  - unfold bit_at. rewrite Hnth. rewrite testbit_or_byte by lia.
    rewrite Z.eqb_refl. apply orb_true_r.
  - intros q Hq Hset. unfold bit_at in *.
    destruct (Nat.eq_dec (Z.to_nat (q / 8)) (Z.to_nat (p / 8))) as [E|NE].
    + rewrite E in *. rewrite Hb in Hset. rewrite Hnth.
      pose proof (Z.mod_pos_bound q 8 ltac:(lia)).
      rewrite testbit_or_byte by lia. rewrite Hset. reflexivity.
    + rewrite Hother by exact NE. exact Hset.
Qed.

Lemma Add_loop_spec (n : nat) : forall (i h1 h2 : Z) (bf : BloomFilter),
  covers bf -> 0 <= i ->
  exists bs,
    Add_loop n i h1 h2 bf = Ok {| bits := bs; numBits := numBits bf; numHash := numHash bf |} /\
    List.length bs = List.length (bits bf) /\
    (forall q, 0 <= q -> bit_at (bits bf) q = true -> bit_at bs q = true) /\
    (forall j, i <= j < i + Z.of_nat n -> bit_at bs (bit_pos bf h1 h2 j) = true).
Proof.
  induction n as [|n IH]; intros i h1 h2 bf Hc Hi.
  - exists (bits bf). cbn [Add_loop]. destruct bf; cbn. repeat split; auto. lia.
  - cbn [Add_loop].
    assert (Hnz : (numBits bf =? 0) = false) by (apply Z.eqb_neq; destruct Hc; lia).
    rewrite Hnz.
    destruct (bit_pos_range bf h1 h2 i Hc) as (Rp & Hlt & Rm).
    destruct (or_at_Some (bits bf) _ (Z.shiftl 1 (bit_pos bf h1 h2 i mod 8)) Hlt)
      as (b & Hb & l' & Hor & Hlen & _ & _).
    rewrite Hor.
    destruct (or_at_bit_at (bits bf) l' (bit_pos bf h1 h2 i) ltac:(lia) Hor)
      as [Hset Hmono].
    set (bf' := {| bits := l'; numBits := numBits bf; numHash := numHash bf |}).
    assert (Hc' : covers bf').
    { unfold covers, bf', len in *. cbn. rewrite Hlen. exact Hc. }
    destruct (IH (i + 1) h1 h2 bf' Hc' ltac:(lia)) as (bs & Hrun & Hlen' & Hmono' & Hall).
    exists bs. split; [exact Hrun|]. split; [cbn in Hlen'; congruence|]. split.
    + intros q Hq Hbit. apply Hmono'; [exact Hq|]. apply Hmono; assumption.
    + intros j Hj. destruct (Z.eq_dec j i) as [->|Hne].
      * apply Hmono'; [lia|exact Hset].
      * change (bit_pos bf h1 h2 j) with (bit_pos bf' h1 h2 j). apply Hall. lia.
Qed.

Lemma MayContain_loop_true (n : nat) : forall (i h1 h2 : Z) (bf : BloomFilter),
  covers bf ->
  (forall j, i <= j < i + Z.of_nat n -> bit_at (bits bf) (bit_pos bf h1 h2 j) = true) ->
  MayContain_loop n i h1 h2 bf = Ok true.
Proof.
  induction n as [|n IH]; intros i h1 h2 bf Hc Hall; [reflexivity|].
  cbn [MayContain_loop].
  assert (Hnz : (numBits bf =? 0) = false) by (apply Z.eqb_neq; destruct Hc; lia).
  rewrite Hnz.
  destruct (bit_pos_range bf h1 h2 i Hc) as (Rp & Hlt & Rm).
  pose proof (Hall i ltac:(lia)) as Hset. unfold bit_at in Hset.
  destruct (nth_error (bits bf) (Z.to_nat (bit_pos bf h1 h2 i / 8))) as [b|]; [|discriminate].
  rewrite land_bit by lia. rewrite Hset. cbn [negb].
  apply IH; [exact Hc|]. intros j Hj. apply Hall. lia.
Qed.

(** The first round of MayContain answers [false] when its bit is clear. *)
Lemma MayContain_loop_false (n : nat) (i h1 h2 : Z) (bf : BloomFilter) :
  covers bf ->
  bit_at (bits bf) (bit_pos bf h1 h2 i) = false ->
  MayContain_loop (S n) i h1 h2 bf = Ok false.
Proof.
  intros Hc Hclear. cbn [MayContain_loop].
  assert (Hnz : (numBits bf =? 0) = false) by (apply Z.eqb_neq; destruct Hc; lia).
  rewrite Hnz.
  destruct (bit_pos_range bf h1 h2 i Hc) as (Rp & Hlt & Rm).
  unfold bit_at in Hclear.
  destruct (nth_error (bits bf) (Z.to_nat (bit_pos bf h1 h2 i / 8))) as [b|] eqn:E.
  - rewrite land_bit by lia. rewrite Hclear. reflexivity.
  - apply nth_error_None in E. lia.
Qed.

Lemma extends_refl (bf : BloomFilter) : extends bf bf.
Proof. repeat split; auto. Qed.

Lemma extends_trans (a b c : BloomFilter) : extends a b -> extends b c -> extends a c.
Proof.
  intros (n1 & h1 & l1 & m1) (n2 & h2 & l2 & m2).
  repeat split; try congruence. intros q Hq Hb. apply m2; auto.
Qed.

Lemma extends_covers (bf bf' : BloomFilter) : covers bf -> extends bf bf' -> covers bf'.
Proof.
  unfold covers, len. intros Hc (n1 & _ & l1 & _). rewrite n1, l1. exact Hc.
Qed.

Lemma all_bits_set_extends (bf bf' : BloomFilter) (key : list byte) :
  covers bf -> extends bf bf' -> all_bits_set bf key -> all_bits_set bf' key.
Proof.
  intros Hc (n1 & h1 & l1 & m1) Hall j Hj.
  assert (E : bit_pos bf' (fst (hash key)) (snd (hash key)) j
              = bit_pos bf (fst (hash key)) (snd (hash key)) j).
  { unfold bit_pos. rewrite n1. reflexivity. }
  rewrite E. apply m1.
  - destruct (bit_pos_range bf (fst (hash key)) (snd (hash key)) j Hc) as (R & _). lia.
  - apply Hall. lia.
Qed.

Lemma Add_spec (bf : BloomFilter) (key : list byte) :
  covers bf ->
  exists bf', Add bf key = Ok bf' /\ extends bf bf' /\ all_bits_set bf' key.
Proof.
  intros Hc. unfold Add. destruct (hash key) as [h1 h2] eqn:Hh.
  destruct (Add_loop_spec (Z.to_nat (numHash bf)) 0 h1 h2 bf Hc ltac:(lia))
    as (bs & Hrun & Hlen & Hmono & Hall).
  eexists. split; [exact Hrun|]. split.
  - repeat split; auto.
  - intros j Hj. rewrite Hh. cbn [fst snd bits numHash] in *.
    change (bit_pos {| bits := bs; numBits := numBits bf; numHash := numHash bf |} h1 h2 j)
      with (bit_pos bf h1 h2 j).
    apply Hall. lia.
Qed.

Lemma MayContain_all_set (bf : BloomFilter) (key : list byte) :
  covers bf -> all_bits_set bf key -> MayContain bf key = Ok true.
Proof.
  intros Hc Hall. unfold MayContain.
  destruct (hash key) as [h1 h2] eqn:Hh.
  apply MayContain_loop_true; [exact Hc|].
  intros j Hj. unfold all_bits_set in Hall. rewrite Hh in Hall. apply Hall.
  lia.
Qed.

Lemma AddAll_spec (keys : list (list byte)) : forall bf,
  covers bf ->
  exists bf', AddAll bf keys = Ok bf' /\ extends bf bf' /\
    forall k, In k keys -> all_bits_set bf' k.
Proof.
  induction keys as [|k ks IH]; intros bf Hc.
  - exists bf. split; [reflexivity|]. split; [apply extends_refl|]. intros k [].
  - cbn [AddAll]. destruct (Add_spec bf k Hc) as (bf1 & Hadd & Hext & Hset).
    rewrite Hadd. cbn [bind].
    pose proof (extends_covers bf bf1 Hc Hext) as Hc1.
    destruct (IH bf1 Hc1) as (bf2 & Hrun & Hext2 & Hall).
    exists bf2. split; [exact Hrun|]. split; [eapply extends_trans; eassumption|].
    intros k' [<-|Hin].
    + eapply all_bits_set_extends; eassumption.
    + apply Hall. exact Hin.
Qed.

Lemma NewBloomFilter_shape (ceil_m ceil_k : Z) :
  8 <= numBits (NewBloomFilter ceil_m ceil_k) < 2 ^ 32 /\
  1 <= numHash (NewBloomFilter ceil_m ceil_k) < 2 ^ 32.
Proof.
  unfold NewBloomFilter. cbn [numBits numHash].
  pose proof (u32_range ceil_m). pose proof (u32_range ceil_k).
  destruct (Z.ltb_spec (u32 ceil_m) 8); destruct (Z.ltb_spec (u32 ceil_k) 1); lia.
Qed.

Lemma NewBloomFilter_covers (ceil_m ceil_k : Z) :
  u32 ceil_m + 7 < 2 ^ 32 -> covers (NewBloomFilter ceil_m ceil_k).
Proof.
  intros Hfit. pose proof (NewBloomFilter_shape ceil_m ceil_k) as [Hb _].
  unfold covers. split; [lia|].
  unfold NewBloomFilter in *. cbn [numBits bits] in *.
  set (nb := if u32 ceil_m <? 8 then 8 else u32 ceil_m) in *.
  assert (Hnb : nb + 7 < 2 ^ 32).
  { unfold nb. destruct (Z.ltb_spec (u32 ceil_m) 8); lia. }
  rewrite u32_small by lia.
  unfold len. rewrite repeat_length.
  pose proof (Z.div_pos (nb + 7) 8 ltac:(lia) ltac:(lia)).
  rewrite Z2Nat.id by assumption.
  pose proof (Z.div_mod (nb + 7) 8 ltac:(lia)).
  pose proof (Z.mod_pos_bound (nb + 7) 8 ltac:(lia)).
  lia.
Qed.

Lemma bit_at_repeat_zero (n : nat) (p : Z) : bit_at (repeat x00 n) p = false.
Proof.
  unfold bit_at.
  destruct (nth_error (repeat x00 n) (Z.to_nat (p / 8))) as [b|] eqn:E; [|reflexivity].
  apply nth_error_In in E. apply repeat_spec in E. subst b.
  apply Z.bits_0.
Qed.

(** A filter fresh from NewBloomFilter rejects every key. *)
Lemma NewBloomFilter_rejects (ceil_m ceil_k : Z) (key : list byte) :
  u32 ceil_m + 7 < 2 ^ 32 ->
  MayContain (NewBloomFilter ceil_m ceil_k) key = Ok false.
Proof.
  intros Hfit. pose proof (NewBloomFilter_covers ceil_m ceil_k Hfit) as Hc.
  pose proof (NewBloomFilter_shape ceil_m ceil_k) as [_ Hh].
  unfold MayContain. destruct (hash key) as [h1 h2].
  destruct (Z.to_nat (numHash (NewBloomFilter ceil_m ceil_k))) as [|n] eqn:E; [lia|].
  apply MayContain_loop_false; [exact Hc|].
  unfold NewBloomFilter at 1. cbn [bits]. apply bit_at_repeat_zero.
Qed.







(** ** Write-ahead log *)

Lemma Uint32_firstn4 (l : list byte) : Uint32 (firstn 4 l) = Uint32 l.
Proof.
  destruct l as [|a [|b [|c [|d l]]]]; reflexivity.
Qed.

Lemma skipn_len_app {A : Type} (l1 l2 : list A) (n : Z) :
  n = len l1 -> skipn (Z.to_nat n) (l1 ++ l2) = l2.
Proof.
  intros ->. unfold len. rewrite Nat2Z.id.
  rewrite skipn_app, skipn_all, Nat.sub_diag. reflexivity.
Qed.

Lemma firstn_len_app {A : Type} (l1 l2 : list A) (n : Z) :
  n = len l1 -> firstn (Z.to_nat n) (l1 ++ l2) = l1.
Proof.
  intros ->. unfold len. rewrite Nat2Z.id.
  rewrite firstn_app, firstn_all, Nat.sub_diag, firstn_O, app_nil_r. reflexivity.
Qed.

Lemma subslice_app_mid {A : Type} (pre mid post : list A) (lo hi : Z) :
  lo = len pre -> hi = len pre + len mid ->
  subslice (pre ++ mid ++ post) lo hi = Some mid.
Proof.
  intros -> ->. unfold subslice.
  pose proof (len_nonneg pre). pose proof (len_nonneg mid). pose proof (len_nonneg post).
  rewrite !len_app.
  destruct (Z.leb_spec 0 (len pre)); [|lia].
  destruct (Z.leb_spec (len pre) (len pre + len mid)); [|lia].
  destruct (Z.leb_spec (len pre + len mid) (len pre + (len mid + len post))); [|lia].
  cbn [andb]. rewrite skipn_len_app by reflexivity.
  rewrite firstn_len_app by lia. reflexivity.
Qed.

Lemma make_copy_exact (n : Z) (src : list byte) :
  n = len src -> make_copy n src = src.
Proof.
  intros ->. unfold make_copy, len. rewrite Nat2Z.id.
  rewrite firstn_all, Nat.sub_diag. apply app_nil_r.
Qed.

Lemma len_PutUint32 (v : Z) : len (PutUint32 v) = 4.
Proof. reflexivity. Qed.

Lemma len_encodePayload (e : WALEntry) :
  len (encodePayload e) = 9 + len (Key e) + len (slice_bytes (Value e)).
Proof.
  unfold encodePayload. rewrite !len_app, !len_PutUint32.
  change (len [Op e]) with 1. lia.
Qed.

Lemma lxor_bound (a b n : Z) :
  0 <= n -> 0 <= a < 2 ^ n -> 0 <= b < 2 ^ n -> 0 <= Z.lxor a b < 2 ^ n.
Proof.
  intros Hn Ha Hb.
  assert (H0 : 0 <= Z.lxor a b) by (apply Z.lxor_nonneg; lia).
  split; [exact H0|].
  destruct (Z.eq_dec (Z.lxor a b) 0) as [->|Hne].
  - apply Z.pow_pos_nonneg; lia.
  - assert (Hn' : 0 < n).
    { destruct (Z.eq_dec n 0) as [->|]; [|lia].
      assert (a = 0) as -> by lia. assert (b = 0) as -> by lia.
      exfalso. apply Hne. reflexivity. }
    apply Z.log2_lt_pow2; [lia|].
    pose proof (Z.log2_lxor a b ltac:(lia) ltac:(lia)) as Hl.
    assert (La : Z.log2 a < n).
    { destruct (Z.eq_dec a 0) as [->|]; [cbn; lia|]. apply Z.log2_lt_pow2; lia. }
    assert (Lb : Z.log2 b < n).
    { destruct (Z.eq_dec b 0) as [->|]; [cbn; lia|]. apply Z.log2_lt_pow2; lia. }
    lia.
Qed.

Lemma crc32_bit_range (c : Z) : 0 <= c < 2 ^ 32 -> 0 <= crc32_bit c < 2 ^ 32.
Proof.
  intros Hc. unfold crc32_bit.
  assert (Hs : 0 <= Z.shiftr c 1 < 2 ^ 32).
  { rewrite Z.shiftr_div_pow2 by lia. change (2 ^ 1) with 2.
    pose proof (Z.div_mod c 2 ltac:(lia)).
    pose proof (Z.mod_pos_bound c 2 ltac:(lia)). lia. }
  destruct (Z.testbit c 0); [|exact Hs].
  apply lxor_bound; lia.
Qed.

Lemma crc32_byte_range (c : Z) (b : byte) :
  0 <= c < 2 ^ 32 -> 0 <= crc32_byte c b < 2 ^ 32.
Proof.
  intros Hc. unfold crc32_byte.
  pose proof (Z_of_byte_range b).
  do 8 apply crc32_bit_range.
  apply lxor_bound; lia.
Qed.

Lemma ChecksumIEEE_range (data : list byte) : 0 <= ChecksumIEEE data < 2 ^ 32.
Proof.
  unfold ChecksumIEEE.
  assert (H : forall c, 0 <= c < 2 ^ 32 -> 0 <= fold_left crc32_byte data c < 2 ^ 32).
  { induction data as [|b data IH]; intros c Hc; [exact Hc|].
    cbn [fold_left]. apply IH. apply crc32_byte_range. exact Hc. }
  apply lxor_bound; [lia| |lia]. apply H. lia.
Qed.

(** decodePayload inverts the payload Append builds. *)
Lemma decodePayload_encodePayload (e : WALEntry) :
  9 + len (Key e) + len (slice_bytes (Value e)) < 2 ^ 32 ->
  decodePayload (encodePayload e) = Ok (decoded e).
Proof.
  intros Hfit.
  pose proof (len_nonneg (Key e)) as Hk.
  pose proof (len_nonneg (slice_bytes (Value e))) as Hv.
  unfold decodePayload. rewrite len_encodePayload.
  destruct (Z.ltb_spec (9 + len (Key e) + len (slice_bytes (Value e))) 9); [lia|].
  assert (EK : Uint32 (firstn 4 (skipn 1 (encodePayload e))) = len (Key e)).
  { unfold encodePayload. cbn [app skipn]. rewrite Uint32_firstn4, Uint32_PutUint32.
    apply u32_small. lia. }
  rewrite EK.
  rewrite (u32_small (9 + len (Key e) + len (slice_bytes (Value e)))) by lia.
  rewrite (u32_small (5 + len (Key e) + 4)) by lia.
  destruct (Z.ltb_spec (9 + len (Key e) + len (slice_bytes (Value e))) (5 + len (Key e) + 4)); [lia|].
  rewrite (u32_small (5 + len (Key e))) by lia.
  rewrite (u32_small (5 + len (Key e) + 4)) by lia.
  assert (S1 : subslice (encodePayload e) 5 (5 + len (Key e)) = Some (Key e)).
  { unfold encodePayload.
    replace ([Op e] ++ PutUint32 (len (Key e)) ++ Key e
               ++ PutUint32 (len (slice_bytes (Value e))) ++ slice_bytes (Value e))
      with (([Op e] ++ PutUint32 (len (Key e))) ++ Key e
               ++ PutUint32 (len (slice_bytes (Value e))) ++ slice_bytes (Value e))
      by (rewrite <- app_assoc; reflexivity).
    apply subslice_app_mid; reflexivity. }
  rewrite S1. rewrite make_copy_exact by reflexivity.
  assert (S2 : subslice (encodePayload e) (5 + len (Key e)) (5 + len (Key e) + 4)
               = Some (PutUint32 (len (slice_bytes (Value e))))).
  { unfold encodePayload.
    replace ([Op e] ++ PutUint32 (len (Key e)) ++ Key e
               ++ PutUint32 (len (slice_bytes (Value e))) ++ slice_bytes (Value e))
      with (([Op e] ++ PutUint32 (len (Key e)) ++ Key e)
               ++ PutUint32 (len (slice_bytes (Value e))) ++ slice_bytes (Value e))
      by (rewrite <- !app_assoc; reflexivity).
    apply subslice_app_mid.
    - rewrite !len_app, len_PutUint32. change (len [Op e]) with 1. lia.
    - rewrite !len_app, !len_PutUint32. change (len [Op e]) with 1. lia. }
  rewrite S2.
  assert (EV : Uint32 (PutUint32 (len (slice_bytes (Value e)))) = len (slice_bytes (Value e))).
  { rewrite <- (app_nil_r (PutUint32 _)), Uint32_PutUint32. apply u32_small. lia. }
  rewrite EV.
  rewrite (u32_small (5 + len (Key e) + 4 + len (slice_bytes (Value e)))) by lia.
  destruct (Z.ltb_spec (9 + len (Key e) + len (slice_bytes (Value e)))
              (5 + len (Key e) + 4 + len (slice_bytes (Value e)))); [lia|].
  assert (S3 : subslice (encodePayload e) (5 + len (Key e) + 4)
                 (5 + len (Key e) + 4 + len (slice_bytes (Value e)))
               = Some (slice_bytes (Value e))).
  { unfold encodePayload.
    replace ([Op e] ++ PutUint32 (len (Key e)) ++ Key e
               ++ PutUint32 (len (slice_bytes (Value e))) ++ slice_bytes (Value e))
      with (([Op e] ++ PutUint32 (len (Key e)) ++ Key e
               ++ PutUint32 (len (slice_bytes (Value e)))) ++ slice_bytes (Value e) ++ [])
      by (rewrite <- !app_assoc, app_nil_r; reflexivity).
    apply subslice_app_mid.
    - rewrite !len_app, !len_PutUint32. change (len [Op e]) with 1. lia.
    - rewrite !len_app, !len_PutUint32. change (len [Op e]) with 1. lia. }
  rewrite S3. rewrite make_copy_exact by reflexivity.
  unfold encodePayload, decoded. reflexivity.
Qed.

(** One round of the replay loop over a record Append wrote. *)
Lemma Replay_loop_record (fuel : nat) (e : WALEntry) (rest : list byte) :
  wal_fits e ->
  Replay_loop (S fuel) (encodeRecord e ++ rest)
  = (entries <- Replay_loop fuel rest ;; Ok (decoded e :: entries)).
Proof.
  intros Hfit. unfold wal_fits in Hfit.
  pose proof (len_nonneg (Key e)) as Hk.
  pose proof (len_nonneg (slice_bytes (Value e))) as Hv.
  pose proof (len_encodePayload e) as HL.
  pose proof (len_nonneg rest) as Hr.
  cbn [Replay_loop]. unfold encodeRecord. rewrite <- !app_assoc.
  rewrite !len_app, !len_PutUint32.
  destruct (Z.ltb_spec (4 + (4 + (len (encodePayload e) + len rest))) 8); [lia|].
  rewrite Uint32_firstn4, Uint32_PutUint32.
  rewrite (u32_small (len (encodePayload e))) by lia.
  change (skipn 4 (PutUint32 (len (encodePayload e))
            ++ PutUint32 (ChecksumIEEE (encodePayload e)) ++ encodePayload e ++ rest))
    with (PutUint32 (ChecksumIEEE (encodePayload e)) ++ encodePayload e ++ rest).
  rewrite Uint32_firstn4, Uint32_PutUint32.
  change (skipn 8 (PutUint32 (len (encodePayload e))
            ++ PutUint32 (ChecksumIEEE (encodePayload e)) ++ encodePayload e ++ rest))
    with (encodePayload e ++ rest).
  destruct (Z.ltb_spec (64 * 1024 * 1024) (len (encodePayload e))); [lia|].
  rewrite len_app.
  destruct (Z.ltb_spec (len (encodePayload e) + len rest) (len (encodePayload e))); [lia|].
  rewrite firstn_len_app by reflexivity.
  rewrite skipn_len_app by reflexivity.
  assert (EC : u32 (ChecksumIEEE (encodePayload e)) = ChecksumIEEE (encodePayload e)).
  { apply u32_small. apply ChecksumIEEE_range. }
  rewrite EC, Z.eqb_refl. cbn [negb].
  rewrite decodePayload_encodePayload by lia. reflexivity.
Qed.

Lemma Replay_loop_fuel (fuel1 : nat) : forall (fuel2 : nat) (f : list byte),
  (List.length f < fuel1)%nat -> (List.length f < fuel2)%nat ->
  Replay_loop fuel1 f = Replay_loop fuel2 f.
Proof.
  induction fuel1 as [|fuel1 IH]; intros fuel2 f H1 H2; [lia|].
  destruct fuel2 as [|fuel2]; [lia|].
  cbn [Replay_loop].
  destruct (Z.ltb_spec (len f) 8) as [|H8]; [reflexivity|].
  destruct (64 * 1024 * 1024 <? Uint32 (firstn 4 f)); [reflexivity|].
  destruct (len (skipn 8 f) <? Uint32 (firstn 4 f)); [reflexivity|].
  destruct (negb _); [reflexivity|].
  destruct (decodePayload _); try reflexivity.
  rewrite (IH fuel2); [reflexivity| |].
  all: rewrite !length_skipn; unfold len in H8; lia.
Qed.

Lemma fold_left_Append (entries : list WALEntry) : forall file,
  fold_left Append entries file = file ++ List.concat (map encodeRecord entries).
Proof.
  induction entries as [|e es IH]; intros file; cbn [fold_left map List.concat].
  - rewrite app_nil_r. reflexivity.
  - rewrite IH. unfold Append. rewrite <- app_assoc. reflexivity.
Qed.

Lemma wal_of_cons (e : WALEntry) (es : list WALEntry) :
  wal_of (e :: es) = encodeRecord e ++ wal_of es.
Proof.
  unfold wal_of. rewrite !fold_left_Append. reflexivity.
Qed.

Lemma Replay_loop_app (es : list WALEntry) : forall (fuel : nat) (g : list byte),
  Forall wal_fits es ->
  (List.length (wal_of es ++ g) < fuel)%nat ->
  Replay_loop fuel (wal_of es ++ g)
  = (r <- Replay_loop (S (List.length g)) g ;; Ok (map decoded es ++ r)).
Proof.
  induction es as [|e es IH]; intros fuel g Hfit Hfuel.
  - cbn [wal_of fold_left app map] in *.
    rewrite (Replay_loop_fuel fuel (S (List.length g))) by lia.
    destruct (Replay_loop (S (List.length g)) g); reflexivity.
  - inversion Hfit as [|? ? He Hes]; subst.
    rewrite wal_of_cons in *. rewrite <- app_assoc in *.
    destruct fuel as [|fuel]; [lia|].
    rewrite Replay_loop_record by exact He.
    rewrite IH; [|exact Hes|].
    + destruct (Replay_loop (S (List.length g)) g); reflexivity.
    + rewrite length_app in Hfuel.
      assert (0 < List.length (encodeRecord e))%nat by (unfold encodeRecord; cbn; lia).
      lia.
Qed.

(** Replay of a log written by Append, followed by any bytes: the entries
    that were appended, then whatever the replay of the trailing bytes gives. *)
Lemma Replay_app (es : list WALEntry) (g : list byte) :
  Forall wal_fits es ->
  Replay (Some (wal_of es ++ g))
  = (r <- Replay (Some g) ;; Ok (map decoded es ++ r)).
Proof.
  intros Hfit. unfold Replay. apply Replay_loop_app; [exact Hfit|lia].
Qed.

Lemma Replay_wal_of (es : list WALEntry) :
  Forall wal_fits es -> Replay (Some (wal_of es)) = Ok (map decoded es).
Proof.
  intros Hfit. rewrite <- (app_nil_r (wal_of es)). rewrite Replay_app by exact Hfit.
  cbn. rewrite app_nil_r. reflexivity.
Qed.

Lemma Replay_no_frame (g : list byte) :
  starts_with_frame g = false -> Replay (Some g) = Ok [].
Proof.
  unfold starts_with_frame, Replay. intros H. cbn [Replay_loop].
  destruct (Z.ltb_spec (len g) 8) as [|H8]; [reflexivity|].
  destruct (Z.leb_spec 8 (len g)); [|lia]. cbn [andb] in H.
  destruct (Z.ltb_spec (64 * 1024 * 1024) (Uint32 (firstn 4 g))); [reflexivity|].
  destruct (Z.leb_spec (Uint32 (firstn 4 g)) (64 * 1024 * 1024)); [|lia]. cbn [andb] in H.
  destruct (Z.ltb_spec (len (skipn 8 g)) (Uint32 (firstn 4 g))); [reflexivity|].
  destruct (Z.leb_spec (Uint32 (firstn 4 g)) (len (skipn 8 g))); [|lia]. cbn [andb] in H.
  rewrite H. reflexivity.
Qed.




(** C5 at the failing input: a record with a valid header and checksum whose
    9-byte payload declares a key of 2^32-1 bytes.  The bounds check of
    decodePayload wraps around in [uint32], the slice expression for the key
    panics, and Replay returns nothing, not even the record before it. *)
Theorem replay_panics_on_overlong_key :
  decodePayload wal_overlong_key_payload = Panic /\
  Replay (Some (wal_of [wal_good_entry])) = Ok [wal_good_entry] /\
  Replay (Some (wal_of [wal_good_entry] ++ wal_overlong_key_record)) = Panic.
Proof.
  repeat split; vm_compute; reflexivity.
Qed.

(** The value length wraps around in the same way. *)
Lemma replay_panics_on_overlong_value :
  decodePayload wal_overlong_value_payload = Panic /\
  Replay (Some (wal_of [wal_good_entry] ++ wal_overlong_value_record)) = Panic.
Proof.
  repeat split; vm_compute; reflexivity.
Qed.

(** ** The order on keys *)

Lemma ascii_compare_refl (a : ascii) : Ascii.compare a a = Eq.
Proof. unfold Ascii.compare. apply N.compare_refl. Qed.

Lemma str_compare_refl (s : string) : String.compare s s = Eq.
Proof.
  induction s as [|a s IH]; [reflexivity|].
  cbn [String.compare]. rewrite ascii_compare_refl. exact IH.
Qed.

Lemma str_compare_trans_lt (a : string) : forall b c,
  String.compare a b = Lt -> String.compare b c = Lt -> String.compare a c = Lt.
Proof.
  induction a as [|x a IH]; intros [|y b] [|z c] H1 H2; cbn [String.compare] in *;
    try discriminate; try reflexivity.
  unfold Ascii.compare in *.
  destruct (N.compare_spec (N_of_ascii x) (N_of_ascii y)) as [E1|L1|G1]; try discriminate;
  destruct (N.compare_spec (N_of_ascii y) (N_of_ascii z)) as [E2|L2|G2]; try discriminate.
  - rewrite E1, E2, N.compare_refl. eapply IH; eassumption.
  - rewrite E1. apply N.compare_lt_iff in L2. rewrite L2. reflexivity.
  - rewrite <- E2. apply N.compare_lt_iff in L1. rewrite L1. reflexivity.
  - assert (L : (N_of_ascii x < N_of_ascii z)%N) by (eapply N.lt_trans; eassumption).
    apply N.compare_lt_iff in L. rewrite L. reflexivity.
Qed.

Lemma ltb_irrefl (a : string) : String.ltb a a = false.
Proof. unfold String.ltb. rewrite str_compare_refl. reflexivity. Qed.

Lemma ltb_trans (a b c : string) :
  String.ltb a b = true -> String.ltb b c = true -> String.ltb a c = true.
Proof.
  unfold String.ltb. intros H1 H2.
  destruct (String.compare a b) eqn:E1; try discriminate.
  destruct (String.compare b c) eqn:E2; try discriminate.
  rewrite (str_compare_trans_lt a b c E1 E2). reflexivity.
Qed.

Lemma ltb_asym (a b : string) : String.ltb a b = true -> String.ltb b a = false.
Proof.
  unfold String.ltb. rewrite (String.compare_antisym a b).
  destruct (String.compare b a); cbn; congruence.
Qed.

(** Neither below the other: the same key. *)
Lemma ltb_total (a b : string) :
  String.ltb a b = false -> String.ltb b a = false -> a = b.
Proof.
  unfold String.ltb. rewrite (String.compare_antisym b a).
  destruct (String.compare a b) eqn:E; cbn; try discriminate.
  intros _ _. apply String.compare_eq_iff. exact E.
Qed.

Lemma ltb_neq (a b : string) : String.ltb a b = true -> a <> b.
Proof. intros H ->. rewrite ltb_irrefl in H. discriminate. Qed.

Lemma ltb_le_trans (a b c : string) :
  String.ltb a b = true -> String.ltb c b = false -> String.ltb a c = true.
Proof.
  intros H1 H2. destruct (String.ltb a c) eqn:E; [reflexivity|].
  destruct (String.ltb c a) eqn:E2.
  - rewrite (ltb_trans c a b E2 H1) in H2. discriminate.
  - rewrite (ltb_total a c E E2) in H1. congruence.
Qed.

Lemma le_ltb_trans (a b c : string) :
  String.ltb b a = false -> String.ltb b c = true -> String.ltb a c = true.
Proof.
  intros H1 H2. destruct (String.ltb a b) eqn:E.
  - eapply ltb_trans; eassumption.
  - rewrite (ltb_total a b E H1). exact H2.
Qed.

(** ** Strictly sorted lists of keys *)

Lemma strictly_sorted_cons (k : string) (ks : list string) :
  strictly_sorted (k :: ks) = true <->
  (forall k', In k' ks -> String.ltb k k' = true) /\ strictly_sorted ks = true.
Proof.
  revert k. induction ks as [|k1 ks IH]; intros k.
  - cbn. split; [intros _; split; [intros ? []|reflexivity]|reflexivity].
  - change (strictly_sorted (k :: k1 :: ks))
      with (String.ltb k k1 && strictly_sorted (k1 :: ks)).
    rewrite andb_true_iff. split.
    + intros [H1 H2]. split; [|exact H2].
      intros k' [<-|Hin]; [exact H1|].
      apply IH in H2. destruct H2 as [H2 _].
      eapply ltb_trans; [exact H1|]. apply H2. exact Hin.
    + intros [H1 H2]. split; [|exact H2]. apply H1. left. reflexivity.
Qed.

Lemma strictly_sorted_tail (k : string) (ks : list string) :
  strictly_sorted (k :: ks) = true -> strictly_sorted ks = true.
Proof. intros H. apply strictly_sorted_cons in H. apply H. Qed.

(** ** kWayMerge *)

Lemma find_min_spec (rems : list (list SSTableEntry.t)) : forall (i : Z) (mk : string) (ms : Z),
  0 <= i -> (ms = -1 \/ 0 <= ms) ->
  let cand := (if ms =? -1 then [] else [mk]) ++ head_keys rems in
  (cand = [] -> snd (find_min rems i mk ms) = -1) /\
  (cand <> [] ->
     0 <= snd (find_min rems i mk ms) /\
     In (fst (find_min rems i mk ms)) cand /\
     forall h, In h cand -> String.ltb h (fst (find_min rems i mk ms)) = false).
Proof.
  induction rems as [|r rest IH]; intros i mk ms Hi Hms cand.
  - subst cand. cbn [find_min head_keys flat_map fst snd]. rewrite app_nil_r.
    destruct (Z.eqb_spec ms (-1)) as [E|NE].
    + split; [intros _; exact E|intros H; congruence].
    + split; [discriminate|]. intros _. split; [lia|].
      split; [left; reflexivity|]. intros h [<-|[]]. apply ltb_irrefl.
  - destruct r as [|e r].
    + cbn [find_min]. apply (IH (i + 1) mk ms); [lia|exact Hms].
    + cbn [find_min]. subst cand. cbn [head_keys flat_map app].
      fold (head_keys rest).
      specialize (IH (i + 1)).
      assert (Hne : (if ms =? -1 then [] else [mk]) ++ SSTableEntry.Key e :: head_keys rest <> []).
      { destruct (ms =? -1); discriminate. }
      split; [intros H; congruence|]. intros _.
      destruct ((ms =? -1) || String.ltb (SSTableEntry.Key e) mk) eqn:C.
      * specialize (IH (SSTableEntry.Key e) i ltac:(lia) ltac:(right; lia)).
        assert (Ei : (i =? -1) = false) by (apply Z.eqb_neq; lia).
        rewrite Ei in IH. cbn [app] in IH. destruct IH as [_ IH].
        specialize (IH ltac:(discriminate)). destruct IH as (H0 & Hin & Hmin).
        split; [exact H0|]. split.
        -- apply in_or_app. right. exact Hin.
        -- intros h Hh. apply in_app_or in Hh. destruct Hh as [Hh|Hh]; [|apply Hmin; exact Hh].
           destruct (Z.eqb_spec ms (-1)) as [|NE]; [destruct Hh|].
           destruct Hh as [<-|[]]. cbn [orb] in C.
           apply ltb_asym. apply (le_ltb_trans _ (SSTableEntry.Key e)); [|exact C].
           apply Hmin. left. reflexivity.
      * apply orb_false_iff in C. destruct C as [C1 C2].
        specialize (IH mk ms ltac:(lia) Hms). rewrite C1 in *. cbn [app] in *.
        destruct IH as [_ IH]. specialize (IH ltac:(discriminate)).
        destruct IH as (H0 & Hin & Hmin).
        split; [exact H0|]. split.
        -- destruct Hin as [Hin|Hin]; [left; exact Hin|right; right; exact Hin].
        -- intros h [<-|[<-|Hh]].
           ++ apply Hmin. left. reflexivity.
           ++ destruct (String.ltb (SSTableEntry.Key e) (fst (find_min rest (i + 1) mk ms))) eqn:L;
                [|reflexivity].
              rewrite (ltb_le_trans _ _ mk L) in C2; [discriminate|].
              apply Hmin. left. reflexivity.
           ++ apply Hmin. right. exact Hh.
Qed.

Lemma pick_winner_rems (rems : list (list SSTableEntry.t)) :
  forall (i : Z) (m : string) (w : SSTableEntry.t) (wi : Z),
  snd (pick_winner rems i m w wi) = map (advance m) rems.
Proof.
  induction rems as [|r rest IH]; intros i m w wi; [reflexivity|].
  destruct r as [|e r]; cbn [pick_winner map advance].
  - specialize (IH (i + 1) m w wi).
    destruct (pick_winner rest (i + 1) m w wi) as [[w' wi'] rest']. cbn [snd] in *.
    rewrite IH. reflexivity.
  - destruct (String.eqb (SSTableEntry.Key e) m).
    + destruct ((wi =? -1) || (i <? wi)).
      * specialize (IH (i + 1) m e i).
        destruct (pick_winner rest (i + 1) m e i) as [[w' wi'] rest']. cbn [snd] in *.
        rewrite IH. reflexivity.
      * specialize (IH (i + 1) m w wi).
        destruct (pick_winner rest (i + 1) m w wi) as [[w' wi'] rest']. cbn [snd] in *.
        rewrite IH. reflexivity.
    + specialize (IH (i + 1) m w wi).
      destruct (pick_winner rest (i + 1) m w wi) as [[w' wi'] rest']. cbn [snd] in *.
      rewrite IH. reflexivity.
Qed.

Lemma pick_winner_winner (rems : list (list SSTableEntry.t)) :
  forall (i : Z) (m : string) (w : SSTableEntry.t) (wi : Z),
  0 <= i ->
  (wi = -1 ->
     fst (fst (pick_winner rems i m w wi))
     = match first_at m rems with Some e => e | None => w end) /\
  (0 <= wi < i -> fst (fst (pick_winner rems i m w wi)) = w).
Proof.
  induction rems as [|r rest IH]; intros i m w wi Hi.
  - cbn. auto.
  - destruct r as [|e r]; cbn [pick_winner first_at].
    + specialize (IH (i + 1) m w wi ltac:(lia)).
      destruct (pick_winner rest (i + 1) m w wi) as [[w' wi'] rest']. cbn [fst] in *.
      destruct IH as [IH1 IH2]. split; [exact IH1|]. intros H. apply IH2. lia.
    + destruct (String.eqb (SSTableEntry.Key e) m).
      * split.
        -- intros ->. change ((-1 =? -1) || (i <? -1)) with true. cbv beta iota.
           specialize (IH (i + 1) m e i ltac:(lia)).
           destruct (pick_winner rest (i + 1) m e i) as [[w' wi'] rest']. cbn [fst] in *.
           apply IH. lia.
        -- intros Hwi.
           assert (C : (wi =? -1) || (i <? wi) = false).
           { apply orb_false_iff. split; [apply Z.eqb_neq|apply Z.ltb_ge]; lia. }
           rewrite C. cbv beta iota.
           specialize (IH (i + 1) m w wi ltac:(lia)).
           destruct (pick_winner rest (i + 1) m w wi) as [[w' wi'] rest']. cbn [fst] in *.
           apply IH. lia.
      * specialize (IH (i + 1) m w wi ltac:(lia)).
        destruct (pick_winner rest (i + 1) m w wi) as [[w' wi'] rest']. cbn [fst] in *.
        destruct IH as [IH1 IH2]. split; [exact IH1|]. intros H. apply IH2. lia.
Qed.

Lemma first_at_head (m : string) (rems : list (list SSTableEntry.t)) :
  In m (head_keys rems) ->
  exists e, first_at m rems = Some e /\ SSTableEntry.Key e = m /\
    exists r, In (e :: r) rems.
Proof.
  induction rems as [|r rest IH]; intros Hin; [destruct Hin|].
  destruct r as [|e r]; cbn [head_keys flat_map app first_at] in *.
  - destruct (IH Hin) as (e & H1 & H2 & r & H3).
    exists e. repeat split; auto. exists r. right. exact H3.
  - fold (head_keys rest) in Hin.
    destruct (String.eqb_spec (SSTableEntry.Key e) m) as [E|NE].
    + exists e. repeat split; auto. exists r. left. reflexivity.
    + destruct Hin as [Hin|Hin]; [congruence|].
      destruct (IH Hin) as (e' & H1 & H2 & r' & H3).
      exists e'. repeat split; auto. exists r'. right. exact H3.
Qed.

Lemma head_keys_nil (rems : list (list SSTableEntry.t)) :
  head_keys rems = [] -> forall r, In r rems -> r = [].
Proof.
  induction rems as [|r0 rest IH]; intros H r Hin; [destruct Hin|].
  destruct r0 as [|e r0]; cbn [head_keys flat_map app] in H; [|discriminate].
  destruct Hin as [<-|Hin]; [reflexivity|]. apply IH; assumption.
Qed.

Lemma head_keys_In (rems : list (list SSTableEntry.t)) (e : SSTableEntry.t)
    (r : list SSTableEntry.t) :
  In (e :: r) rems -> In (SSTableEntry.Key e) (head_keys rems).
Proof.
  intros Hin. unfold head_keys. apply in_flat_map. exists (e :: r).
  split; [exact Hin|left; reflexivity].
Qed.

Lemma sorted_entries_cons (e : SSTableEntry.t) (r : list SSTableEntry.t) :
  sorted_entries (e :: r) <->
  (forall e', In e' r -> String.ltb (SSTableEntry.Key e) (SSTableEntry.Key e') = true)
  /\ sorted_entries r.
Proof.
  unfold sorted_entries. cbn [map]. rewrite strictly_sorted_cons. split.
  - intros [H1 H2]. split; [|exact H2]. intros e' Hin. apply H1. apply in_map. exact Hin.
  - intros [H1 H2]. split; [|exact H2]. intros k' Hin.
    apply in_map_iff in Hin. destruct Hin as (e' & <- & Hin). apply H1. exact Hin.
Qed.

Lemma find_key_cons (k : string) (e : SSTableEntry.t) (l : list SSTableEntry.t) :
  find_key k (e :: l)
  = if String.eqb (SSTableEntry.Key e) k then Some e else find_key k l.
Proof. reflexivity. Qed.

Lemma find_key_None (k : string) (l : list SSTableEntry.t) :
  (forall e, In e l -> SSTableEntry.Key e <> k) -> find_key k l = None.
Proof.
  intros H. unfold find_key. destruct (find _ l) as [e|] eqn:E; [|reflexivity].
  apply find_some in E. destruct E as [Hin Heq].
  apply String.eqb_eq in Heq. exfalso. exact (H e Hin Heq).
Qed.

Lemma find_key_Some (k : string) (l : list SSTableEntry.t) (e : SSTableEntry.t) :
  find_key k l = Some e -> In e l /\ SSTableEntry.Key e = k.
Proof.
  unfold find_key. intros H. apply find_some in H. destruct H as [Hin Heq].
  apply String.eqb_eq in Heq. auto.
Qed.

(** In a sorted table an entry is the one found for its key. *)
Lemma find_key_sorted (l : list SSTableEntry.t) (e : SSTableEntry.t) :
  sorted_entries l -> In e l -> find_key (SSTableEntry.Key e) l = Some e.
Proof.
  induction l as [|a l IH]; intros Hs Hin; [destruct Hin|].
  apply sorted_entries_cons in Hs. destruct Hs as [Hlt Hs].
  unfold find_key. cbn [find].
  destruct Hin as [->|Hin].
  - rewrite String.eqb_refl. reflexivity.
  - destruct (String.eqb_spec (SSTableEntry.Key a) (SSTableEntry.Key e)) as [E|NE].
    + specialize (Hlt e Hin). rewrite E, ltb_irrefl in Hlt. discriminate.
    + apply IH; assumption.
Qed.

(** With [m] the least key under the cursors, a sorted set holds [m] only
    under its cursor. *)
Lemma find_key_min (m : string) (r : list SSTableEntry.t) :
  sorted_entries r ->
  (forall e r', r = e :: r' -> String.ltb (SSTableEntry.Key e) m = false) ->
  find_key m r = match r with
                 | [] => None
                 | e :: _ => if String.eqb (SSTableEntry.Key e) m then Some e else None
                 end.
Proof.
  intros Hs Hmin. destruct r as [|e r]; [reflexivity|].
  unfold find_key. cbn [find].
  destruct (String.eqb_spec (SSTableEntry.Key e) m) as [E|NE]; [reflexivity|].
  apply find_key_None. intros e' Hin Heq.
  apply sorted_entries_cons in Hs. destruct Hs as [Hlt _].
  specialize (Hlt e' Hin). rewrite Heq in Hlt.
  rewrite (Hmin e r eq_refl) in Hlt. discriminate.
Qed.

Lemma newest_min (m : string) (rems : list (list SSTableEntry.t)) :
  Forall sorted_entries rems ->
  (forall h, In h (head_keys rems) -> String.ltb h m = false) ->
  newest rems m = first_at m rems.
Proof.
  induction rems as [|r rest IH]; intros Hs Hmin; [reflexivity|].
  inversion Hs as [|? ? Hr Hrest]; subst.
  cbn [newest]. rewrite (find_key_min m r Hr).
  - destruct r as [|e r]; cbn [first_at].
    + apply IH; [exact Hrest|]. intros h Hh. apply Hmin. exact Hh.
    + destruct (String.eqb (SSTableEntry.Key e) m); [reflexivity|].
      apply IH; [exact Hrest|]. intros h Hh. apply Hmin.
      cbn [head_keys flat_map app]. right. exact Hh.
  - intros e r' ->. apply Hmin. cbn [head_keys flat_map app]. left. reflexivity.
Qed.

Lemma find_key_advance (m k : string) (r : list SSTableEntry.t) :
  k <> m -> find_key k (advance m r) = find_key k r.
Proof.
  intros Hne. destruct r as [|e r]; [reflexivity|]. cbn [advance].
  destruct (String.eqb_spec (SSTableEntry.Key e) m) as [E|NE]; [|reflexivity].
  unfold find_key. cbn [find].
  destruct (String.eqb_spec (SSTableEntry.Key e) k) as [E'|]; [congruence|reflexivity].
Qed.

Lemma newest_advance (m k : string) (rems : list (list SSTableEntry.t)) :
  k <> m -> newest (map (advance m) rems) k = newest rems k.
Proof.
  intros Hne. induction rems as [|r rest IH]; [reflexivity|].
  cbn [map newest]. rewrite find_key_advance by exact Hne. rewrite IH. reflexivity.
Qed.

Lemma advance_sorted (m : string) (r : list SSTableEntry.t) :
  sorted_entries r -> sorted_entries (advance m r).
Proof.
  intros Hs. destruct r as [|e r]; [exact Hs|]. cbn [advance].
  destruct (String.eqb (SSTableEntry.Key e) m); [|exact Hs].
  apply sorted_entries_cons in Hs. apply Hs.
Qed.

Lemma advance_incl (m : string) (r : list SSTableEntry.t) (e : SSTableEntry.t) :
  In e (advance m r) -> In e r.
Proof.
  destruct r as [|a r]; [auto|]. cbn [advance].
  destruct (String.eqb (SSTableEntry.Key a) m); [right; assumption|auto].
Qed.

(** After a round every key left in a set is above the key emitted. *)
Lemma advance_above (m : string) (r : list SSTableEntry.t) (e : SSTableEntry.t) :
  sorted_entries r ->
  (forall a r', r = a :: r' -> String.ltb (SSTableEntry.Key a) m = false) ->
  In e (advance m r) -> String.ltb m (SSTableEntry.Key e) = true.
Proof.
  intros Hs Hmin Hin. destruct r as [|a r]; [destruct Hin|].
  apply sorted_entries_cons in Hs. destruct Hs as [Hlt Hs].
  specialize (Hmin a r eq_refl). cbn [advance] in Hin.
  destruct (String.eqb_spec (SSTableEntry.Key a) m) as [E|NE].
  - rewrite <- E. apply Hlt. exact Hin.
  - assert (La : String.ltb m (SSTableEntry.Key a) = true).
    { destruct (String.ltb m (SSTableEntry.Key a)) eqn:L; [reflexivity|].
      exfalso. apply NE. apply ltb_total; assumption. }
    destruct Hin as [<-|Hin]; [exact La|].
    eapply ltb_trans; [exact La|]. apply Hlt. exact Hin.
Qed.

Lemma length_concat_advance (m : string) (rems : list (list SSTableEntry.t)) :
  (List.length (List.concat (map (advance m) rems)) <= List.length (List.concat rems))%nat /\
  (In m (head_keys rems) ->
   (List.length (List.concat (map (advance m) rems)) < List.length (List.concat rems))%nat).
Proof.
  induction rems as [|r rest [IH1 IH2]]; [split; [auto|intros []]|].
  cbn [map List.concat]. rewrite !length_app.
  destruct r as [|e r]; cbn [advance head_keys flat_map app].
  - split; [cbn; lia|]. intros H. specialize (IH2 H). cbn. lia.
  - fold (head_keys rest).
    destruct (String.eqb_spec (SSTableEntry.Key e) m) as [E|NE].
    + split; [cbn [List.length]; lia|]. intros _. cbn [List.length]. lia.
    + split; [lia|]. intros [H|H]; [congruence|]. specialize (IH2 H). lia.
Qed.

(** One round of the merge: it stops when every set is exhausted, and
    otherwise emits the head of the first set that is at the least key and
    advances every set that is at that key. *)
Lemma kWayMerge_round (rems : list (list SSTableEntry.t)) :
  (head_keys rems = [] /\ forall fuel, kWayMerge_loop (S fuel) rems = []) \/
  (exists m w,
     In m (head_keys rems) /\
     (forall h, In h (head_keys rems) -> String.ltb h m = false) /\
     first_at m rems = Some w /\ SSTableEntry.Key w = m /\
     forall fuel,
       kWayMerge_loop (S fuel) rems = w :: kWayMerge_loop fuel (map (advance m) rems)).
Proof.
  pose proof (find_min_spec rems 0 EmptyString (-1) ltac:(lia) ltac:(left; reflexivity)) as Hfm.
  cbn zeta in Hfm. change (-1 =? -1) with true in Hfm. cbn [app] in Hfm.
  destruct Hfm as [Hnil Hcons].
  destruct (head_keys rems) as [|h0 hs] eqn:Eh.
  - left. split; [reflexivity|]. intros fuel. cbn [kWayMerge_loop].
    specialize (Hnil eq_refl).
    destruct (find_min rems 0 EmptyString (-1)) as [m ms]. cbn [snd] in Hnil. subst ms.
    reflexivity.
  - right. specialize (Hcons ltac:(discriminate)). destruct Hcons as (H0 & Hin & Hmin).
    destruct (find_min rems 0 EmptyString (-1)) as [m ms] eqn:Efm. cbn [fst snd] in *.
    rewrite <- Eh in Hin, Hmin.
    destruct (first_at_head m rems Hin) as (w & Hw & Hk & _).
    exists m, w. rewrite <- Eh.
    split; [exact Hin|]. split; [exact Hmin|]. split; [exact Hw|]. split; [exact Hk|].
    intros fuel. cbn [kWayMerge_loop]. rewrite Efm.
    assert (Ems : (ms =? -1) = false) by (apply Z.eqb_neq; lia). rewrite Ems.
    pose proof (pick_winner_rems rems 0 m zero_SSTableEntry (-1)) as Hr.
    pose proof (pick_winner_winner rems 0 m zero_SSTableEntry (-1) ltac:(lia)) as [Hwin _].
    specialize (Hwin eq_refl). rewrite Hw in Hwin.
    destruct (pick_winner rems 0 m zero_SSTableEntry (-1)) as [[w' wi'] rems'].
    cbn [fst snd] in *. subst w' rems'. reflexivity.
Qed.

Lemma head_min_of_heads (rems : list (list SSTableEntry.t)) (m : string) :
  (forall h, In h (head_keys rems) -> String.ltb h m = false) ->
  forall r, In r rems ->
  forall a r', r = a :: r' -> String.ltb (SSTableEntry.Key a) m = false.
Proof.
  intros Hmin r Hin a r' ->. apply Hmin. eapply head_keys_In. exact Hin.
Qed.

Lemma first_at_In (m : string) (rems : list (list SSTableEntry.t)) (w : SSTableEntry.t) :
  first_at m rems = Some w -> exists r, In r rems /\ In w r.
Proof.
  induction rems as [|r rest IH]; [discriminate|].
  destruct r as [|e r]; cbn [first_at].
  - intros H. destruct (IH H) as (r' & H1 & H2). exists r'. split; [right|]; assumption.
  - destruct (String.eqb (SSTableEntry.Key e) m).
    + intros [= <-]. exists (e :: r). split; left; reflexivity.
    + intros H. destruct (IH H) as (r' & H1 & H2). exists r'. split; [right|]; assumption.
Qed.

(** The merge of sorted sets is sorted, and made of entries of the sets. *)
Lemma kWayMerge_loop_sorted (fuel : nat) : forall rems,
  Forall sorted_entries rems ->
  sorted_entries (kWayMerge_loop fuel rems) /\
  forall e, In e (kWayMerge_loop fuel rems) -> exists r, In r rems /\ In e r.
Proof.
  induction fuel as [|fuel IH]; intros rems Hs.
  - cbn. split; [reflexivity|intros e []].
  - destruct (kWayMerge_round rems) as [[_ Hstop]|(m & w & Hin & Hmin & Hw & Hk & Hstep)].
    + rewrite Hstop. split; [reflexivity|intros e []].
    + rewrite Hstep.
      assert (Hs' : Forall sorted_entries (map (advance m) rems)).
      { apply Forall_map. eapply Forall_impl; [|exact Hs]. intros r. apply advance_sorted. }
      destruct (IH _ Hs') as [IHs IHin]. split.
      * apply sorted_entries_cons. split; [|exact IHs].
        intros e' He'. destruct (IHin e' He') as (r' & Hr' & Her').
        apply in_map_iff in Hr'. destruct Hr' as (r & <- & Hr).
        rewrite Hk. apply (advance_above m r).
        -- rewrite Forall_forall in Hs. apply Hs. exact Hr.
        -- apply (head_min_of_heads rems m Hmin r Hr).
        -- exact Her'.
      * intros e [<-|He].
        -- apply (first_at_In m). exact Hw.
        -- destruct (IHin e He) as (r' & Hr' & Her').
           apply in_map_iff in Hr'. destruct Hr' as (r & <- & Hr).
           exists r. split; [exact Hr|]. eapply advance_incl. exact Her'.
Qed.

(** The merge holds, for every key, the entry of the newest set that has
    the key. *)
Lemma kWayMerge_loop_newest (fuel : nat) : forall rems,
  Forall sorted_entries rems ->
  (List.length (List.concat rems) < fuel)%nat ->
  forall k, find_key k (kWayMerge_loop fuel rems) = newest rems k.
Proof.
  induction fuel as [|fuel IH]; intros rems Hs Hfuel k; [lia|].
  destruct (kWayMerge_round rems) as [[Hnil Hstop]|(m & w & Hin & Hmin & Hw & Hk & Hstep)].
  - rewrite Hstop. cbn. symmetry.
    pose proof (head_keys_nil rems Hnil) as Hall. clear - Hall.
    induction rems as [|r rest IHr]; [reflexivity|].
    cbn [newest]. rewrite (Hall r ltac:(left; reflexivity)). cbn.
    apply IHr. intros r' Hr'. apply Hall. right. exact Hr'.
  - rewrite Hstep. rewrite find_key_cons.
    destruct (String.eqb_spec (SSTableEntry.Key w) k) as [E|NE].
    + subst k. rewrite Hk. rewrite (newest_min m rems Hs Hmin). symmetry. exact Hw.
    + rewrite IH.
      * apply newest_advance. congruence.
      * apply Forall_map. eapply Forall_impl; [|exact Hs]. intros r. apply advance_sorted.
      * destruct (length_concat_advance m rems) as [_ Hlt]. specialize (Hlt Hin). lia.
Qed.

Lemma kWayMerge_newest (sets : list (list SSTableEntry.t)) (k : string) :
  Forall sorted_entries sets -> find_key k (kWayMerge sets) = newest sets k.
Proof.
  intros Hs. unfold kWayMerge. apply kWayMerge_loop_newest; [exact Hs|lia].
Qed.

Lemma kWayMerge_sorted (sets : list (list SSTableEntry.t)) :
  Forall sorted_entries sets -> sorted_entries (kWayMerge sets).
Proof.
  intros Hs. unfold kWayMerge. apply kWayMerge_loop_sorted. exact Hs.
Qed.

Lemma sorted_entries_filter (f : SSTableEntry.t -> bool) (l : list SSTableEntry.t) :
  sorted_entries l -> sorted_entries (filter f l).
Proof.
  induction l as [|e l IH]; intros Hs; [exact Hs|].
  apply sorted_entries_cons in Hs. destruct Hs as [Hlt Hs]. cbn [filter].
  destruct (f e); [|apply IH; exact Hs].
  apply sorted_entries_cons. split; [|apply IH; exact Hs].
  intros e' He'. apply filter_In in He'. apply Hlt. apply He'.
Qed.

(** The newest set holding a key, by index. *)
Lemma newest_by_index (sets : list (list SSTableEntry.t)) : forall (i : nat) s e,
  Forall sorted_entries sets ->
  nth_error sets i = Some s -> In e s ->
  (forall j s' e', (j < i)%nat -> nth_error sets j = Some s' -> In e' s' ->
                   SSTableEntry.Key e' <> SSTableEntry.Key e) ->
  newest sets (SSTableEntry.Key e) = Some e.
Proof.
  induction sets as [|s0 rest IH]; intros i s e Hs Hnth Hin Hnewer.
  - destruct i; discriminate.
  - inversion Hs as [|? ? Hs0 Hrest]; subst. cbn [newest].
    destruct i as [|i].
    + injection Hnth as <-. rewrite (find_key_sorted s0 e Hs0 Hin). reflexivity.
    + rewrite find_key_None.
      * apply (IH i s e Hrest Hnth Hin).
        intros j s' e' Hj Hnj Hin'. apply (Hnewer (S j) s' e'); [lia|exact Hnj|exact Hin'].
      * intros e' Hin'. apply (Hnewer 0%nat s0 e'); [lia|reflexivity|exact Hin'].
Qed.

Lemma Compact_live_sorted (sets : list (list SSTableEntry.t)) :
  Forall sorted_entries sets -> sorted_entries (Compact_live sets).
Proof.
  intros Hs. unfold Compact_live. apply sorted_entries_filter.
  apply kWayMerge_sorted. exact Hs.
Qed.

(** C10.  kWayMerge of sets that are each strictly sorted by key (so with at
    most one entry per key) is strictly sorted by key, and so are the
    entries that Compact hands to the SSTable writer after dropping the
    tombstones. *)
Theorem kWayMerge_strictly_sorted (sets : list (list SSTableEntry.t)) :
  Forall sorted_entries sets ->
  sorted_entries (kWayMerge sets) /\ sorted_entries (Compact_live sets).
Proof.
  intros Hs. split.
  - apply kWayMerge_sorted. exact Hs.
  - apply Compact_live_sorted. exact Hs.
Qed.

(** ** SSTable files: writing, opening, reading back *)

Lemma len_bytes_of (k : string) : len (bytes_of k) = str_len k.
Proof.
  unfold len, str_len, bytes_of, list_byte_of_string. rewrite length_map. f_equal.
  induction k as [|a k IH]; [reflexivity|]. cbn. f_equal. exact IH.
Qed.

Lemma write_data_spec (entries : list SSTableEntry.t) : forall offset,
  write_data entries offset
  = (data_of entries, index_of entries offset, offset + len (data_of entries)).
Proof.
  induction entries as [|e rest IH]; intros offset.
  - cbn. rewrite Z.add_0_r. reflexivity.
  - cbn [write_data]. rewrite IH. unfold data_of. cbn [map List.concat index_of].
    rewrite len_app. rewrite Z.add_assoc. reflexivity.
Qed.

Lemma write_index_spec (idx : list indexEntry.t) : forall offset,
  write_index idx offset = (index_bytes idx, offset + len (index_bytes idx)).
Proof.
  induction idx as [|ie rest IH]; intros offset.
  - cbn. rewrite Z.add_0_r. reflexivity.
  - cbn [write_index]. rewrite IH. unfold index_bytes. cbn [map List.concat].
    rewrite len_app. rewrite Z.add_assoc. reflexivity.
Qed.

Lemma ReadAt_mid (pre mid post : list byte) (n off : Z) :
  n = len mid -> off = len pre ->
  ReadAt (pre ++ mid ++ post) n off = Some mid.
Proof.
  intros -> ->. unfold ReadAt.
  pose proof (len_nonneg pre). pose proof (len_nonneg mid). pose proof (len_nonneg post).
  destruct (Z.ltb_spec (len pre) 0); [lia|].
  destruct (Z.eqb_spec (len mid) 0) as [E|NE].
  - destruct mid; [reflexivity|]. unfold len in E. cbn in E. lia.
  - rewrite !len_app.
    destruct (Z.leb_spec (len pre + len mid) (len pre + (len mid + len post))); [|lia].
    rewrite skipn_len_app by reflexivity.
    rewrite firstn_len_app by reflexivity. reflexivity.
Qed.

Lemma int64_small (v : Z) : 0 <= v < 2 ^ 63 -> int64 (u64 v) = v.
Proof.
  intros H. rewrite u64_small by lia. unfold int64.
  destruct (Z.ltb_spec v (2 ^ 63)); lia.
Qed.

Lemma len_encode_data_entry (e : SSTableEntry.t) :
  len (encode_data_entry e)
  = 9 + str_len (SSTableEntry.Key e) + len (slice_bytes (SSTableEntry.Value e)).
Proof.
  unfold encode_data_entry. rewrite !len_app, !len_PutUint32, len_bytes_of.
  change (len [if SSTableEntry.Tombstone e then x01 else x00]) with 1. lia.
Qed.

Lemma len_encode_index_entry (ie : indexEntry.t) :
  len (encode_index_entry ie) = 12 + str_len (indexEntry.Key ie).
Proof.
  unfold encode_index_entry. rewrite !len_app, !len_PutUint32, len_bytes_of.
  change (len (PutUint64 (indexEntry.Offset ie))) with 8. lia.
Qed.

Lemma Uint32_PutUint32_exact (v : Z) : 0 <= v < 2 ^ 32 -> Uint32 (PutUint32 v) = v.
Proof.
  intros H. rewrite <- (app_nil_r (PutUint32 v)), Uint32_PutUint32. apply u32_small. exact H.
Qed.

Lemma Uint64_PutUint64_exact (v : Z) : Uint64 (PutUint64 v) = u64 v.
Proof.
  rewrite <- (app_nil_r (PutUint64 v)). apply Uint64_PutUint64.
Qed.

(** Reading back the data entry written at [len pre]. *)
Lemma readEntry_written (pre post : list byte) (e : SSTableEntry.t)
    (idx : list indexEntry.t) (bf : BloomFilter) :
  entry_fits e ->
  readEntry {| file := pre ++ encode_data_entry e ++ post; index := idx; bloom := bf |} (len pre)
  = Ok (Some (Bytes (slice_bytes (SSTableEntry.Value e)), SSTableEntry.Tombstone e)).
Proof.
  intros [Hk Hv]. unfold readEntry. cbn [file].
  set (kb := bytes_of (SSTableEntry.Key e)).
  set (vb := slice_bytes (SSTableEntry.Value e)) in *.
  set (tb := if SSTableEntry.Tombstone e then x01 else x00).
  assert (Ekb : len kb = str_len (SSTableEntry.Key e)) by apply len_bytes_of.
  pose proof (len_nonneg kb). pose proof (len_nonneg vb). pose proof (len_nonneg pre).
  assert (Ef : pre ++ encode_data_entry e ++ post
               = pre ++ PutUint32 (len kb) ++ (kb ++ PutUint32 (len vb) ++ vb ++ [tb] ++ post)).
  { unfold encode_data_entry. fold kb vb tb. rewrite <- !app_assoc. reflexivity. }
  rewrite Ef at 1. rewrite ReadAt_mid by reflexivity.
  rewrite Uint32_PutUint32_exact by lia.
  assert (Ef2 : pre ++ encode_data_entry e ++ post
               = (pre ++ PutUint32 (len kb) ++ kb) ++ PutUint32 (len vb) ++ (vb ++ [tb] ++ post)).
  { unfold encode_data_entry. fold kb vb tb. rewrite <- !app_assoc. reflexivity. }
  rewrite Ef2 at 1.
  rewrite ReadAt_mid; [|reflexivity|rewrite !len_app, len_PutUint32; lia].
  rewrite Uint32_PutUint32_exact by lia.
  rewrite (u32_small (len vb + 1)) by lia.
  assert (Ef3 : pre ++ encode_data_entry e ++ post
               = (pre ++ PutUint32 (len kb) ++ kb ++ PutUint32 (len vb)) ++ (vb ++ [tb]) ++ post).
  { unfold encode_data_entry. fold kb vb tb. rewrite <- !app_assoc. reflexivity. }
  rewrite Ef3.
  rewrite ReadAt_mid;
    [|rewrite len_app; reflexivity|rewrite !len_app, !len_PutUint32; lia].
  assert (S1 : subslice (vb ++ [tb]) 0 (len vb) = Some vb).
  { apply (subslice_app_mid [] vb [tb]); reflexivity. }
  rewrite S1.
  assert (S2 : nth_error (vb ++ [tb]) (Z.to_nat (len vb)) = Some tb).
  { unfold len. rewrite Nat2Z.id. rewrite nth_error_app2 by lia.
    rewrite Nat.sub_diag. reflexivity. }
  rewrite S2. unfold tb. destruct (SSTableEntry.Tombstone e); reflexivity.
Qed.

Lemma ReadAll_loop_written (entries : list SSTableEntry.t) :
  forall (pre post : list byte) (idx : list indexEntry.t) (bf : BloomFilter),
  Forall entry_fits entries ->
  ReadAll_loop {| file := pre ++ data_of entries ++ post; index := idx; bloom := bf |}
    (index_of entries (len pre))
  = Ok (map normalized entries).
Proof.
  induction entries as [|e rest IH]; intros pre post idx bf Hfit; [reflexivity|].
  inversion Hfit as [|? ? He Hrest]; subst.
  cbn [index_of ReadAll_loop indexEntry.Offset indexEntry.Key map].
  unfold data_of. cbn [map List.concat]. fold (data_of rest).
  rewrite <- app_assoc.
  rewrite readEntry_written by exact He. cbn [bind slice_bytes].
  replace (pre ++ encode_data_entry e ++ data_of rest ++ post)
    with ((pre ++ encode_data_entry e) ++ data_of rest ++ post)
    by (rewrite <- app_assoc; reflexivity).
  replace (len pre + len (encode_data_entry e)) with (len (pre ++ encode_data_entry e))
    by apply len_app.
  rewrite IH by exact Hrest. reflexivity.
Qed.

(** The index entries as OpenSSTable decodes them. *)
Lemma decode_index_written (idx : list indexEntry.t) : forall (pre post : list byte),
  Forall (fun ie => str_len (indexEntry.Key ie) < 2 ^ 32 /\
                    0 <= indexEntry.Offset ie < 2 ^ 63) idx ->
  decode_index (List.length idx) (pre ++ index_bytes idx ++ post) (len pre) = Ok idx.
Proof.
  induction idx as [|ie rest IH]; intros pre post Hfit; [reflexivity|].
  inversion Hfit as [|? ? [Hk Ho] Hrest]; subst.
  cbn [List.length decode_index]. unfold index_bytes. cbn [map List.concat].
  fold (index_bytes rest).
  set (kb := bytes_of (indexEntry.Key ie)).
  assert (Ekb : len kb = str_len (indexEntry.Key ie)) by apply len_bytes_of.
  pose proof (len_nonneg kb). pose proof (len_nonneg pre).
  assert (E1 : pre ++ (encode_index_entry ie ++ index_bytes rest) ++ post
             = pre ++ PutUint32 (len kb)
                 ++ (kb ++ PutUint64 (indexEntry.Offset ie) ++ index_bytes rest ++ post)).
  { unfold encode_index_entry. fold kb. rewrite <- !app_assoc. reflexivity. }
  rewrite E1 at 1. rewrite subslice_app_mid by reflexivity.
  rewrite Uint32_PutUint32_exact by lia.
  assert (E2 : pre ++ (encode_index_entry ie ++ index_bytes rest) ++ post
             = (pre ++ PutUint32 (len kb)) ++ kb
                 ++ (PutUint64 (indexEntry.Offset ie) ++ index_bytes rest ++ post)).
  { unfold encode_index_entry. fold kb. rewrite <- !app_assoc. reflexivity. }
  rewrite E2 at 1.
  rewrite subslice_app_mid; [|rewrite len_app; reflexivity|rewrite len_app; reflexivity].
  assert (E3 : pre ++ (encode_index_entry ie ++ index_bytes rest) ++ post
             = (pre ++ PutUint32 (len kb) ++ kb) ++ PutUint64 (indexEntry.Offset ie)
                 ++ (index_bytes rest ++ post)).
  { unfold encode_index_entry. fold kb. rewrite <- !app_assoc. reflexivity. }
  rewrite E3 at 1.
  rewrite subslice_app_mid;
    [|rewrite !len_app, len_PutUint32; lia
     |rewrite !len_app, len_PutUint32; change (len (PutUint64 (indexEntry.Offset ie))) with 8; lia].
  rewrite Uint64_PutUint64_exact, int64_small by exact Ho.
  unfold kb, bytes_of. rewrite string_of_list_byte_of_string.
  replace (pre ++ (encode_index_entry ie ++ index_bytes rest) ++ post)
    with ((pre ++ encode_index_entry ie) ++ index_bytes rest ++ post)
    by (rewrite <- !app_assoc; reflexivity).
  replace (len pre + 4 + len (list_byte_of_string (indexEntry.Key ie)) + 8)
    with (len (pre ++ encode_index_entry ie)).
  - rewrite IH by exact Hrest. destruct ie; reflexivity.
  - rewrite len_app, len_encode_index_entry. fold (bytes_of (indexEntry.Key ie)).
    fold kb. lia.
Qed.

Lemma DeserializeBloom_Serialize (bf : BloomFilter) :
  0 <= numBits bf < 2 ^ 32 -> 0 <= numHash bf < 2 ^ 32 ->
  DeserializeBloom (Serialize bf) = bf.
Proof.
  intros Hb Hh. unfold DeserializeBloom, Serialize.
  rewrite !len_app, !len_PutUint32. pose proof (len_nonneg (bits bf)).
  destruct (Z.ltb_spec (4 + (4 + len (bits bf))) 8); [lia|].
  change (skipn 8 (PutUint32 (numBits bf) ++ PutUint32 (numHash bf) ++ bits bf))
    with (bits bf).
  change (skipn 4 (PutUint32 (numBits bf) ++ PutUint32 (numHash bf) ++ bits bf))
    with (PutUint32 (numHash bf) ++ bits bf).
  rewrite !Uint32_firstn4, !Uint32_PutUint32, !u32_small by assumption.
  destruct bf; reflexivity.
Qed.

Lemma length_index_of (entries : list SSTableEntry.t) : forall offset,
  List.length (index_of entries offset) = List.length entries.
Proof.
  induction entries as [|e rest IH]; intros offset; [reflexivity|].
  cbn [index_of List.length]. rewrite IH. reflexivity.
Qed.

Lemma index_of_fits (entries : list SSTableEntry.t) : forall offset,
  Forall entry_fits entries -> 0 <= offset ->
  offset + len (data_of entries) < 2 ^ 63 ->
  Forall (fun ie => str_len (indexEntry.Key ie) < 2 ^ 32 /\
                    0 <= indexEntry.Offset ie < 2 ^ 63) (index_of entries offset).
Proof.
  induction entries as [|e rest IH]; intros offset Hfit H0 Hlt; [constructor|].
  inversion Hfit as [|? ? [Hk Hv] Hrest]; subst.
  unfold data_of in Hlt. cbn [map List.concat] in Hlt. fold (data_of rest) in Hlt.
  rewrite len_app in Hlt.
  pose proof (len_nonneg (encode_data_entry e)). pose proof (len_nonneg (data_of rest)).
  cbn [index_of]. constructor.
  - cbn. split; [exact Hk|lia].
  - apply IH; [exact Hrest|lia|lia].
Qed.

Lemma WriteSSTable_written (sizing : Z -> Z * Z) (entries : list SSTableEntry.t)
    (bf : BloomFilter) :
  AddAll (NewBloomFilter_sized sizing (len entries)) (key_bytes entries) = Ok bf ->
  WriteSSTable sizing entries = Ok (sst_file entries bf).
Proof.
  intros Hadd. unfold WriteSSTable. fold (key_bytes entries). rewrite Hadd. cbn [bind].
  rewrite write_data_spec. rewrite write_index_spec. reflexivity.
Qed.

Lemma OpenSSTable_written (entries : list SSTableEntry.t) (bf : BloomFilter) :
  Forall entry_fits entries ->
  len entries < 2 ^ 32 ->
  len (data_of entries) + len (index_bytes (index_of entries 0)) < 2 ^ 63 ->
  0 <= numBits bf < 2 ^ 32 -> 0 <= numHash bf < 2 ^ 32 ->
  len (bits bf) + 8 < 2 ^ 32 ->
  OpenSSTable (sst_file entries bf)
  = Ok {| file := sst_file entries bf; index := index_of entries 0; bloom := bf |}.
Proof.
  intros Hfit Hcount Hsize Hb Hh Hbits.
  set (data := data_of entries) in *.
  set (idx := index_bytes (index_of entries 0)) in *.
  set (bl := Serialize bf).
  set (ft := sst_footer entries bf).
  pose proof (len_nonneg data). pose proof (len_nonneg idx). pose proof (len_nonneg bl).
  assert (Lft : len ft = 28) by reflexivity.
  assert (Lbl : len bl = len (bits bf) + 8).
  { unfold bl, Serialize. rewrite !len_app, !len_PutUint32. lia. }
  assert (Lix : len (index_of entries 0) = len entries).
  { unfold len. rewrite length_index_of. reflexivity. }
  pose proof (len_nonneg entries).
  assert (EF : sst_file entries bf = data ++ idx ++ bl ++ ft) by reflexivity.
  assert (LF : len (sst_file entries bf) = len data + len idx + len bl + 28).
  { rewrite EF, !len_app, Lft. lia. }
  unfold OpenSSTable. rewrite LF. change footerSize with 28.
  destruct (Z.ltb_spec (len data + len idx + len bl + 28) 28); [lia|].
  assert (R1 : ReadAt (sst_file entries bf) 28 (len data + len idx + len bl + 28 - 28)
               = Some ft).
  { rewrite EF.
    replace (data ++ idx ++ bl ++ ft) with ((data ++ idx ++ bl) ++ ft ++ [])
      by (rewrite app_nil_r, <- !app_assoc; reflexivity).
    apply ReadAt_mid; [exact (eq_sym Lft)|rewrite !len_app; lia]. }
  rewrite R1.
  assert (Em : Uint32 (skipn 24 ft) = sstMagic).
  { change (skipn 24 ft) with (PutUint32 sstMagic). reflexivity. }
  rewrite Em, Z.eqb_refl. cbn [negb].
  assert (E1 : Uint64 ft = u64 (len data)).
  { unfold ft, sst_footer. fold data. apply Uint64_PutUint64. }
  assert (E2 : Uint32 (skipn 8 ft) = len entries).
  { change (skipn 8 ft) with (PutUint32 (len (index_of entries 0))
      ++ PutUint64 (len (data_of entries) + len (index_bytes (index_of entries 0)))
      ++ PutUint32 (len (Serialize bf)) ++ PutUint32 sstMagic).
    rewrite Uint32_PutUint32, Lix. apply u32_small. lia. }
  assert (E3 : Uint64 (skipn 12 ft) = u64 (len data + len idx)).
  { change (skipn 12 ft)
      with (PutUint64 (len (data_of entries) + len (index_bytes (index_of entries 0)))
      ++ PutUint32 (len (Serialize bf)) ++ PutUint32 sstMagic).
    apply Uint64_PutUint64. }
  assert (E4 : Uint32 (skipn 20 ft) = len bl).
  { change (skipn 20 ft) with (PutUint32 (len (Serialize bf)) ++ PutUint32 sstMagic).
    rewrite Uint32_PutUint32. apply u32_small. fold bl. lia. }
  cbv zeta. rewrite E1, E2, E3, E4. rewrite !int64_small by lia.
  assert (R2 : ReadAt (sst_file entries bf) (len bl) (len data + len idx) = Some bl).
  { rewrite EF. replace (data ++ idx ++ bl ++ ft) with ((data ++ idx) ++ bl ++ ft)
      by (rewrite <- !app_assoc; reflexivity).
    apply ReadAt_mid; [reflexivity|symmetry; apply len_app]. }
  rewrite R2. unfold bl at 1. rewrite DeserializeBloom_Serialize by assumption.
  destruct (Z.ltb_spec (len data + len idx - len data) 0); [lia|].
  assert (R3 : ReadAt (sst_file entries bf) (len data + len idx - len data) (len data)
               = Some idx).
  { rewrite EF. apply ReadAt_mid; [lia|reflexivity]. }
  rewrite R3.
  assert (Hn : Z.to_nat (len entries) = List.length (index_of entries 0)).
  { unfold len. rewrite Nat2Z.id, length_index_of. reflexivity. }
  rewrite Hn.
  assert (D : decode_index (List.length (index_of entries 0)) idx 0 = Ok (index_of entries 0)).
  { pose proof (decode_index_written (index_of entries 0) [] []) as D.
    cbn [app] in D. rewrite app_nil_r in D. apply D.
    apply index_of_fits; [exact Hfit|lia|fold data; lia]. }
  rewrite D. reflexivity.
Qed.

Lemma AddAll_sized (sizing : Z -> Z * Z) (n : Z) (keys : list (list byte)) :
  sizing_fits sizing n ->
  exists bf,
    AddAll (NewBloomFilter_sized sizing n) keys = Ok bf /\
    covers bf /\
    8 <= numBits bf < 2 ^ 32 /\ 1 <= numHash bf < 2 ^ 32 /\
    len (bits bf) + 8 < 2 ^ 32 /\
    forall k, In k keys -> all_bits_set bf k.
Proof.
  intros Hfit. unfold sizing_fits in Hfit. unfold NewBloomFilter_sized.
  set (n' := if n <? 1 then 1 else n) in *.
  pose proof (NewBloomFilter_covers (fst (sizing n')) (snd (sizing n')) Hfit) as Hc.
  pose proof (NewBloomFilter_shape (fst (sizing n')) (snd (sizing n'))) as [Hb Hh].
  destruct (AddAll_spec keys _ Hc) as (bf & Hrun & Hext & Hall).
  exists bf. split; [exact Hrun|].
  destruct Hext as (En & Eh & El & Hmono).
  split; [eapply extends_covers; [exact Hc|repeat split; assumption]|].
  rewrite En, Eh. split; [exact Hb|]. split; [exact Hh|]. split; [|exact Hall].
  unfold len. rewrite El. unfold NewBloomFilter. cbn [bits]. rewrite repeat_length.
  set (nb := if u32 (fst (sizing n')) <? 8 then 8 else u32 (fst (sizing n'))).
  assert (Hnb : 8 <= nb /\ nb + 7 < 2 ^ 32).
  { unfold nb. destruct (Z.ltb_spec (u32 (fst (sizing n'))) 8); lia. }
  rewrite (u32_small (nb + 7)) by lia.
  pose proof (Z.div_pos (nb + 7) 8 ltac:(lia) ltac:(lia)).
  rewrite Z2Nat.id by assumption.
  pose proof (Z.div_mod (nb + 7) 8 ltac:(lia)).
  pose proof (Z.mod_pos_bound (nb + 7) 8 ltac:(lia)). lia.
Qed.

(** Writing a table and opening the file gives a reader over the index of
    the entries and the filter with their keys. *)
Lemma Write_Open (sizing : Z -> Z * Z) (entries : list SSTableEntry.t) :
  table_fits sizing entries ->
  exists bf,
    covers bf /\ (forall k, In k (key_bytes entries) -> all_bits_set bf k) /\
    WriteSSTable sizing entries = Ok (sst_file entries bf) /\
    OpenSSTable (sst_file entries bf)
    = Ok {| file := sst_file entries bf; index := index_of entries 0; bloom := bf |}.
Proof.
  intros (Hfit & Hcount & Hsz & Hsize).
  destruct (AddAll_sized sizing (len entries) (key_bytes entries) Hsz)
    as (bf & Hadd & Hc & Hb & Hh & Hbits & Hall).
  exists bf. split; [exact Hc|]. split; [exact Hall|]. split.
  - apply WriteSSTable_written. exact Hadd.
  - apply OpenSSTable_written; try assumption; lia.
Qed.

Lemma ReadAll_written (entries : list SSTableEntry.t) (bf : BloomFilter) :
  Forall entry_fits entries ->
  ReadAll {| file := sst_file entries bf; index := index_of entries 0; bloom := bf |}
  = Ok (map normalized entries).
Proof.
  intros Hfit. unfold ReadAll. cbn [index]. unfold sst_file.
  apply (ReadAll_loop_written entries [] _ (index_of entries 0) bf Hfit).
Qed.



Ltac fits :=
  repeat match goal with
    | |- _ /\ _ => split
    | |- Forall _ _ => constructor
    | |- _ < _ => vm_compute; reflexivity
    | |- _ <= _ => vm_compute; discriminate
    | |- _ = _ => vm_compute; reflexivity
    | |- entry_fits _ => unfold entry_fits
    | |- table_fits _ _ => unfold table_fits
    | |- sizing_fits _ _ => unfold sizing_fits
    | |- sorted_entries _ => unfold sorted_entries
    | |- wal_fits _ => unfold wal_fits
    end.


Lemma kWayMerge_strictly_sorted_witness :
  sorted_entries (kWayMerge [sample_newer; sample_older]) /\
  sorted_entries (Compact_live [sample_newer; sample_older]).
Proof.
  apply (kWayMerge_strictly_sorted [sample_newer; sample_older]); fits.
Defined.

Lemma ReadAll_each_Ok (readers : list SSTableReader) (sets : list (list SSTableEntry.t)) :
  Forall2 (fun r s => ReadAll r = Ok s) readers sets -> ReadAll_each readers = Ok sets.
Proof.
  induction 1 as [|r s readers sets Hr _ IH]; [reflexivity|].
  cbn [ReadAll_each]. rewrite Hr, IH. reflexivity.
Qed.

Lemma In_Compact_live (sets : list (list SSTableEntry.t)) (e : SSTableEntry.t) :
  In e (Compact_live sets) <-> In e (kWayMerge sets) /\ SSTableEntry.Tombstone e = false.
Proof.
  unfold Compact_live. rewrite filter_In. rewrite negb_true_iff. reflexivity.
Qed.

(** What the entries handed to the writer hold for the key of an entry [e]
    that is the newest for its key. *)
Lemma Compact_live_newest (sets : list (list SSTableEntry.t)) (e : SSTableEntry.t) :
  Forall sorted_entries sets ->
  newest sets (SSTableEntry.Key e) = Some e ->
  (SSTableEntry.Tombstone e = false -> In e (Compact_live sets)) /\
  (forall e', In e' (Compact_live sets) -> SSTableEntry.Key e' = SSTableEntry.Key e ->
              e' = e /\ SSTableEntry.Tombstone e = false).
Proof.
  intros Hs Hnew.
  pose proof (kWayMerge_newest sets (SSTableEntry.Key e) Hs) as Hfind.
  rewrite Hnew in Hfind.
  pose proof (kWayMerge_sorted sets Hs) as Hsorted.
  split.
  - intros Ht. apply In_Compact_live. split; [|exact Ht].
    apply find_key_Some in Hfind. apply Hfind.
  - intros e' Hin Hk. apply In_Compact_live in Hin. destruct Hin as [Hin Ht].
    pose proof (find_key_sorted _ e' Hsorted Hin) as Hf'.
    rewrite Hk, Hfind in Hf'. injection Hf' as <-. split; [reflexivity|exact Ht].
Qed.

(** C3.  Compact over readers ordered newest first, whose entry sequences
    are sorted by key with one entry per key, writes a table that, for every
    key present in an input, holds the key with exactly the value of the
    lowest-indexed input that has the key when that entry is no tombstone,
    and holds no entry for the key when it is a tombstone. *)
Theorem compact_newest_wins (sizing : Z -> Z * Z) (readers : list SSTableReader)
    (sets : list (list SSTableEntry.t)) :
  ReadAll_each readers = Ok sets ->
  Forall sorted_entries sets ->
  table_fits sizing (Compact_live sets) ->
  exists f r out,
    Compact sizing readers = Ok f /\ OpenSSTable f = Ok r /\ ReadAll r = Ok out /\
    forall (i : nat) s e,
      nth_error sets i = Some s -> In e s ->
      (forall j s' e', (j < i)%nat -> nth_error sets j = Some s' -> In e' s' ->
                       SSTableEntry.Key e' <> SSTableEntry.Key e) ->
      if SSTableEntry.Tombstone e
      then forall e', In e' out -> SSTableEntry.Key e' <> SSTableEntry.Key e
      else (exists e', In e' out /\ entry_view e' = entry_view e) /\
           forall e', In e' out -> SSTableEntry.Key e' = SSTableEntry.Key e ->
                      entry_view e' = entry_view e.
Proof.
  intros Hread Hs Hfits.
  destruct (Write_Open sizing (Compact_live sets) Hfits) as (bf & _ & _ & Hw & Ho).
  exists (sst_file (Compact_live sets) bf). eexists. exists (map normalized (Compact_live sets)).
  split; [unfold Compact; rewrite Hread; exact Hw|].
  split; [exact Ho|].
  split; [apply ReadAll_written; apply Hfits|].
  intros i s e Hnth Hin Hnewer.
  pose proof (newest_by_index sets i s e Hs Hnth Hin Hnewer) as Hnew.
  destruct (Compact_live_newest sets e Hs Hnew) as [Hlive Huniq].
  destruct (SSTableEntry.Tombstone e) eqn:Ht.
  - intros e' Hin' Hk. apply in_map_iff in Hin'. destruct Hin' as (e0 & <- & Hin0).
    destruct (Huniq e0 Hin0 Hk) as [_ Hf]. discriminate.
  - split.
    + exists (normalized e). split; [apply in_map; apply Hlive; reflexivity|reflexivity].
    + intros e' Hin' Hk. apply in_map_iff in Hin'. destruct Hin' as (e0 & <- & Hin0).
      destruct (Huniq e0 Hin0 Hk) as [-> _]. reflexivity.
Qed.

Lemma compact_newest_wins_witness :
  exists f r out,
    Compact sample_sizing [sample_reader sample_newer; sample_reader sample_older] = Ok f /\
    OpenSSTable f = Ok r /\ ReadAll r = Ok out /\
    forall (i : nat) s e,
      nth_error [map normalized sample_newer; map normalized sample_older] i = Some s ->
      In e s ->
      (forall j s' e', (j < i)%nat ->
         nth_error [map normalized sample_newer; map normalized sample_older] j = Some s' ->
         In e' s' -> SSTableEntry.Key e' <> SSTableEntry.Key e) ->
      if SSTableEntry.Tombstone e
      then forall e', In e' out -> SSTableEntry.Key e' <> SSTableEntry.Key e
      else (exists e', In e' out /\ entry_view e' = entry_view e) /\
           forall e', In e' out -> SSTableEntry.Key e' = SSTableEntry.Key e ->
                      entry_view e' = entry_view e.
Proof.
  apply (compact_newest_wins sample_sizing
           [sample_reader sample_newer; sample_reader sample_older]
           [map normalized sample_newer; map normalized sample_older]).
  - vm_compute. reflexivity.
  - repeat constructor.
  - fits.
Defined.

(** The scenario of the tests: compacting [newer, older] leaves a, b with
    the newer value, and d; c is gone. *)
Example compact_scenario :
  Compact_live [sample_newer; sample_older]
  = [SSTableEntry.mk "a" (Bytes [x31]) false;
     SSTableEntry.mk "b" (Bytes [x6e; x65; x77]) false;
     SSTableEntry.mk "d" (Bytes [x32]) false].
Proof. vm_compute. reflexivity. Qed.

(** ** The nil value *)

(** C9 at the failing input: a put of the nil slice, which is an empty
    value.  The memtable stores it as a live entry, but its lookup returns
    the same pair as for a deleted key, and Get answers ErrKeyNotFound.  The
    same put read back through the log after a reopen, or from the SSTable
    after a flush, is the empty value; so is the put of an empty slice that
    is not nil. *)
Theorem put_nil_reads_as_deleted :
  (db0 <- Open empty_dir ;; db1 <- Put sample_sizing db0 "k" Nil ;;
   Ok (map tombstone (entries (mem db1)), mem_Get (mem db1) "k"))
  = Ok ([false], (Nil, true)) /\
  (db0 <- Open empty_dir ;; Ok (mem_Get (mem_Delete (mem db0) "k") "k")) = Ok (Nil, true) /\
  (db0 <- Open empty_dir ;; db1 <- Put sample_sizing db0 "k" Nil ;; Get db1 "k")
  = Ok ErrKeyNotFound /\
  (db0 <- Open empty_dir ;; db1 <- Put sample_sizing db0 "k" Nil ;;
   db2 <- Open (dir db1) ;; Get db2 "k")
  = Ok (Found (Bytes [])) /\
  (db0 <- Open empty_dir ;; db1 <- Put sample_sizing db0 "k" Nil ;;
   db3 <- flush sample_sizing db1 ;; Get db3 "k")
  = Ok (Found (Bytes [])) /\
  (db0 <- Open empty_dir ;; db4 <- Put sample_sizing db0 "k" (Bytes []) ;; Get db4 "k")
  = Ok (Found (Bytes [])).
Proof.
  repeat split; vm_compute; reflexivity.
Qed.

(** C1 at the failing input: put("k", "v") and then put("k", nil).  The most
    recent put on "k" has the empty value, and Get answers ErrKeyNotFound. *)
Theorem get_after_put_nil :
  expected [DoPut "k" (Bytes [x76]); DoPut "k" Nil] "k" = Found (Bytes []) /\
  (db0 <- Open empty_dir ;;
   db <- run sample_sizing db0 [DoPut "k" (Bytes [x76]); DoPut "k" Nil] ;;
   Get db "k")
  = Ok ErrKeyNotFound.
Proof.
  split; vm_compute; reflexivity.
Qed.

(** ** Binary search *)

Lemma Search_loop_ext (f g : nat -> bool) (fuel : nat) : forall i j,
  (forall x, f x = g x) -> Search_loop fuel f i j = Search_loop fuel g i j.
Proof.
  induction fuel as [|fuel IH]; intros i j Hext; [reflexivity|].
  cbn [Search_loop]. rewrite Hext.
  destruct (i <? j)%nat; [|reflexivity].
  destruct (negb (g ((i + j) / 2)%nat)); apply IH; exact Hext.
Qed.

Lemma half_between (i j : nat) : (i < j)%nat -> (i <= (i + j) / 2 < j)%nat.
Proof.
  intros H. split.
  - apply Nat.div_le_lower_bound; lia.
  - apply Nat.Div0.div_lt_upper_bound. lia.
Qed.

(** On a predicate that stays true once it is true, the search returns the
    first index at which it holds. *)
Lemma Search_loop_spec (f : nat -> bool) (n : nat) (fuel : nat) : forall i j,
  (forall a b, (a <= b < n)%nat -> f a = true -> f b = true) ->
  (i <= j <= n)%nat -> (j - i <= fuel)%nat ->
  (forall x, (x < i)%nat -> f x = false) ->
  ((j < n)%nat -> f j = true) ->
  let r := Search_loop fuel f i j in
  (r <= n)%nat /\ (forall x, (x < r)%nat -> f x = false) /\ ((r < n)%nat -> f r = true).
Proof.
  induction fuel as [|fuel IH]; intros i j Hmono Hij Hfuel Hlow Hhigh.
  - cbn. assert (i = j) by lia. subst j. split; [lia|]. split; assumption.
  - cbn [Search_loop]. destruct (Nat.ltb_spec i j) as [Hlt|Hge].
    + pose proof (half_between i j Hlt) as Hh.
      destruct (f ((i + j) / 2)%nat) eqn:Ef; cbn [negb].
      * apply IH; try assumption; try lia. intros _. exact Ef.
      * apply IH; try assumption; try lia.
        intros x Hx. destruct (f x) eqn:Efx; [|reflexivity].
        rewrite (Hmono x ((i + j) / 2)%nat ltac:(lia) Efx) in Ef. discriminate.
    + assert (i = j) by lia. subst j. cbn zeta. split; [lia|]. split; assumption.
Qed.

Lemma strictly_sorted_nth (ks : list string) : forall i j,
  strictly_sorted ks = true -> (i < j < List.length ks)%nat ->
  String.ltb (nth i ks EmptyString) (nth j ks EmptyString) = true.
Proof.
  induction ks as [|k ks IH]; intros i j Hs Hij; [cbn in Hij; lia|].
  apply strictly_sorted_cons in Hs. destruct Hs as [Hlt Hs].
  cbn [List.length] in Hij. destruct j as [|j]; [lia|]. destruct i as [|i].
  - cbn [nth]. apply Hlt. apply nth_In. lia.
  - cbn [nth]. apply IH; [exact Hs|lia].
Qed.

Lemma strictly_sorted_app (l1 l2 : list string) :
  strictly_sorted (l1 ++ l2) = true <->
  strictly_sorted l1 = true /\ strictly_sorted l2 = true /\
  forall a b, In a l1 -> In b l2 -> String.ltb a b = true.
Proof.
  induction l1 as [|x l1 IH].
  - cbn [app]. split; [intros H; repeat split; [exact H|intros a b []]|intros (_ & H & _); exact H].
  - cbn [app]. rewrite !strictly_sorted_cons, IH. split.
    + intros (Hx & H1 & H2 & H12). split; [split; [|exact H1]|split; [exact H2|]].
      * intros k' Hk'. apply Hx. apply in_or_app. left. exact Hk'.
      * intros a b [<-|Ha] Hb; [apply Hx; apply in_or_app; right; exact Hb|apply H12; assumption].
    + intros ((Hx & H1) & H2 & H12). split; [|split; [exact H1|split; [exact H2|]]].
      * intros k' Hk'. apply in_app_or in Hk'. destruct Hk' as [Hk'|Hk'];
          [apply Hx; exact Hk'|apply H12; [left; reflexivity|exact Hk']].
      * intros a b Ha Hb. apply H12; [right; exact Ha|exact Hb].
Qed.

(** The search splits a sorted list of keys into the keys below [k] and the
    keys from [k] on. *)
Lemma key_search_split (ks : list string) (k : string) :
  strictly_sorted ks = true ->
  exists lo hi,
    ks = lo ++ hi /\ key_search ks k = List.length lo /\
    (forall x, In x lo -> String.ltb x k = true) /\
    (forall x, In x hi -> String.ltb x k = false).
Proof.
  intros Hs. unfold key_search.
  set (f := fun i => str_ge (nth i ks EmptyString) k).
  assert (Hmono : forall a b, (a <= b < List.length ks)%nat -> f a = true -> f b = true).
  { intros a b Hab Ha. unfold f, str_ge in *.
    destruct (Nat.eq_dec a b) as [->|Hne]; [exact Ha|].
    pose proof (strictly_sorted_nth ks a b Hs ltac:(lia)) as Hlt.
    apply negb_true_iff in Ha. apply negb_true_iff.
    destruct (String.ltb (nth b ks EmptyString) k) eqn:E; [|reflexivity].
    rewrite (ltb_trans _ _ _ Hlt E) in Ha. discriminate. }
  pose proof (Search_loop_spec f (List.length ks) (List.length ks) 0 (List.length ks)
                Hmono ltac:(lia) ltac:(lia) ltac:(intros x Hx; lia) ltac:(intros Hx; lia))
    as (Hr & Hlow & Hhigh).
  fold (Search (List.length ks) f) in Hr, Hlow, Hhigh.
  set (r := Search (List.length ks) f) in *.
  exists (firstn r ks), (skipn r ks).
  split; [symmetry; apply firstn_skipn|].
  split; [rewrite length_firstn; lia|]. split.
  - intros x Hx. apply In_nth with (d := EmptyString) in Hx.
    destruct Hx as (i & Hi & <-). rewrite length_firstn in Hi.
    rewrite nth_firstn. destruct (Nat.ltb_spec i r); [|lia].
    specialize (Hlow i ltac:(lia)). unfold f, str_ge in Hlow.
    apply negb_false_iff in Hlow. exact Hlow.
  - intros x Hx. apply In_nth with (d := EmptyString) in Hx.
    destruct Hx as (i & Hi & <-). rewrite length_skipn in Hi.
    rewrite nth_skipn.
    assert (Hf : f (r + i)%nat = true).
    { apply (Hmono r); [lia|]. apply Hhigh. lia. }
    unfold f, str_ge in Hf. apply negb_true_iff in Hf. exact Hf.
Qed.

(** ** Memtable operations on a sorted memtable *)

Lemma sum_by_app {A : Type} (g : A -> Z) (l1 l2 : list A) :
  sum_by g (l1 ++ l2) = sum_by g l1 + sum_by g l2.
Proof.
  induction l1 as [|a l1 IH]; [reflexivity|].
  cbn [app]. unfold sum_by in *. cbn [fold_right]. rewrite IH. lia.
Qed.

Lemma sum_by_cons {A : Type} (g : A -> Z) (a : A) (l : list A) :
  sum_by g (a :: l) = g a + sum_by g l.
Proof. reflexivity. Qed.

Lemma sum_by_nonneg {A : Type} (g : A -> Z) (l : list A) :
  (forall a, 0 <= g a) -> 0 <= sum_by g l.
Proof.
  intros Hg. induction l as [|a l IH]; [cbn; lia|].
  rewrite sum_by_cons. specialize (Hg a). lia.
Qed.

Lemma sum_by_In {A : Type} (g : A -> Z) (l : list A) (a : A) :
  (forall x, 0 <= g x) -> In a l -> g a <= sum_by g l.
Proof.
  intros Hg. induction l as [|b l IH]; intros Hin; [destruct Hin|].
  rewrite sum_by_cons. pose proof (sum_by_nonneg g l Hg). pose proof (Hg b).
  destruct Hin as [->|Hin]; [lia|]. specialize (IH Hin). lia.
Qed.

Lemma search_key_search (m : Memtable) (k : string) :
  search m k = key_search (map key (entries m)) k.
Proof.
  unfold search, key_search, Search. rewrite length_map.
  apply Search_loop_ext. intros i.
  change EmptyString with (key zero_memEntry). rewrite map_nth. reflexivity.
Qed.

Lemma mem_shape (m : Memtable) (k : string) :
  sorted_mem m ->
  exists lo hi,
    entries m = lo ++ hi /\ search m k = List.length lo /\
    (forall e, In e lo -> String.ltb (key e) k = true) /\
    (forall e, In e hi -> String.ltb (key e) k = false).
Proof.
  intros Hs. rewrite search_key_search.
  destruct (key_search_split (map key (entries m)) k Hs) as (lk & hk & Hk & Hr & Hlo & Hhi).
  apply map_eq_app in Hk. destruct Hk as (lo & hi & He & <- & <-).
  exists lo, hi. split; [exact He|]. split; [rewrite Hr; apply length_map|]. split.
  - intros e Hin. apply Hlo. apply in_map. exact Hin.
  - intros e Hin. apply Hhi. apply in_map. exact Hin.
Qed.

Lemma nth_error_at (A : Type) (lo hi : list A) :
  nth_error (lo ++ hi) (List.length lo) = hd_error hi.
Proof.
  rewrite nth_error_app2 by lia. rewrite Nat.sub_diag. destruct hi; reflexivity.
Qed.

Lemma set_nth_at (A : Type) (lo hi : list A) (h e : A) :
  set_nth (lo ++ h :: hi) (List.length lo) e = lo ++ e :: hi.
Proof.
  induction lo as [|a lo IH]; [reflexivity|]. cbn. rewrite IH. reflexivity.
Qed.

Lemma insert_at_at (A : Type) (lo hi : list A) (e : A) :
  insert_at (lo ++ hi) (List.length lo) e = lo ++ e :: hi.
Proof.
  unfold insert_at. rewrite firstn_app, firstn_all, Nat.sub_diag, firstn_O, app_nil_r.
  rewrite skipn_app, skipn_all, Nat.sub_diag. reflexivity.
Qed.

(** Put and Delete in one shape: the entry for [k] replaces the old one, or
    goes in at the insertion point. *)
Lemma mem_Put_shape (m : Memtable) (k : string) (v : slice) (lo hi : list memEntry) :
  entries m = lo ++ hi -> search m k = List.length lo ->
  mem_Put m k v
  = {| entries := lo ++ mkMemEntry k v false :: drop_key k hi;
       size := size m - dropped_size k hi + entry_size (mkMemEntry k v false);
       threshold := threshold m |}.
Proof.
  intros He Hr. unfold mem_Put. rewrite Hr, He, nth_error_at.
  destruct hi as [|h hi]; cbn [hd_error drop_key dropped_size].
  - rewrite insert_at_at. f_equal. unfold entry_size. cbn. lia.
  - destruct (String.eqb_spec (key h) k) as [E|NE].
    + rewrite set_nth_at, E. f_equal. unfold entry_size. cbn [key value]. rewrite E. lia.
    + rewrite insert_at_at. f_equal. unfold entry_size. cbn. lia.
Qed.

Lemma mem_Delete_shape (m : Memtable) (k : string) (lo hi : list memEntry) :
  entries m = lo ++ hi -> search m k = List.length lo ->
  mem_Delete m k
  = {| entries := lo ++ mkMemEntry k Nil true :: drop_key k hi;
       size := size m - dropped_size k hi + entry_size (mkMemEntry k Nil true);
       threshold := threshold m |}.
Proof.
  intros He Hr. unfold mem_Delete. rewrite Hr, He, nth_error_at.
  destruct hi as [|h hi]; cbn [hd_error drop_key dropped_size].
  - rewrite insert_at_at. f_equal. unfold entry_size. cbn. lia.
  - destruct (String.eqb_spec (key h) k) as [E|NE].
    + rewrite set_nth_at, E. f_equal. unfold entry_size. cbn [key value slice_bytes].
      rewrite E. change (len (@nil byte)) with 0. lia.
    + rewrite insert_at_at. f_equal. unfold entry_size. cbn. lia.
Qed.

Lemma drop_key_incl (k : string) (hi : list memEntry) (e : memEntry) :
  In e (drop_key k hi) -> In e hi.
Proof.
  destruct hi as [|h hi]; [auto|]. cbn [drop_key].
  destruct (String.eqb (key h) k); [right; assumption|auto].
Qed.

Lemma upsert_sorted (lo hi : list memEntry) (new : memEntry) :
  strictly_sorted (map key (lo ++ hi)) = true ->
  (forall e, In e lo -> String.ltb (key e) (key new) = true) ->
  (forall e, In e hi -> String.ltb (key e) (key new) = false) ->
  strictly_sorted (map key (lo ++ new :: drop_key (key new) hi)) = true.
Proof.
  intros Hs Hlo Hhi. rewrite map_app in *. cbn [map].
  apply strictly_sorted_app in Hs. destruct Hs as (Hslo & Hshi & Hcross).
  assert (Habove : forall e, In e (drop_key (key new) hi) ->
                             String.ltb (key new) (key e) = true).
  { destruct hi as [|h hi]; [intros e []|]. cbn [drop_key map] in *.
    apply strictly_sorted_cons in Hshi. destruct Hshi as [Hh _].
    assert (Hh' : forall e, In e hi -> String.ltb (key h) (key e) = true).
    { intros e He. apply Hh. apply in_map. exact He. }
    destruct (String.eqb_spec (key h) (key new)) as [E|NE].
    - intros e He. rewrite <- E. apply Hh'. exact He.
    - assert (Lh : String.ltb (key new) (key h) = true).
      { destruct (String.ltb (key new) (key h)) eqn:L; [reflexivity|].
        exfalso. apply NE. symmetry. apply ltb_total; [exact L|].
        apply Hhi. left. reflexivity. }
      intros e [<-|He]; [exact Lh|]. eapply ltb_trans; [exact Lh|]. apply Hh'. exact He. }
  apply strictly_sorted_app. split; [exact Hslo|]. split.
  - apply strictly_sorted_cons. split.
    + intros k' Hk'. apply in_map_iff in Hk'. destruct Hk' as (e & <- & He).
      apply Habove. exact He.
    + destruct hi as [|h hi]; [reflexivity|]. cbn [drop_key].
      destruct (String.eqb (key h) (key new)); [|exact Hshi].
      cbn [map] in Hshi. apply strictly_sorted_tail in Hshi. exact Hshi.
  - intros a b Ha Hb. apply in_map_iff in Ha. destruct Ha as (ea & <- & Hea).
    destruct Hb as [<-|Hb]; [apply Hlo; exact Hea|].
    apply Hcross; [apply in_map; exact Hea|].
    apply in_map_iff in Hb. destruct Hb as (eb & <- & Heb).
    apply in_map. eapply drop_key_incl. exact Heb.
Qed.

Lemma mem_find_app (k : string) (l1 l2 : list memEntry) :
  mem_find k (l1 ++ l2)
  = match mem_find k l1 with Some e => Some e | None => mem_find k l2 end.
Proof.
  unfold mem_find. induction l1 as [|a l1 IH]; [reflexivity|].
  cbn [app find]. destruct (String.eqb (key a) k); [reflexivity|exact IH].
Qed.

Lemma mem_find_None (k : string) (l : list memEntry) :
  (forall e, In e l -> key e <> k) -> mem_find k l = None.
Proof.
  intros H. unfold mem_find. destruct (find _ l) as [e|] eqn:E; [|reflexivity].
  apply find_some in E. destruct E as [Hin Heq]. apply String.eqb_eq in Heq.
  exfalso. exact (H e Hin Heq).
Qed.

Lemma upsert_find (lo hi : list memEntry) (new : memEntry) (k' : string) :
  (forall e, In e lo -> key e <> key new) ->
  mem_find k' (lo ++ new :: drop_key (key new) hi)
  = if String.eqb (key new) k' then Some new else mem_find k' (lo ++ hi).
Proof.
  intros Hlo. rewrite !mem_find_app.
  destruct (String.eqb_spec (key new) k') as [E|NE].
  - subst k'. rewrite (mem_find_None (key new) lo Hlo).
    unfold mem_find. cbn [find]. rewrite String.eqb_refl. reflexivity.
  - destruct (mem_find k' lo); [reflexivity|].
    unfold mem_find. cbn [find].
    destruct (String.eqb_spec (key new) k') as [|_]; [contradiction|].
    destruct hi as [|h hi]; [reflexivity|]. cbn [drop_key].
    destruct (String.eqb_spec (key h) (key new)) as [E|_]; [|reflexivity].
    cbn [find]. destruct (String.eqb_spec (key h) k') as [E'|_]; [congruence|reflexivity].
Qed.

Lemma upsert_sum (g : memEntry -> Z) (lo hi : list memEntry) (new : memEntry) :
  sum_by g (lo ++ new :: drop_key (key new) hi)
  = sum_by g (lo ++ hi) + g new
    - match hi with
      | [] => 0
      | h :: _ => if String.eqb (key h) (key new) then g h else 0
      end.
Proof.
  rewrite !sum_by_app, sum_by_cons.
  destruct hi as [|h hi]; cbn [drop_key]; [cbn; lia|].
  destruct (String.eqb (key h) (key new)); [rewrite sum_by_cons|]; lia.
Qed.

Lemma mem_Get_spec (m : Memtable) (k : string) :
  sorted_mem m ->
  mem_Get m k
  = match mem_find k (entries m) with
    | Some e => if tombstone e then (Nil, true) else (value e, true)
    | None => (Nil, false)
    end.
Proof.
  intros Hs. destruct (mem_shape m k Hs) as (lo & hi & He & Hr & Hlo & Hhi).
  unfold mem_Get. rewrite Hr, He, nth_error_at, mem_find_app.
  rewrite (mem_find_None k lo) by (intros e Hin; apply ltb_neq; apply Hlo; exact Hin).
  destruct hi as [|h hi]; [reflexivity|]. cbn [hd_error].
  unfold mem_find. cbn [find].
  destruct (String.eqb_spec (key h) k) as [E|NE]; [reflexivity|].
  fold (mem_find k hi). rewrite mem_find_None; [reflexivity|].
  unfold sorted_mem in Hs. rewrite He, map_app in Hs.
  apply strictly_sorted_app in Hs. destruct Hs as (_ & Hshi & _).
  cbn [map] in Hshi. apply strictly_sorted_cons in Hshi. destruct Hshi as [Hh _].
  intros e Hin <-.
  specialize (Hh (key e) (in_map key hi e Hin)).
  pose proof (Hhi h ltac:(left; reflexivity)) as Hge.
  pose proof (Hhi e ltac:(right; exact Hin)) as Hge'.
  apply NE. apply ltb_total; [exact Hge|].
  apply ltb_asym in Hh. exact Hh.
Qed.

Lemma key_norm_entry (e : memEntry) : key (norm_entry e) = key e.
Proof. unfold norm_entry. destruct (tombstone e); reflexivity. Qed.

Lemma tombstone_norm_entry (e : memEntry) : tombstone (norm_entry e) = tombstone e.
Proof. unfold norm_entry. destruct (tombstone e) eqn:E; [exact E|reflexivity]. Qed.

Lemma bytes_norm_entry (e : memEntry) :
  slice_bytes (value (norm_entry e)) = slice_bytes (value e).
Proof. unfold norm_entry. destruct (tombstone e); reflexivity. Qed.

Lemma keys_norm_mem (m : Memtable) : map key (entries (norm_mem m)) = map key (entries m).
Proof.
  unfold norm_mem. cbn [entries]. rewrite map_map. apply map_ext. apply key_norm_entry.
Qed.

Lemma search_norm_mem (m : Memtable) (k : string) : search (norm_mem m) k = search m k.
Proof. rewrite !search_key_search, keys_norm_mem. reflexivity. Qed.

Lemma map_set_nth {A B : Type} (f : A -> B) (l : list A) : forall (i : nat) (e : A),
  map f (set_nth l i e) = set_nth (map f l) i (f e).
Proof.
  induction l as [|a l IH]; intros i e; [reflexivity|].
  destruct i as [|i]; cbn; [reflexivity|]. rewrite IH. reflexivity.
Qed.

Lemma map_insert_at {A B : Type} (f : A -> B) (l : list A) (i : nat) (e : A) :
  map f (insert_at l i e) = insert_at (map f l) i (f e).
Proof.
  unfold insert_at. rewrite map_app. cbn [map]. rewrite firstn_map, skipn_map. reflexivity.
Qed.

Lemma norm_mem_Put (m : Memtable) (k : string) (v : slice) :
  norm_mem (mem_Put m k v) = mem_Put (norm_mem m) k (Bytes (slice_bytes v)).
Proof.
  unfold mem_Put. rewrite search_norm_mem.
  unfold norm_mem at 2. cbn [entries size threshold]. rewrite nth_error_map.
  destruct (nth_error (entries m) (search m k)) as [old|]; cbn [option_map].
  - rewrite key_norm_entry, bytes_norm_entry.
    destruct (String.eqb (key old) k); unfold norm_mem; cbn [entries size threshold];
      [rewrite map_set_nth|rewrite map_insert_at]; reflexivity.
  - unfold norm_mem. cbn [entries size threshold]. rewrite map_insert_at. reflexivity.
Qed.

Lemma norm_mem_Delete (m : Memtable) (k : string) :
  norm_mem (mem_Delete m k) = mem_Delete (norm_mem m) k.
Proof.
  unfold mem_Delete. rewrite search_norm_mem.
  unfold norm_mem at 2. cbn [entries size threshold]. rewrite nth_error_map.
  destruct (nth_error (entries m) (search m k)) as [old|]; cbn [option_map].
  - rewrite key_norm_entry, bytes_norm_entry.
    destruct (String.eqb (key old) k); unfold norm_mem; cbn [entries size threshold];
      [rewrite map_set_nth|rewrite map_insert_at]; reflexivity.
  - unfold norm_mem. cbn [entries size threshold]. rewrite map_insert_at. reflexivity.
Qed.

Lemma mem_find_norm (k : string) (es : list memEntry) :
  mem_find k (map norm_entry es) = option_map norm_entry (mem_find k es).
Proof.
  unfold mem_find. induction es as [|e es IH]; [reflexivity|].
  cbn [map find]. rewrite key_norm_entry.
  destruct (String.eqb (key e) k); [reflexivity|exact IH].
Qed.

(** ** Lookups in an opened table *)

Lemma MayContain_loop_total (n : nat) : forall (i h1 h2 : Z) (bf : BloomFilter),
  covers bf -> exists b, MayContain_loop n i h1 h2 bf = Ok b.
Proof.
  induction n as [|n IH]; intros i h1 h2 bf Hc; [exists true; reflexivity|].
  cbn [MayContain_loop].
  assert (Hnz : (numBits bf =? 0) = false) by (apply Z.eqb_neq; destruct Hc; lia).
  rewrite Hnz.
  destruct (bit_pos_range bf h1 h2 i Hc) as (_ & Hlt & _).
  destruct (nth_error (bits bf) (Z.to_nat (bit_pos bf h1 h2 i / 8))) as [b|] eqn:E.
  - destruct (Z.land _ _ =? 0); [exists false; reflexivity|apply IH; exact Hc].
  - apply nth_error_None in E. lia.
Qed.

Lemma MayContain_total (bf : BloomFilter) (k : list byte) :
  covers bf -> exists b, MayContain bf k = Ok b.
Proof.
  intros Hc. unfold MayContain. destruct (hash k) as [h1 h2].
  apply MayContain_loop_total. exact Hc.
Qed.

Lemma keys_index_of (es : list SSTableEntry.t) : forall off,
  map indexEntry.Key (index_of es off) = map SSTableEntry.Key es.
Proof.
  induction es as [|e es IH]; intros off; [reflexivity|].
  cbn [index_of map indexEntry.Key]. rewrite IH. reflexivity.
Qed.

Lemma index_of_app (l1 l2 : list SSTableEntry.t) : forall off,
  index_of (l1 ++ l2) off = index_of l1 off ++ index_of l2 (off + len (data_of l1)).
Proof.
  induction l1 as [|e l1 IH]; intros off.
  - cbn. rewrite Z.add_0_r. reflexivity.
  - cbn [app index_of]. rewrite IH. unfold data_of. cbn [map List.concat].
    rewrite len_app, Z.add_assoc. reflexivity.
Qed.

Lemma data_of_app (l1 l2 : list SSTableEntry.t) : data_of (l1 ++ l2) = data_of l1 ++ data_of l2.
Proof. unfold data_of. rewrite map_app, concat_app. reflexivity. Qed.

Lemma find_key_app (k : string) (l1 l2 : list SSTableEntry.t) :
  find_key k (l1 ++ l2)
  = match find_key k l1 with Some e => Some e | None => find_key k l2 end.
Proof.
  unfold find_key. induction l1 as [|a l1 IH]; [reflexivity|].
  cbn [app find]. destruct (String.eqb (SSTableEntry.Key a) k); [reflexivity|exact IH].
Qed.

(** In a sorted table split at the insertion point of [k], the entry for
    [k] can only be the first one from the insertion point on. *)
Lemma find_key_split (k : string) (lo hi : list SSTableEntry.t) :
  sorted_entries (lo ++ hi) ->
  (forall e, In e lo -> String.ltb (SSTableEntry.Key e) k = true) ->
  (forall e, In e hi -> String.ltb (SSTableEntry.Key e) k = false) ->
  find_key k (lo ++ hi)
  = match hi with
    | [] => None
    | h :: _ => if String.eqb (SSTableEntry.Key h) k then Some h else None
    end.
Proof.
  intros Hs Hlo Hhi. rewrite find_key_app.
  rewrite (find_key_None k lo) by (intros e Hin; apply ltb_neq; apply Hlo; exact Hin).
  destruct hi as [|h hi]; [reflexivity|]. rewrite find_key_cons.
  destruct (String.eqb_spec (SSTableEntry.Key h) k) as [E|NE]; [reflexivity|].
  apply find_key_None. intros e Hin <-.
  unfold sorted_entries in Hs. rewrite map_app in Hs.
  apply strictly_sorted_app in Hs. destruct Hs as (_ & Hshi & _).
  cbn [map] in Hshi. apply strictly_sorted_cons in Hshi. destruct Hshi as [Hh _].
  specialize (Hh (SSTableEntry.Key e) (in_map SSTableEntry.Key hi e Hin)).
  apply NE. apply ltb_total; [apply Hhi; left; reflexivity|].
  apply ltb_asym. exact Hh.
Qed.

(** A point lookup in the reader of a sorted table finds the entry for the
    key, if the table has one. *)
Lemma sst_Get_table (es : list SSTableEntry.t) (bf : BloomFilter) (k : string) :
  sorted_entries es -> Forall entry_fits es ->
  covers bf -> (forall kb, In kb (key_bytes es) -> all_bits_set bf kb) ->
  sst_Get (table_reader es bf) k = Ok (sst_answer (find_key k es)).
Proof.
  intros Hs Hfit Hc Hall.
  destruct (key_search_split (map SSTableEntry.Key es) k Hs) as (lk & hk & Hk & Hr & Hlo & Hhi).
  apply map_eq_app in Hk. destruct Hk as (lo & hi & He & <- & <-).
  assert (Hlo' : forall e, In e lo -> String.ltb (SSTableEntry.Key e) k = true).
  { intros e Hin. apply Hlo. apply in_map. exact Hin. }
  assert (Hhi' : forall e, In e hi -> String.ltb (SSTableEntry.Key e) k = false).
  { intros e Hin. apply Hhi. apply in_map. exact Hin. }
  subst es. rewrite (find_key_split k lo hi Hs Hlo' Hhi').
  unfold sst_Get, table_reader. cbn [bloom index].
  assert (Eidx : Search (List.length (index_of (lo ++ hi) 0))
                   (fun i => str_ge (indexEntry.Key (nth i (index_of (lo ++ hi) 0)
                                                       zero_indexEntry)) k)
                 = List.length (index_of lo 0)).
  { transitivity (key_search (map SSTableEntry.Key (lo ++ hi)) k).
    - unfold key_search, Search.
      assert (En : List.length (index_of (lo ++ hi) 0)
                   = List.length (map SSTableEntry.Key (lo ++ hi))).
      { rewrite length_index_of, length_map. reflexivity. }
      rewrite En. apply Search_loop_ext. intros i.
      change EmptyString with (indexEntry.Key zero_indexEntry).
      rewrite <- (keys_index_of (lo ++ hi) 0), map_nth. reflexivity.
    - rewrite Hr, length_map, length_index_of. reflexivity. }
  rewrite Eidx. rewrite index_of_app, nth_error_at.
  destruct (MayContain_total bf (bytes_of k) Hc) as (b & Hb).
  destruct hi as [|h hi].
  - rewrite Hb. cbn [bind index_of hd_error sst_answer option_map].
    destruct b; reflexivity.
  - cbn [index_of hd_error indexEntry.Key indexEntry.Offset].
    destruct (String.eqb_spec (SSTableEntry.Key h) k) as [E|NE].
    + assert (Hb' : MayContain bf (bytes_of k) = Ok true).
      { apply MayContain_all_set; [exact Hc|]. apply Hall. rewrite <- E.
        unfold key_bytes. apply in_map_iff. exists h. split; [reflexivity|].
        apply in_or_app. right. left. reflexivity. }
      rewrite Hb'. cbn [bind negb sst_answer option_map].
      unfold sst_file. rewrite data_of_app. unfold data_of at 2. cbn [map List.concat].
      fold (data_of hi). rewrite <- !app_assoc. rewrite Z.add_0_l.
      apply readEntry_written.
      rewrite Forall_forall in Hfit. apply Hfit. apply in_or_app. right. left. reflexivity.
    + rewrite Hb. cbn [bind negb sst_answer option_map]. destruct b; reflexivity.
Qed.

(** ** Reads across the tables *)

Lemma Get_sstables_tables (tables : list table) (k : string) :
  Forall good_table tables ->
  Get_sstables (map reader_of_table tables) k
  = Ok (to_get_result (match newest (map t_entries tables) k with
                       | Some e => entry_value e
                       | None => None
                       end)).
Proof.
  induction 1 as [|t tables (Hs & Hfit & Hc & Hall & _) _ IH]; [reflexivity|].
  cbn [map Get_sstables newest]. unfold reader_of_table at 1.
  rewrite (sst_Get_table _ _ k Hs Hfit Hc Hall).
  destruct (find_key k (t_entries t)) as [e|]; cbn [bind sst_answer option_map].
  - unfold entry_value. destruct (SSTableEntry.Tombstone e); reflexivity.
  - exact IH.
Qed.

(** ** The directory listing *)

Lemma desc_below_In (l : list Z) : forall n s, desc_below n l -> In s l -> s < n.
Proof.
  induction l as [|a l IH]; intros n s Hd Hin; [destruct Hin|].
  destruct Hd as [Ha Hd]. destruct Hin as [<-|Hin]; [exact Ha|].
  specialize (IH a s Hd Hin). lia.
Qed.

Lemma desc_below_le (l : list Z) (n n' : Z) : n <= n' -> desc_below n l -> desc_below n' l.
Proof.
  destruct l as [|a l]; [auto|]. intros Hle [Ha Hd]. split; [lia|exact Hd].
Qed.

Lemma insert_by_seq_last (f : sstFile) (l : list sstFile) :
  (forall g, In g l -> seq f < seq g) -> insert_by_seq f l = l ++ [f].
Proof.
  induction l as [|g l IH]; intros H; [reflexivity|].
  cbn [insert_by_seq app].
  destruct (Z.ltb_spec (seq g) (seq f)) as [Hlt|_].
  - specialize (H g ltac:(left; reflexivity)). lia.
  - rewrite IH; [reflexivity|]. intros g' Hg'. apply H. right. exact Hg'.
Qed.

Lemma sort_newest_first_acc (l : list sstFile) : forall (acc : list sstFile) (n : Z),
  desc_below n (map seq l) ->
  (forall g, In g acc -> n <= seq g) ->
  fold_right insert_by_seq acc (rev l) = acc ++ l.
Proof.
  induction l as [|f l IH]; intros acc n Hd Hacc.
  - cbn. rewrite app_nil_r. reflexivity.
  - cbn [map desc_below] in Hd. destruct Hd as [Hf Hd].
    cbn [rev]. rewrite fold_right_app. cbn [fold_right].
    rewrite insert_by_seq_last by (intros g Hg; specialize (Hacc g Hg); lia).
    rewrite (IH (acc ++ [f]) (seq f) Hd).
    + rewrite <- app_assoc. reflexivity.
    + intros g Hg. apply in_app_or in Hg. destruct Hg as [Hg|[<-|[]]]; [|lia].
      specialize (Hacc g Hg). lia.
Qed.

(** Files created in the order of their sequence numbers are listed newest
    first after the sort. *)
Lemma sort_newest_first_rev (l : list sstFile) (n : Z) :
  desc_below n (map seq l) -> sort_newest_first (rev l) = l.
Proof.
  intros Hd. unfold sort_newest_first.
  apply (sort_newest_first_acc l [] n Hd). intros g [].
Qed.

(** ** Sizes *)

Lemma len_sum_by {A : Type} (l : list A) : len l = sum_by (fun _ => 1) l.
Proof.
  induction l as [|a l IH]; [reflexivity|].
  rewrite sum_by_cons, <- IH. unfold len. cbn [List.length]. lia.
Qed.

Lemma sum_by_map {A B : Type} (f : A -> B) (g : B -> Z) (l : list A) :
  sum_by g (map f l) = sum_by (fun a => g (f a)) l.
Proof.
  induction l as [|a l IH]; [reflexivity|].
  cbn [map]. rewrite !sum_by_cons, IH. reflexivity.
Qed.

Lemma sum_by_ext {A : Type} (f g : A -> Z) (l : list A) :
  (forall a, f a = g a) -> sum_by f l = sum_by g l.
Proof.
  intros H. induction l as [|a l IH]; [reflexivity|].
  rewrite !sum_by_cons, IH, H. reflexivity.
Qed.

Lemma sum_by_filter {A : Type} (g : A -> Z) (p : A -> bool) (l : list A) :
  (forall a, 0 <= g a) -> sum_by g (filter p l) <= sum_by g l.
Proof.
  intros Hg. induction l as [|a l IH]; [cbn; lia|].
  cbn [filter]. specialize (Hg a).
  destruct (p a); rewrite ?sum_by_cons; lia.
Qed.

Lemma sum_by_concat {A : Type} (g : A -> Z) (ls : list (list A)) :
  sum_by g (List.concat ls) = sum_by (sum_by g) ls.
Proof.
  induction ls as [|l ls IH]; [reflexivity|].
  cbn [List.concat]. rewrite sum_by_app, sum_by_cons, IH. reflexivity.
Qed.

(** The bytes of the data and index sections of a table. *)
Lemma len_sections (es : list SSTableEntry.t) : forall off,
  len (data_of es) + len (index_bytes (index_of es off)) = sum_by entry_weight es.
Proof.
  induction es as [|e es IH]; intros off; [reflexivity|].
  unfold data_of, index_bytes. cbn [map List.concat index_of].
  fold (data_of es). fold (index_bytes (index_of es (off + len (encode_data_entry e)))).
  rewrite !len_app, sum_by_cons, <- (IH (off + len (encode_data_entry e))).
  rewrite len_encode_data_entry, len_encode_index_entry.
  unfold entry_weight. cbn [indexEntry.Key]. lia.
Qed.

Lemma advance_sum (g : SSTableEntry.t -> Z) (m : string) (rems : list (list SSTableEntry.t))
    (w : SSTableEntry.t) :
  (forall a, 0 <= g a) ->
  first_at m rems = Some w ->
  g w + sum_by g (List.concat (map (advance m) rems)) <= sum_by g (List.concat rems).
Proof.
  intros Hg.
  assert (Hle : forall rs, sum_by g (List.concat (map (advance m) rs))
                           <= sum_by g (List.concat rs)).
  { induction rs as [|r rs IHr]; [cbn; lia|].
    cbn [map List.concat]. rewrite !sum_by_app.
    destruct r as [|e r]; cbn [advance]; [lia|].
    destruct (String.eqb (SSTableEntry.Key e) m); rewrite ?sum_by_cons;
      pose proof (Hg e); lia. }
  induction rems as [|r rems IH]; intros Hw; [discriminate|].
  cbn [map List.concat]. rewrite !sum_by_app.
  destruct r as [|e r]; cbn [first_at advance] in *.
  - specialize (IH Hw). lia.
  - destruct (String.eqb (SSTableEntry.Key e) m).
    + injection Hw as <-. rewrite sum_by_cons. specialize (Hle rems). lia.
    + specialize (IH Hw). lia.
Qed.

(** The merge holds no more than its inputs. *)
Lemma kWayMerge_loop_sum (g : SSTableEntry.t -> Z) (fuel : nat) : forall rems,
  (forall a, 0 <= g a) ->
  sum_by g (kWayMerge_loop fuel rems) <= sum_by g (List.concat rems).
Proof.
  induction fuel as [|fuel IH]; intros rems Hg.
  - cbn [kWayMerge_loop]. apply (sum_by_nonneg g (List.concat rems) Hg).
  - destruct (kWayMerge_round rems) as [[_ Hstop]|(m & w & _ & _ & Hw & _ & Hstep)].
    + rewrite Hstop. apply (sum_by_nonneg g (List.concat rems) Hg).
    + rewrite Hstep, sum_by_cons. specialize (IH (map (advance m) rems) Hg).
      pose proof (advance_sum g m rems w Hg Hw). lia.
Qed.

Lemma Compact_live_sum (g : SSTableEntry.t -> Z) (sets : list (list SSTableEntry.t)) :
  (forall a, 0 <= g a) ->
  sum_by g (Compact_live sets) <= sum_by (sum_by g) sets.
Proof.
  intros Hg. unfold Compact_live, kWayMerge.
  rewrite <- sum_by_concat.
  eapply Z.le_trans; [apply sum_by_filter; exact Hg|].
  apply kWayMerge_loop_sum. exact Hg.
Qed.

(** ** Entries read back from a file *)

Lemma entry_fits_normalized (e : SSTableEntry.t) : entry_fits e -> entry_fits (normalized e).
Proof. intros H. exact H. Qed.

Lemma entry_weight_normalized (e : SSTableEntry.t) :
  entry_weight (normalized e) = entry_weight e.
Proof. reflexivity. Qed.

Lemma entry_value_normalized (e : SSTableEntry.t) : entry_value (normalized e) = entry_value e.
Proof. reflexivity. Qed.

Lemma keys_normalized (l : list SSTableEntry.t) :
  map SSTableEntry.Key (map normalized l) = map SSTableEntry.Key l.
Proof. rewrite map_map. apply map_ext. reflexivity. Qed.

Lemma sorted_normalized (l : list SSTableEntry.t) :
  sorted_entries l -> sorted_entries (map normalized l).
Proof. unfold sorted_entries. rewrite keys_normalized. auto. Qed.

Lemma find_key_normalized (k : string) (l : list SSTableEntry.t) :
  find_key k (map normalized l) = option_map normalized (find_key k l).
Proof.
  induction l as [|e l IH]; [reflexivity|].
  cbn [map]. rewrite !find_key_cons. cbn [normalized SSTableEntry.Key].
  destruct (String.eqb (SSTableEntry.Key e) k); [reflexivity|exact IH].
Qed.

Lemma newest_normalized (k : string) (ts : list (list SSTableEntry.t)) :
  newest (map (map normalized) ts) k = option_map normalized (newest ts k).
Proof.
  induction ts as [|t ts IH]; [reflexivity|].
  cbn [map newest]. rewrite find_key_normalized.
  destruct (find_key k t); [reflexivity|exact IH].
Qed.

(** In a sorted list the entry for a key survives a filter or there is
    none. *)
Lemma find_key_filter (p : SSTableEntry.t -> bool) (k : string) (l : list SSTableEntry.t) :
  sorted_entries l ->
  find_key k (filter p l)
  = match find_key k l with
    | Some e => if p e then Some e else None
    | None => None
    end.
Proof.
  induction l as [|e l IH]; intros Hs; [reflexivity|].
  apply sorted_entries_cons in Hs. destruct Hs as [Hlt Hs].
  cbn [filter]. rewrite find_key_cons.
  destruct (String.eqb_spec (SSTableEntry.Key e) k) as [E|NE].
  - destruct (p e); [rewrite find_key_cons, E, String.eqb_refl; reflexivity|].
    apply find_key_None. intros e' Hin Hk. apply filter_In in Hin. destruct Hin as [Hin _].
    specialize (Hlt e' Hin). rewrite E, Hk, ltb_irrefl in Hlt. discriminate.
  - destruct (p e); [rewrite find_key_cons|]; rewrite ?IH by exact Hs.
    + destruct (String.eqb_spec (SSTableEntry.Key e) k); [contradiction|reflexivity].
    + reflexivity.
Qed.

Lemma Compact_live_In (sets : list (list SSTableEntry.t)) (e : SSTableEntry.t) :
  Forall sorted_entries sets -> In e (Compact_live sets) -> exists s, In s sets /\ In e s.
Proof.
  intros Hs Hin. apply In_Compact_live in Hin. destruct Hin as [Hin _].
  unfold kWayMerge in Hin.
  destruct (kWayMerge_loop_sorted (S (List.length (List.concat sets))) sets Hs) as [_ H].
  apply H. exact Hin.
Qed.

(** The value the compacted table holds for a key is the value the tables
    it replaces held. *)
Lemma Compact_live_value (sets : list (list SSTableEntry.t)) (k : string) :
  Forall sorted_entries sets ->
  match newest [Compact_live sets] k with Some e => entry_value e | None => None end
  = match newest sets k with Some e => entry_value e | None => None end.
Proof.
  intros Hs. cbn [newest]. unfold Compact_live.
  rewrite (find_key_filter _ k _ (kWayMerge_sorted sets Hs)).
  rewrite (kWayMerge_newest sets k Hs).
  destruct (newest sets k) as [e|]; [|reflexivity].
  unfold entry_value. destruct (SSTableEntry.Tombstone e) eqn:Et; cbn; rewrite ?Et; reflexivity.
Qed.

(** ** Opening the tables of the directory *)

Lemma open_each_tables (tables : list table) :
  Forall good_table tables ->
  open_each (map table_file tables) = Ok (map reader_of_table tables).
Proof.
  induction 1 as [|t tables (_ & _ & _ & _ & Ho) _ IH]; [reflexivity|].
  cbn [map open_each table_file contents]. rewrite Ho, IH. reflexivity.
Qed.

Lemma ReadAll_each_tables (tables : list table) :
  Forall good_table tables ->
  ReadAll_each (map reader_of_table tables)
  = Ok (map (fun t => map normalized (t_entries t)) tables).
Proof.
  induction 1 as [|t tables (_ & Hfit & _) _ IH]; [reflexivity|].
  cbn [map ReadAll_each]. unfold reader_of_table at 1, table_reader.
  rewrite (ReadAll_written _ _ Hfit), IH. reflexivity.
Qed.

Lemma create_file_fresh (d : Dir) (lv sq : Z) (c : list byte) :
  (forall f, In f (ssts d) -> seq f < sq) ->
  ssts (create_file d lv sq c) = ssts d ++ [mkSstFile lv sq c].
Proof.
  intros H. unfold create_file. cbn [ssts]. f_equal.
  induction (ssts d) as [|f l IH]; [reflexivity|].
  cbn [filter].
  assert (E : (seq f =? sq) = false).
  { apply Z.eqb_neq. specialize (H f ltac:(left; reflexivity)). lia. }
  rewrite E, andb_false_r. cbn [negb]. rewrite IH; [reflexivity|].
  intros g Hg. apply H. right. exact Hg.
Qed.

Lemma remove_files_all (d : Dir) (old paths : list sstFile) (new : sstFile) :
  ssts d = old ++ [new] ->
  (forall f, In f old -> In f paths) ->
  (forall p, In p paths -> seq p < seq new) ->
  ssts (remove_files d paths) = [new].
Proof.
  intros Hd Hold Hnew. unfold remove_files. cbn [ssts]. rewrite Hd, filter_app.
  assert (E1 : filter (fun f => negb (existsb (fun p => (level p =? level f) && (seq p =? seq f))
                                        paths)) old = []).
  { clear Hd. induction old as [|f old IH]; [reflexivity|]. cbn [filter].
    assert (E : existsb (fun p => (level p =? level f) && (seq p =? seq f)) paths = true).
    { apply existsb_exists. exists f. split; [apply Hold; left; reflexivity|].
      rewrite !Z.eqb_refl. reflexivity. }
    rewrite E. cbn [negb]. apply IH. intros g Hg. apply Hold. right. exact Hg. }
  rewrite E1. cbn [app filter].
  assert (E2 : existsb (fun p => (level p =? level new) && (seq p =? seq new)) paths = false).
  { destruct (existsb _ paths) eqn:E; [|reflexivity].
    apply existsb_exists in E. destruct E as (p & Hp & Hpe).
    apply andb_true_iff in Hpe. destruct Hpe as [_ Hs]. apply Z.eqb_eq in Hs.
    specialize (Hnew p Hp). lia. }
  rewrite E2. reflexivity.
Qed.

Lemma bump_seq_spec (files : list sstFile) : forall n,
  let n' := fold_left (fun n f => if n <=? seq f then seq f + 1 else n) files n in
  n <= n' /\ forall f, In f files -> seq f < n'.
Proof.
  induction files as [|f files IH]; intros n; cbn [fold_left].
  - split; [lia|intros f []].
  - specialize (IH (if n <=? seq f then seq f + 1 else n)). cbn zeta in IH.
    destruct IH as [IH1 IH2]. split.
    + destruct (Z.leb_spec n (seq f)); lia.
    + intros g [<-|Hg]; [|apply IH2; exact Hg].
      destruct (Z.leb_spec n (seq f)); lia.
Qed.

(** ** Compaction keeps the state *)

Lemma seqs_table_files (tables : list table) :
  map seq (map table_file tables) = map t_seq tables.
Proof. rewrite map_map. apply map_ext. reflexivity. Qed.

Lemma sets_sum (g : SSTableEntry.t -> Z) (tables : list table) :
  (forall e, g (normalized e) = g e) ->
  sum_by (sum_by g) (map (fun t => map normalized (t_entries t)) tables)
  = sum_by (fun t => sum_by g (t_entries t)) tables.
Proof.
  intros Hg. rewrite sum_by_map. apply sum_by_ext. intros t.
  rewrite sum_by_map. apply sum_by_ext. exact Hg.
Qed.

Lemma Compact_live_fits (sizing : Z -> Z * Z) (cnt wgt : Z) (tables : list table) :
  sizing_ok sizing cnt -> cnt < 2 ^ 32 -> wgt < 2 ^ 63 ->
  Forall good_table tables ->
  sum_by (fun t => len (t_entries t)) tables <= cnt ->
  sum_by (fun t => sum_by entry_weight (t_entries t)) tables <= wgt ->
  let live := Compact_live (map (fun t => map normalized (t_entries t)) tables) in
  sorted_entries live /\ table_fits sizing live /\
  len live <= sum_by (fun t => len (t_entries t)) tables /\
  sum_by entry_weight live <= sum_by (fun t => sum_by entry_weight (t_entries t)) tables.
Proof.
  intros Hsz Hcnt Hwgt Hgood Hc Hw live.
  set (sets := map (fun t => map normalized (t_entries t)) tables) in *.
  assert (Hsorted : Forall sorted_entries sets).
  { unfold sets. apply Forall_map. eapply Forall_impl; [|exact Hgood].
    intros t (Hs & _). apply sorted_normalized. exact Hs. }
  assert (Hlen : len live <= sum_by (fun t => len (t_entries t)) tables).
  { rewrite len_sum_by.
    eapply Z.le_trans; [apply (Compact_live_sum (fun _ => 1) sets); intros; lia|].
    unfold sets. rewrite sets_sum by reflexivity.
    apply Z.eq_le_incl. apply sum_by_ext. intros t. symmetry. apply len_sum_by. }
  assert (Hwt : sum_by entry_weight live
                <= sum_by (fun t => sum_by entry_weight (t_entries t)) tables).
  { eapply Z.le_trans; [apply (Compact_live_sum entry_weight sets)|].
    - intros e. unfold entry_weight, str_len.
      pose proof (len_nonneg (slice_bytes (SSTableEntry.Value e))). lia.
    - unfold sets. rewrite sets_sum by reflexivity. lia. }
  split; [apply (Compact_live_sorted sets Hsorted)|].
  split; [|split; assumption].
  split; [|split; [lia|split; [apply Hsz; pose proof (len_nonneg live); lia
                              |rewrite len_sections; lia]]].
  apply Forall_forall. intros e He.
  destruct (Compact_live_In sets e Hsorted He) as (s0 & Hs0 & Hes0).
  unfold sets in Hs0. apply in_map_iff in Hs0. destruct Hs0 as (t & <- & Ht).
  apply in_map_iff in Hes0. destruct Hes0 as (e0 & <- & He0).
  rewrite Forall_forall in Hgood. destruct (Hgood t Ht) as (_ & Hfit & _).
  rewrite Forall_forall in Hfit. apply entry_fits_normalized. apply Hfit. exact He0.
Qed.

Lemma maybeCompact_inv (sizing : Z -> Z * Z) (cnt wgt : Z) (h : string -> option (list byte))
    (db : DB) (tables : list table) :
  sizing_ok sizing cnt -> cnt < 2 ^ 32 -> wgt < 2 ^ 63 ->
  StoreInv cnt wgt h db tables ->
  exists db' tables',
    maybeCompact sizing db = Ok db' /\ StoreInv cnt wgt h db' tables' /\
    mem db' = mem db /\ wal (dir db') = wal (dir db).
Proof.
  intros Hsz Hcnt Hwgt HI. unfold maybeCompact.
  destruct (len (level0SSTables (dir db)) <? CompactionThreshold).
  { exists db, tables. auto. }
  destruct HI as [Hsorted Hsize Hthr Hmfit Hfiles Hreaders Hgood Hseqs Hcount Hweight Hlook].
  assert (Hall : allSSTables (dir db) = map table_file tables).
  { unfold allSSTables. rewrite Hfiles.
    apply (sort_newest_first_rev _ (nextSeq db)). rewrite seqs_table_files. exact Hseqs. }
  rewrite Hall, (open_each_tables tables Hgood). cbn [bind].
  unfold Compact. rewrite (ReadAll_each_tables tables Hgood). cbn [bind].
  pose proof (len_nonneg (entries (mem db))) as Hm0.
  assert (Hw0 : 0 <= sum_by (fun e => entry_weight (mem_entry e)) (entries (mem db))).
  { apply sum_by_nonneg. intros e. unfold entry_weight, str_len.
    pose proof (len_nonneg (slice_bytes (SSTableEntry.Value (mem_entry e)))). lia. }
  destruct (Compact_live_fits sizing cnt wgt tables Hsz Hcnt Hwgt Hgood ltac:(lia) ltac:(lia))
    as (Hlsorted & Hlfits & Hllen & Hlwt).
  set (live := Compact_live (map (fun t => map normalized (t_entries t)) tables)) in *.
  destruct (Write_Open sizing live Hlfits) as (bf & Hc & Hbits & Hw & Ho).
  rewrite Hw. cbn [bind].
  set (t' := mkTable 1 (nextSeq db) live bf).
  set (d1 := create_file (dir db) 1 (nextSeq db) (sst_file live bf)).
  assert (Hold : forall f, In f (ssts (dir db)) -> seq f < nextSeq db).
  { intros f Hf. rewrite Hfiles in Hf. apply in_rev in Hf.
    apply (desc_below_In (map t_seq tables) (nextSeq db) (seq f) Hseqs).
    rewrite <- seqs_table_files. apply in_map. exact Hf. }
  assert (Ed1 : ssts d1 = ssts (dir db) ++ [table_file t']).
  { unfold d1. apply create_file_fresh. exact Hold. }
  assert (Ed2 : ssts (remove_files d1 (map table_file tables)) = [table_file t']).
  { apply (remove_files_all d1 (ssts (dir db)) _ _ Ed1).
    - intros f Hf. rewrite Hfiles in Hf. apply in_rev in Hf. exact Hf.
    - intros p Hp. apply Hold. rewrite Hfiles. apply in_rev. rewrite rev_involutive. exact Hp. }
  unfold loadSSTables. cbn [dir mem sstables nextSeq]. rewrite Ed2.
  cbn [fold_left sort_newest_first fold_right insert_by_seq open_each table_file contents seq].
  assert (En : (nextSeq db + 1 <=? t_seq t') = false) by (apply Z.leb_gt; cbn; lia).
  rewrite En.
  change (sst_file (t_entries t') (t_bloom t')) with (sst_file live bf).
  rewrite Ho. cbn [bind app].
  eexists. exists [t']. split; [reflexivity|]. split; [|split; reflexivity].
  constructor; cbn [mem dir sstables nextSeq map rev app t_seq t_entries]; try assumption.
  - reflexivity.
  - constructor; [|constructor]. unfold good_table. cbn [t_entries t_bloom].
    split; [exact Hlsorted|]. split; [apply Hlfits|]. split; [exact Hc|].
    split; [exact Hbits|exact Ho].
  - cbn. split; [lia|exact I].
  - rewrite sum_by_cons. unfold t'. cbn [t_entries]. change (sum_by _ []) with 0. lia.
  - rewrite sum_by_cons. unfold t'. cbn [t_entries]. change (sum_by _ []) with 0. lia.
  - intros k. rewrite <- Hlook. unfold tier_lookup.
    destruct (mem_find k (entries (mem db))); [reflexivity|].
    unfold t'. cbn [t_entries map]. unfold live. rewrite Compact_live_value.
    + replace (map (fun t => map normalized (t_entries t)) tables)
        with (map (map normalized) (map t_entries tables)) by (rewrite map_map; reflexivity).
      rewrite newest_normalized.
      destruct (newest (map t_entries tables) k); reflexivity.
    + apply Forall_map. eapply Forall_impl; [|exact Hgood].
      intros t (Hs & _). apply sorted_normalized. exact Hs.
Qed.

(** ** Flush keeps the state *)

Lemma find_key_mem_entry (k : string) (mes : list memEntry) :
  find_key k (map mem_entry mes) = option_map mem_entry (mem_find k mes).
Proof.
  unfold mem_find. induction mes as [|e mes IH]; [reflexivity|].
  cbn [map find]. rewrite find_key_cons. cbn [mem_entry SSTableEntry.Key].
  destruct (String.eqb (key e) k); [reflexivity|exact IH].
Qed.

Lemma entry_weight_nonneg (e : SSTableEntry.t) : 0 <= entry_weight e.
Proof.
  unfold entry_weight, str_len.
  pose proof (len_nonneg (slice_bytes (SSTableEntry.Value e))). lia.
Qed.

Lemma flush_inv (sizing : Z -> Z * Z) (cnt wgt : Z) (h : string -> option (list byte))
    (db : DB) (tables : list table) :
  sizing_ok sizing cnt -> cnt < 2 ^ 32 -> wgt < 2 ^ 63 ->
  StoreInv cnt wgt h db tables ->
  exists db' tables',
    flush sizing db = Ok db' /\ StoreInv cnt wgt h db' tables' /\
    mem db' = NewMemtable DefaultMemtableSize /\ wal (dir db') = Some [].
Proof.
  intros Hsz Hcnt Hwgt HI.
  destruct HI as [Hsorted Hsize Hthr Hmfit Hfiles Hreaders Hgood Hseqs Hcount Hweight Hlook].
  unfold flush.
  change (map (fun e => SSTableEntry.mk (key e) (value e) (tombstone e)) (entries (mem db)))
    with (map mem_entry (entries (mem db))).
  set (es := map mem_entry (entries (mem db))).
  assert (Hlen : len es = len (entries (mem db))).
  { unfold es, len. rewrite length_map. reflexivity. }
  assert (Hwt : sum_by entry_weight es
                = sum_by (fun e => entry_weight (mem_entry e)) (entries (mem db))).
  { unfold es. apply sum_by_map. }
  assert (Ht0 : 0 <= sum_by (fun t => len (t_entries t)) tables).
  { apply sum_by_nonneg. intros t. apply len_nonneg. }
  assert (Ht1 : 0 <= sum_by (fun t => sum_by entry_weight (t_entries t)) tables).
  { apply sum_by_nonneg. intros t. apply sum_by_nonneg. apply entry_weight_nonneg. }
  assert (Hfits : table_fits sizing es).
  { split; [unfold es; apply Forall_map; exact Hmfit|].
    split; [lia|]. split; [apply Hsz; pose proof (len_nonneg es); lia|].
    rewrite len_sections. lia. }
  destruct (Write_Open sizing es Hfits) as (bf & Hc & Hbits & Hw & Ho).
  rewrite Hw. cbn [bind]. rewrite Ho. cbn [bind].
  set (t0 := mkTable 0 (nextSeq db) es bf).
  assert (Hold : forall f, In f (ssts (dir db)) -> seq f < nextSeq db).
  { intros f Hf. rewrite Hfiles in Hf. apply in_rev in Hf.
    apply (desc_below_In (map t_seq tables) (nextSeq db) (seq f) Hseqs).
    rewrite <- seqs_table_files. apply in_map. exact Hf. }
  rewrite (create_file_fresh (dir db) 0 (nextSeq db) (sst_file es bf) Hold).
  match goal with
  | |- exists db' tables', maybeCompact sizing ?d = _ /\ _ => set (db1 := d)
  end.
  assert (HI1 : StoreInv cnt wgt h db1 (t0 :: tables)).
  { constructor; unfold db1; cbn [mem dir sstables nextSeq ssts entries size threshold
                                    NewMemtable map t_seq].
    - reflexivity.
    - reflexivity.
    - reflexivity.
    - constructor.
    - cbn [rev]. rewrite Hfiles. reflexivity.
    - rewrite Hreaders. reflexivity.
    - constructor; [|exact Hgood]. unfold good_table, t0. cbn [t_entries t_bloom].
      split; [unfold sorted_entries, es; rewrite map_map; exact Hsorted|].
      split; [apply Hfits|]. split; [exact Hc|]. split; [exact Hbits|exact Ho].
    - unfold t0. cbn [desc_below t_seq]. split; [lia|exact Hseqs].
    - rewrite sum_by_cons. unfold t0. cbn [t_entries]. change (len (@nil memEntry)) with 0. lia.
    - rewrite sum_by_cons. unfold t0. cbn [t_entries].
      change (sum_by _ (@nil memEntry)) with 0. lia.
    - intros k. rewrite <- Hlook. unfold tier_lookup, t0. cbn [mem_find find newest t_entries].
      unfold es. rewrite find_key_mem_entry.
      destruct (mem_find k (entries (mem db))); reflexivity. }
  destruct (maybeCompact_inv sizing cnt wgt h db1 (t0 :: tables) Hsz Hcnt Hwgt HI1)
    as (db' & tables' & Hrun & HI' & Hmem & Hwal).
  exists db', tables'. split; [exact Hrun|]. split; [exact HI'|].
  split; [rewrite Hmem; reflexivity|rewrite Hwal; reflexivity].
Qed.

(** ** Put and Delete keep the state *)

Lemma StoreInv_upsert (cnt wgt : Z) (h : string -> option (list byte)) (db : DB)
    (tables : list table) (lo hi : list memEntry) (new : memEntry) (d' : Dir) :
  StoreInv cnt wgt h db tables ->
  entries (mem db) = lo ++ hi ->
  (forall e, In e lo -> String.ltb (key e) (key new) = true) ->
  (forall e, In e hi -> String.ltb (key e) (key new) = false) ->
  entry_fits (mem_entry new) ->
  ssts d' = ssts (dir db) ->
  StoreInv (cnt + 1) (wgt + entry_weight (mem_entry new))
    (update h (key new) (entry_value (mem_entry new)))
    {| dir := d';
       mem := {| entries := lo ++ new :: drop_key (key new) hi;
                 size := size (mem db) - dropped_size (key new) hi + entry_size new;
                 threshold := threshold (mem db) |};
       sstables := sstables db; nextSeq := nextSeq db |}
    tables.
Proof.
  intros HI He Hlo Hhi Hnew Hd.
  destruct HI as [Hsorted Hsize Hthr Hmfit Hfiles Hreaders Hgood Hseqs Hcount Hweight Hlook].
  unfold sorted_mem in Hsorted. rewrite He in *.
  constructor; cbn [mem dir sstables nextSeq entries size threshold]; try assumption.
  - apply upsert_sorted; assumption.
  - unfold mem_bytes in *. rewrite (upsert_sum entry_size lo hi new), Hsize.
    unfold dropped_size. destruct hi as [|h0 hi]; [lia|].
    destruct (String.eqb (key h0) (key new)); lia.
  - apply Forall_app in Hmfit. destruct Hmfit as [Hflo Hfhi].
    apply Forall_app. split; [exact Hflo|]. constructor; [exact Hnew|].
    rewrite Forall_forall in *. intros e Hin. apply Hfhi. eapply drop_key_incl. exact Hin.
  - rewrite Hd. exact Hfiles.
  - rewrite len_sum_by in *. rewrite (upsert_sum (fun _ => 1) lo hi new).
    destruct hi as [|h0 hi]; [lia|]. destruct (String.eqb (key h0) (key new)); lia.
  - rewrite (upsert_sum (fun e => entry_weight (mem_entry e)) lo hi new).
    destruct hi as [|h0 hi]; [lia|].
    pose proof (entry_weight_nonneg (mem_entry h0)).
    destruct (String.eqb (key h0) (key new)); lia.
  - intros k'. unfold tier_lookup, update.
    rewrite upsert_find by (intros e Hin; apply ltb_neq; apply Hlo; exact Hin).
    destruct (String.eqb (key new) k'); [reflexivity|]. apply Hlook.
Qed.

Lemma wal_of_snoc (wes : list WALEntry) (e : WALEntry) :
  wal_of (wes ++ [e]) = Append (wal_of wes) e.
Proof. unfold wal_of. rewrite fold_left_app. reflexivity. Qed.

Lemma Inv_after_flush (cnt wgt : Z) (h : string -> option (list byte)) (db : DB)
    (tables : list table) :
  StoreInv cnt wgt h db tables ->
  mem db = NewMemtable DefaultMemtableSize -> wal (dir db) = Some [] ->
  Inv cnt wgt h db /\ live_non_nil (mem db).
Proof.
  intros HI Hmem Hwal. split.
  - exists tables, []. split; [exact HI|]. constructor.
    + exact Hwal.
    + constructor.
    + rewrite Hmem. reflexivity.
    + rewrite Hmem. cbn. reflexivity.
  - rewrite Hmem. constructor.
Qed.

(** The memtable after Put or Delete of [new], the log entry [we] appended:
    either the memtable is full and flushed, or the entry stays in the
    log. *)
Lemma upsert_inv (sizing : Z -> Z * Z) (cnt wgt : Z) (h : string -> option (list byte))
    (db : DB) (new : memEntry) (we : WALEntry) (m' : Memtable) :
  sizing_ok sizing (cnt + 1) ->
  Inv cnt wgt h db ->
  entry_fits (mem_entry new) ->
  cnt + 1 < 2 ^ 32 -> wgt + entry_weight (mem_entry new) < 2 ^ 63 ->
  (forall lo hi, entries (mem db) = lo ++ hi -> search (mem db) (key new) = List.length lo ->
     m' = {| entries := lo ++ new :: drop_key (key new) hi;
             size := size (mem db) - dropped_size (key new) hi + entry_size new;
             threshold := threshold (mem db) |}) ->
  len (Key we) = str_len (key new) ->
  len (slice_bytes (Value we)) = len (slice_bytes (value new)) ->
  apply_entry (norm_mem (mem db)) (decoded we) = norm_mem m' ->
  exists db',
    (let db1 := {| dir := wal_append (dir db) we; mem := m';
                   sstables := sstables db; nextSeq := nextSeq db |} in
     if IsFull (mem db1) then flush sizing db1 else Ok db1) = Ok db' /\
    Inv (cnt + 1) (wgt + entry_weight (mem_entry new))
      (update h (key new) (entry_value (mem_entry new))) db' /\
    ((tombstone new = true \/ is_nil (value new) = false) ->
     live_non_nil (mem db) -> live_non_nil (mem db')).
Proof.
  intros Hsz (tables & wes & HS & HL) Hnew Hcnt Hwgt Hshape Hklen Hvlen Happly.
  destruct (mem_shape (mem db) (key new) (si_sorted _ _ _ _ _ HS))
    as (lo & hi & He & Hr & Hlo & Hhi).
  specialize (Hshape lo hi He Hr). subst m'.
  pose proof (StoreInv_upsert cnt wgt h db tables lo hi new (wal_append (dir db) we)
                HS He Hlo Hhi Hnew eq_refl) as HS'.
  cbn zeta.
  match type of HS' with StoreInv _ _ _ ?d _ => set (db1 := d) in * end.
  destruct (IsFull (mem db1)) eqn:Efull.
  - destruct (flush_inv sizing _ _ _ db1 tables Hsz Hcnt Hwgt HS')
      as (db' & tables' & Hrun & HI' & Hmem & Hwal).
    exists db'. split; [exact Hrun|].
    destruct (Inv_after_flush _ _ _ db' tables' HI' Hmem Hwal) as [Hinv Hlive].
    split; [exact Hinv|]. intros _ _. exact Hlive.
  - exists db1. split; [reflexivity|].
    unfold IsFull in Efull. apply Z.leb_gt in Efull.
    rewrite (si_threshold _ _ _ _ _ HS') in Efull.
    split.
    + exists tables, (wes ++ [we]). split; [exact HS'|].
      destruct HL as [Lwal Lfits Lreplay Lbelow].
      constructor.
      * unfold db1. cbn [dir wal_append wal]. rewrite Lwal, wal_of_snoc. reflexivity.
      * apply Forall_app. split; [exact Lfits|]. constructor; [|constructor].
        unfold wal_fits. rewrite Hklen, Hvlen.
        pose proof (si_size _ _ _ _ _ HS') as Hsz'.
        assert (Hin : In new (entries (mem db1))).
        { unfold db1. cbn [mem entries]. apply in_or_app. right. left. reflexivity. }
        pose proof (sum_by_In entry_size (entries (mem db1)) new
                      ltac:(intros x; unfold entry_size, str_len;
                            pose proof (len_nonneg (slice_bytes (value x))); lia) Hin) as Hle.
        unfold mem_bytes in Hsz'. unfold entry_size in Hle at 1.
        change DefaultMemtableSize with 4194304 in Efull. lia.
      * rewrite map_app, fold_left_app, Lreplay. cbn [map fold_left]. exact Happly.
      * exact Efull.
    + intros Hnn Hlive. unfold live_non_nil in *. rewrite He in Hlive.
      apply Forall_app in Hlive. destruct Hlive as [Hl1 Hl2].
      unfold db1. cbn [mem entries]. apply Forall_app. split; [exact Hl1|].
      constructor; [exact Hnn|].
      rewrite Forall_forall in *. intros e Hin. apply Hl2. eapply drop_key_incl. exact Hin.
Qed.

Lemma Put_inv (sizing : Z -> Z * Z) (cnt wgt : Z) (h : string -> option (list byte))
    (db : DB) (k : string) (v : slice) :
  sizing_ok sizing (cnt + 1) ->
  Inv cnt wgt h db ->
  op_fits (DoPut k v) ->
  cnt + 1 < 2 ^ 32 -> wgt + op_weight (DoPut k v) < 2 ^ 63 ->
  exists db',
    Put sizing db k v = Ok db' /\
    Inv (cnt + 1) (wgt + op_weight (DoPut k v)) (apply_op h (DoPut k v)) db' /\
    (is_nil v = false -> live_non_nil (mem db) -> live_non_nil (mem db')).
Proof.
  intros Hsz HI Hfit Hcnt Hwgt.
  destruct (upsert_inv sizing cnt wgt h db (mkMemEntry k v false)
              {| Op := OpPut; Key := bytes_of k; Value := v |} (mem_Put (mem db) k v)
              Hsz HI Hfit Hcnt Hwgt) as (db' & Hrun & Hinv & Hlive).
  - intros lo hi He Hr. apply mem_Put_shape; assumption.
  - apply len_bytes_of.
  - reflexivity.
  - unfold apply_entry, decoded. cbn [Op Key Value].
    change (Byte.eqb OpPut OpPut) with true. cbv iota.
    unfold bytes_of. rewrite string_of_list_byte_of_string. symmetry. apply norm_mem_Put.
  - exists db'. split; [exact Hrun|]. split; [exact Hinv|].
    intros Hnn. apply Hlive. right. exact Hnn.
Qed.

Lemma Delete_inv (sizing : Z -> Z * Z) (cnt wgt : Z) (h : string -> option (list byte))
    (db : DB) (k : string) :
  sizing_ok sizing (cnt + 1) ->
  Inv cnt wgt h db ->
  op_fits (DoDelete k) ->
  cnt + 1 < 2 ^ 32 -> wgt + op_weight (DoDelete k) < 2 ^ 63 ->
  exists db',
    Delete sizing db k = Ok db' /\
    Inv (cnt + 1) (wgt + op_weight (DoDelete k)) (apply_op h (DoDelete k)) db' /\
    (live_non_nil (mem db) -> live_non_nil (mem db')).
Proof.
  intros Hsz HI Hfit Hcnt Hwgt.
  assert (Hfit' : entry_fits (mem_entry (mkMemEntry k Nil true))).
  { split; [exact Hfit|]. cbn. reflexivity. }
  assert (Hw : entry_weight (mem_entry (mkMemEntry k Nil true)) = op_weight (DoDelete k)).
  { unfold entry_weight, op_weight. cbn [mem_entry SSTableEntry.Key SSTableEntry.Value key value
                                          slice_bytes].
    change (len (@nil byte)) with 0. lia. }
  destruct (upsert_inv sizing cnt wgt h db (mkMemEntry k Nil true)
              {| Op := OpDelete; Key := bytes_of k; Value := Nil |} (mem_Delete (mem db) k)
              Hsz HI Hfit' Hcnt ltac:(rewrite Hw; exact Hwgt)) as (db' & Hrun & Hinv & Hlive).
  - intros lo hi He Hr. apply mem_Delete_shape; assumption.
  - apply len_bytes_of.
  - reflexivity.
  - unfold apply_entry, decoded. cbn [Op Key Value].
    change (Byte.eqb OpDelete OpPut) with false.
    change (Byte.eqb OpDelete OpDelete) with true. cbv iota.
    unfold bytes_of. rewrite string_of_list_byte_of_string. symmetry. apply norm_mem_Delete.
  - exists db'. split; [exact Hrun|]. rewrite Hw in Hinv. split; [exact Hinv|].
    apply Hlive. left. reflexivity.
Qed.

(** ** Reopening *)

Lemma norm_entry_idem (e : memEntry) : norm_entry (norm_entry e) = norm_entry e.
Proof. unfold norm_entry. destruct (tombstone e) eqn:E; cbn; rewrite ?E; reflexivity. Qed.

Lemma norm_mem_idem (m : Memtable) : norm_mem (norm_mem m) = norm_mem m.
Proof.
  unfold norm_mem. cbn [entries size threshold]. rewrite map_map.
  f_equal. apply map_ext. apply norm_entry_idem.
Qed.

Lemma entry_size_norm (e : memEntry) : entry_size (norm_entry e) = entry_size e.
Proof. unfold entry_size. rewrite key_norm_entry, bytes_norm_entry. reflexivity. Qed.

Lemma entry_weight_norm (e : memEntry) :
  entry_weight (mem_entry (norm_entry e)) = entry_weight (mem_entry e).
Proof.
  unfold entry_weight. cbn [mem_entry SSTableEntry.Key SSTableEntry.Value].
  rewrite key_norm_entry, bytes_norm_entry. reflexivity.
Qed.

Lemma entry_value_norm (e : memEntry) :
  entry_value (mem_entry (norm_entry e)) = entry_value (mem_entry e).
Proof.
  unfold entry_value. cbn [mem_entry SSTableEntry.Tombstone SSTableEntry.Value].
  rewrite tombstone_norm_entry, bytes_norm_entry. reflexivity.
Qed.

Lemma live_non_nil_norm (m : Memtable) : live_non_nil (norm_mem m).
Proof.
  unfold live_non_nil, norm_mem. cbn [entries]. apply Forall_map.
  apply Forall_forall. intros e _. unfold norm_entry.
  destruct (tombstone e) eqn:E; [left; exact E|right; reflexivity].
Qed.

Lemma StoreInv_norm (cnt wgt : Z) (h : string -> option (list byte)) (db : DB)
    (tables : list table) (d' : Dir) (n' : Z) :
  StoreInv cnt wgt h db tables ->
  ssts d' = ssts (dir db) ->
  desc_below n' (map t_seq tables) ->
  StoreInv cnt wgt h
    {| dir := d'; mem := norm_mem (mem db);
       sstables := map reader_of_table tables; nextSeq := n' |} tables.
Proof.
  intros [Hsorted Hsize Hthr Hmfit Hfiles Hreaders Hgood Hseqs Hcount Hweight Hlook] Hd Hn'.
  constructor; cbn [mem dir sstables nextSeq]; try assumption.
  - unfold sorted_mem. rewrite keys_norm_mem. exact Hsorted.
  - unfold norm_mem, mem_bytes. cbn [entries size]. rewrite sum_by_map.
    rewrite (sum_by_ext _ entry_size) by apply entry_size_norm. exact Hsize.
  - unfold norm_mem. cbn [entries]. apply Forall_map.
    eapply Forall_impl; [|exact Hmfit]. intros e He. unfold entry_fits in *.
    cbn [mem_entry SSTableEntry.Key SSTableEntry.Value] in *.
    rewrite key_norm_entry, bytes_norm_entry. exact He.
  - rewrite Hd. exact Hfiles.
  - reflexivity.
  - unfold norm_mem, len. cbn [entries]. rewrite length_map. exact Hcount.
  - unfold norm_mem. cbn [entries]. rewrite sum_by_map.
    rewrite (sum_by_ext _ (fun e => entry_weight (mem_entry e))) by apply entry_weight_norm.
    exact Hweight.
  - intros k. rewrite <- Hlook. unfold tier_lookup, norm_mem. cbn [entries].
    rewrite mem_find_norm.
    destruct (mem_find k (entries (mem db))) as [e|]; [|reflexivity].
    cbn [option_map]. apply entry_value_norm.
Qed.

(** After a crash the directory opens to an engine in the same state. *)
Lemma Open_inv (cnt wgt : Z) (h : string -> option (list byte)) (db : DB) :
  Inv cnt wgt h db ->
  exists db2, Open (dir db) = Ok db2 /\ Inv cnt wgt h db2 /\ live_non_nil (mem db2).
Proof.
  intros (tables & wes & HS & HL).
  pose proof (si_files _ _ _ _ _ HS) as Hfiles.
  pose proof (si_good _ _ _ _ _ HS) as Hgood.
  pose proof (si_seqs _ _ _ _ _ HS) as Hseqs.
  destruct HL as [Lwal Lfits Lreplay Lbelow].
  pose proof (bump_seq_spec (ssts (dir db)) 1) as Hbump. cbn zeta in Hbump.
  set (next := fold_left (fun n f => if n <=? seq f then seq f + 1 else n)
                 (ssts (dir db)) 1) in *.
  assert (Hopen : Open (dir db)
                  = Ok {| dir := {| wal := Some (wal_of wes); ssts := ssts (dir db) |};
                          mem := norm_mem (mem db);
                          sstables := map reader_of_table tables; nextSeq := next |}).
  { unfold Open, loadSSTables. cbn [dir mem sstables nextSeq]. fold next.
    replace (sort_newest_first (ssts (dir db))) with (map table_file tables).
    - rewrite (open_each_tables tables Hgood). cbn [bind app mem sstables nextSeq].
      rewrite Lwal, (Replay_wal_of wes Lfits). cbn [bind]. rewrite Lreplay. reflexivity.
    - rewrite Hfiles. symmetry.
      apply (sort_newest_first_rev (map table_file tables) (nextSeq db)).
      rewrite seqs_table_files. exact Hseqs. }
  eexists. split; [exact Hopen|].
  assert (Hn' : desc_below next (map t_seq tables)).
  { destruct tables as [|t tables]; [exact I|]. cbn [map desc_below] in *.
    split; [|apply Hseqs]. destruct Hbump as [_ Hb].
    apply (Hb (table_file t)). rewrite Hfiles. apply in_rev. rewrite rev_involutive.
    left. reflexivity. }
  split; [|apply live_non_nil_norm].
  exists tables, wes. split.
  - apply (StoreInv_norm cnt wgt h db tables _ next HS); [reflexivity|exact Hn'].
  - constructor; cbn [dir mem wal].
    + reflexivity.
    + exact Lfits.
    + rewrite norm_mem_idem. exact Lreplay.
    + exact Lbelow.
Qed.

Lemma Open_empty :
  exists db0, Open empty_dir = Ok db0 /\ Inv 0 0 (fun _ => None) db0 /\ live_non_nil (mem db0).
Proof.
  eexists. split; [reflexivity|]. split.
  - exists [], []. split.
    + constructor; cbn; try reflexivity; try constructor; try lia.
    + constructor; cbn; try reflexivity; try constructor.
  - constructor.
Qed.

(** ** Get *)

Lemma Get_inv (cnt wgt : Z) (h : string -> option (list byte)) (db : DB) (k : string) :
  Inv cnt wgt h db -> live_non_nil (mem db) -> Get db k = Ok (to_get_result (h k)).
Proof.
  intros (tables & wes & HS & _) Hlive.
  rewrite <- (si_lookup _ _ _ _ _ HS k). unfold Get, tier_lookup.
  rewrite (mem_Get_spec (mem db) k (si_sorted _ _ _ _ _ HS)).
  destruct (mem_find k (entries (mem db))) as [e|] eqn:Ef.
  - unfold entry_value. cbn [mem_entry SSTableEntry.Tombstone SSTableEntry.Value].
    destruct (tombstone e) eqn:Et; [reflexivity|].
    unfold mem_find in Ef. apply find_some in Ef. destruct Ef as [Hin _].
    unfold live_non_nil in Hlive. rewrite Forall_forall in Hlive.
    destruct (Hlive e Hin) as [Ht|Hn]; [congruence|].
    destruct (value e); [discriminate|reflexivity].
  - rewrite (si_readers _ _ _ _ _ HS).
    apply Get_sstables_tables. exact (si_good _ _ _ _ _ HS).
Qed.

(** ** Sequences of operations *)

Lemma fold_apply_op (ops : list operation) : forall (h : string -> option (list byte)) k,
  fold_left apply_op ops h k = latest ops k (h k).
Proof.
  induction ops as [|o ops IH]; intros h k; [reflexivity|].
  cbn [fold_left latest]. rewrite IH. destruct o; reflexivity.
Qed.

Lemma run_inv (sizing : Z -> Z * Z) (ops : list operation) :
  forall (cnt wgt : Z) (h : string -> option (list byte)) (db : DB),
  sizing_ok sizing (cnt + len ops) ->
  Inv cnt wgt h db ->
  Forall op_fits ops ->
  cnt + len ops < 2 ^ 32 -> wgt + sum_by op_weight ops < 2 ^ 63 ->
  exists db',
    run sizing db ops = Ok db' /\
    Inv (cnt + len ops) (wgt + sum_by op_weight ops) (fold_left apply_op ops h) db' /\
    (non_nil_puts ops -> live_non_nil (mem db) -> live_non_nil (mem db')).
Proof.
  induction ops as [|o ops IH]; intros cnt wgt h db Hsz HI Hfit Hcnt Hwgt.
  - exists db. split; [reflexivity|]. change (len (@nil operation)) with 0.
    change (sum_by op_weight []) with 0. rewrite !Z.add_0_r. split; [exact HI|auto].
  - inversion Hfit as [|? ? Ho Hops]; subst.
    assert (Hlen : len (o :: ops) = 1 + len ops) by (unfold len; cbn [List.length]; lia).
    rewrite Hlen in *. rewrite sum_by_cons in *.
    pose proof (len_nonneg ops) as Hl0.
    assert (Hw0 : 0 <= sum_by op_weight ops).
    { apply sum_by_nonneg. intros [k v|k]; unfold op_weight, str_len;
        [pose proof (len_nonneg (slice_bytes v))|]; lia. }
    assert (Hsz1 : sizing_ok sizing (cnt + 1)).
    { intros n Hn. apply Hsz. lia. }
    assert (Hsz2 : sizing_ok sizing (cnt + 1 + len ops)).
    { intros n Hn. apply Hsz. lia. }
    assert (Hstep : exists db1,
               step sizing db o = Ok db1 /\
               Inv (cnt + 1) (wgt + op_weight o) (apply_op h o) db1 /\
               (non_nil_puts (o :: ops) -> live_non_nil (mem db) -> live_non_nil (mem db1))).
    { destruct o as [k v|k]; cbn [step].
      - destruct (Put_inv sizing cnt wgt h db k v Hsz1 HI Ho ltac:(lia) ltac:(lia))
          as (db1 & H1 & H2 & H3).
        exists db1. split; [exact H1|]. split; [exact H2|].
        intros Hnn. apply H3. apply (Hnn k v). left. reflexivity.
      - destruct (Delete_inv sizing cnt wgt h db k Hsz1 HI Ho ltac:(lia) ltac:(lia))
          as (db1 & H1 & H2 & H3).
        exists db1. split; [exact H1|]. split; [exact H2|]. intros _. exact H3. }
    destruct Hstep as (db1 & H1 & H2 & H3).
    destruct (IH (cnt + 1) (wgt + op_weight o) (apply_op h o) db1 Hsz2 H2 Hops
                ltac:(lia) ltac:(lia)) as (db' & R1 & R2 & R3).
    exists db'. cbn [run]. rewrite H1. cbn [bind]. split; [exact R1|].
    cbn [fold_left].
    replace (cnt + (1 + len ops)) with (cnt + 1 + len ops) by lia.
    replace (wgt + (op_weight o + sum_by op_weight ops))
      with (wgt + op_weight o + sum_by op_weight ops) by lia.
    split; [exact R2|].
    intros Hnn Hlive. apply R3.
    + intros k v Hin. apply (Hnn k v). right. exact Hin.
    + apply H3; assumption.
Qed.

(** ** Sessions and crashes *)

Lemma op_weight_nonneg (ops : list operation) : 0 <= sum_by op_weight ops.
Proof.
  apply sum_by_nonneg. intros [k v|k]; unfold op_weight, str_len;
    [pose proof (len_nonneg (slice_bytes v))|]; lia.
Qed.




(** Without a crash, and when no put has the nil slice for its value, Get
    after the operations answers with the value of the most recent put, or
    with ErrKeyNotFound when the most recent operation on the key is a
    delete or there is none.  Every prefix of a workload is a workload, so
    this holds after each operation. *)
Lemma get_most_recent_non_nil (sizing : Z -> Z * Z) (ops : list operation) (k : string) :
  sizing_ok sizing (len ops) ->
  workload_fits ops ->
  non_nil_puts ops ->
  exists db0 db,
    Open empty_dir = Ok db0 /\
    run sizing db0 ops = Ok db /\
    Get db k = Ok (expected ops k).
Proof.
  intros Hsz (Hfit & Hcnt & Hwgt) Hnn.
  destruct Open_empty as (db0 & O1 & O2 & O3).
  destruct (run_inv sizing ops 0 0 (fun _ => None) db0 Hsz O2 Hfit ltac:(lia) ltac:(lia))
    as (db & R1 & R2 & R3).
  exists db0, db. split; [exact O1|]. split; [exact R1|].
  rewrite (Get_inv _ _ _ db k R2 (R3 Hnn O3)). rewrite fold_apply_op. reflexivity.
Qed.

(** * Further properties of the code *)

(** ** bloom.go *)

Lemma MayContain_loop_set (n : nat) : forall (i h1 h2 : Z) (bf : BloomFilter),
  MayContain_loop n i h1 h2 bf = Ok true ->
  forall j, i <= j < i + Z.of_nat n -> bit_at (bits bf) (bit_pos bf h1 h2 j) = true.
Proof.
  induction n as [|n IH]; intros i h1 h2 bf Hrun j Hj; [lia|].
  cbn [MayContain_loop] in Hrun.
  destruct (numBits bf =? 0) eqn:Hnz; [discriminate|]. apply Z.eqb_neq in Hnz.
  destruct (nth_error (bits bf) (Z.to_nat (bit_pos bf h1 h2 i / 8))) as [b|] eqn:Eb;
    [|discriminate].
  assert (Hm : 0 <= bit_pos bf h1 h2 i mod 8) by (apply Z.mod_pos_bound; lia).
  rewrite land_bit in Hrun by exact Hm.
  destruct (Z.testbit (Z_of_byte b) (bit_pos bf h1 h2 i mod 8)) eqn:Et;
    cbn [negb] in Hrun; [|discriminate].
  destruct (Z.eq_dec j i) as [->|Hne].
  - unfold bit_at. rewrite Eb. exact Et.
  - apply (IH (i + 1) h1 h2 bf Hrun). lia.
Qed.

Lemma MayContain_true_all_set (bf : BloomFilter) (key : list byte) :
  0 <= numHash bf -> MayContain bf key = Ok true -> all_bits_set bf key.
Proof.
  intros Hh Hrun j Hj. unfold MayContain in Hrun.
  destruct (hash key) as [h1 h2] eqn:Eh. cbn [fst snd].
  apply (MayContain_loop_set _ 0 h1 h2 bf Hrun). lia.
Qed.

(** X1.  Serialize writes the two counters and the bit array, 8 bytes more
    than the array, and DeserializeBloom gives the same filter back. *)
Theorem bloom_serialize_roundtrip (bf : BloomFilter) :
  0 <= numBits bf < 2 ^ 32 -> 0 <= numHash bf < 2 ^ 32 ->
  DeserializeBloom (Serialize bf) = bf /\
  len (Serialize bf) = 8 + len (bits bf).
Proof.
  intros Hb Hh. split.
  - apply DeserializeBloom_Serialize; assumption.
  - unfold Serialize. rewrite !len_app, !len_PutUint32. lia.
Qed.

Lemma bloom_serialize_roundtrip_witness :
  DeserializeBloom (Serialize (mkBloom [x21; x03] 10 7)) = mkBloom [x21; x03] 10 7 /\
  len (Serialize (mkBloom [x21; x03] 10 7)) = 8 + len (bits (mkBloom [x21; x03] 10 7)).
Proof.
  apply (bloom_serialize_roundtrip (mkBloom [x21; x03] 10 7)); cbn; lia.
Defined.

(** X2.  A filter fresh from NewBloomFilter, whatever its sizing, answers
    [false] for every key: nothing was added, nothing is reported. *)
Theorem new_filter_rejects_every_key (ceil_m ceil_k : Z) (key : list byte) :
  u32 ceil_m + 7 < 2 ^ 32 ->
  MayContain (NewBloomFilter ceil_m ceil_k) key = Ok false.
Proof.
  intros Hfit. apply NewBloomFilter_rejects. exact Hfit.
Qed.

Lemma new_filter_rejects_every_key_witness :
  MayContain (NewBloomFilter 959 7) [x6b; x65; x79] = Ok false.
Proof.
  apply (new_filter_rejects_every_key 959 7 [x6b; x65; x79]). vm_compute. reflexivity.
Defined.

(** X3.  Add never clears a bit: a key the filter answers [true] for is
    still answered [true] after any other key is added, and the filter keeps
    its bit count, hash count and array length. *)
Theorem bloom_add_keeps_members (bf : BloomFilter) (key other : list byte) :
  covers bf -> 0 <= numHash bf ->
  MayContain bf key = Ok true ->
  exists bf',
    Add bf other = Ok bf' /\
    MayContain bf' key = Ok true /\
    MayContain bf' other = Ok true /\
    numBits bf' = numBits bf /\ numHash bf' = numHash bf /\
    len (bits bf') = len (bits bf).
Proof.
  intros Hc Hh Hm.
  destruct (Add_spec bf other Hc) as (bf' & Hadd & Hext & Hset).
  pose proof (extends_covers bf bf' Hc Hext) as Hc'.
  exists bf'. split; [exact Hadd|]. split.
  - apply MayContain_all_set; [exact Hc'|].
    apply (all_bits_set_extends bf bf' key Hc Hext).
    apply MayContain_true_all_set; assumption.
  - split; [apply MayContain_all_set; assumption|].
    destruct Hext as (H1 & H2 & H3 & _).
    split; [exact H1|]. split; [exact H2|]. unfold len. rewrite H3. reflexivity.
Qed.

Lemma bloom_add_keeps_members_witness :
  exists bf',
    Add (mkBloom [xff; x03] 10 7) [x6b] = Ok bf' /\
    MayContain bf' [x61] = Ok true /\
    MayContain bf' [x6b] = Ok true /\
    numBits bf' = numBits (mkBloom [xff; x03] 10 7) /\
    numHash bf' = numHash (mkBloom [xff; x03] 10 7) /\
    len (bits bf') = len (bits (mkBloom [xff; x03] 10 7)).
Proof.
  apply (bloom_add_keeps_members (mkBloom [xff; x03] 10 7) [x61] [x6b]).
  - unfold covers. cbn. lia.
  - cbn. lia.
  - vm_compute. reflexivity.
Defined.

(** X4.  DeserializeBloom does not validate what it reads.  For stored
    bytes that declare zero bits and at least one hash position, the modulo
    by [numBits] in MayContain and in Add divides by zero and panics. *)
Theorem deserialized_zero_bits_panics (data key : list byte) :
  8 <= len data ->
  Uint32 (firstn 4 data) = 0 ->
  1 <= Uint32 (firstn 4 (skipn 4 data)) ->
  MayContain (DeserializeBloom data) key = Panic /\
  Add (DeserializeBloom data) key = Panic.
Proof.
  intros Hlen Hbits Hhash. unfold DeserializeBloom.
  destruct (Z.ltb_spec (len data) 8); [lia|].
  unfold MayContain, Add. destruct (hash key) as [h1 h2]. cbn [numHash numBits bits].
  destruct (Z.to_nat (Uint32 (firstn 4 (skipn 4 data)))) as [|n] eqn:En; [lia|].
  cbn [MayContain_loop Add_loop numBits]. rewrite Hbits. split; reflexivity.
Qed.

Lemma deserialized_zero_bits_panics_witness :
  MayContain (DeserializeBloom [x00; x00; x00; x00; x07; x00; x00; x00; xff]) [x6b] = Panic /\
  Add (DeserializeBloom [x00; x00; x00; x00; x07; x00; x00; x00; xff]) [x6b] = Panic.
Proof.
  apply (deserialized_zero_bits_panics [x00; x00; x00; x00; x07; x00; x00; x00; xff] [x6b]);
    vm_compute; try reflexivity; discriminate.
Defined.

(** ** wal.go *)

Lemma decodePayload_value (payload : list byte) (e : WALEntry) :
  decodePayload payload = Ok e -> is_nil (Value e) = false.
Proof.
  unfold decodePayload. intros H.
  destruct (len payload <? 9); [discriminate|].
  destruct (u32 (len payload) <? u32 (5 + Uint32 (firstn 4 (skipn 1 payload)) + 4));
    [discriminate|].
  destruct (subslice payload 5 (u32 (5 + Uint32 (firstn 4 (skipn 1 payload)))));
    [|discriminate].
  destruct (subslice payload _ _) as [vl|]; [|discriminate].
  destruct (u32 (len payload) <? _); [discriminate|].
  destruct (subslice payload _ _); [|discriminate].
  injection H as <-. reflexivity.
Qed.

Lemma Replay_loop_outcome (fuel : nat) : forall f,
  Replay_loop fuel f = Panic \/
  exists es, Replay_loop fuel f = Ok es /\ Forall (fun e => is_nil (Value e) = false) es.
Proof.
  induction fuel as [|fuel IH]; intros f; cbn [Replay_loop].
  - right. exists []. split; [reflexivity|constructor].
  - assert (Hnil : exists es : list WALEntry,
               Ok (@nil WALEntry) = Ok es /\ Forall (fun e => is_nil (Value e) = false) es).
    { exists []. split; [reflexivity|constructor]. }
    destruct (len f <? 8); [right; exact Hnil|].
    destruct (64 * 1024 * 1024 <? Uint32 (firstn 4 f)); [right; exact Hnil|].
    destruct (len (skipn 8 f) <? Uint32 (firstn 4 f)); [right; exact Hnil|].
    destruct (negb _); [right; exact Hnil|].
    destruct (decodePayload _) as [entry|msg|] eqn:Ed; [|right; exact Hnil|left; reflexivity].
    destruct (IH (skipn (Z.to_nat (Uint32 (firstn 4 f))) (skipn 8 f)))
      as [Hp|(es & He & Hall)].
    + left. rewrite Hp. reflexivity.
    + right. exists (entry :: es). rewrite He. split; [reflexivity|].
      constructor; [|exact Hall]. apply (decodePayload_value _ _ Ed).
Qed.

Lemma len_encodeRecord (e : WALEntry) :
  len (encodeRecord e) = 8 + len (encodePayload e).
Proof.
  unfold encodeRecord. cbv zeta. rewrite !len_app, !len_PutUint32. lia.
Qed.

Lemma torn_record_no_frame (e : WALEntry) (n : nat) :
  wal_fits e ->
  (n < List.length (encodeRecord e))%nat ->
  starts_with_frame (firstn n (encodeRecord e)) = false.
Proof.
  intros Hfit Hn. unfold starts_with_frame.
  pose proof (len_encodeRecord e) as Hrec. pose proof (len_encodePayload e) as Hpay.
  pose proof (len_nonneg (Key e)) as Hk. pose proof (len_nonneg (slice_bytes (Value e))) as Hv.
  unfold wal_fits in Hfit.
  assert (Hg : len (firstn n (encodeRecord e)) = Z.of_nat n).
  { unfold len. rewrite length_firstn. lia. }
  destruct (Z.leb_spec 8 (len (firstn n (encodeRecord e)))) as [H8|H8]; [|reflexivity].
  cbn [andb].
  assert (Hlen : Uint32 (firstn 4 (firstn n (encodeRecord e))) = len (encodePayload e)).
  { rewrite firstn_firstn. replace (Nat.min 4 n) with 4%nat by lia.
    rewrite Uint32_firstn4. unfold encodeRecord. cbv zeta.
    rewrite Uint32_PutUint32. apply u32_small. lia. }
  rewrite Hlen.
  destruct (Z.leb_spec (len (encodePayload e)) (64 * 1024 * 1024)); [|reflexivity].
  cbn [andb].
  assert (Hrest : len (skipn 8 (firstn n (encodeRecord e))) = Z.of_nat n - 8).
  { unfold len in *. rewrite length_skipn, length_firstn. lia. }
  rewrite Hrest.
  destruct (Z.leb_spec (len (encodePayload e)) (Z.of_nat n - 8)); [|reflexivity].
  unfold len in *. lia.
Qed.

(** X5.  decodePayload reads back the payload Append builds for an entry:
    the same op, key and value bytes, the value as a fresh slice that is
    never nil. *)
Theorem wal_payload_roundtrip (e : WALEntry) :
  9 + len (Key e) + len (slice_bytes (Value e)) < 2 ^ 32 ->
  decodePayload (encodePayload e)
  = Ok {| Op := Op e; Key := Key e; Value := Bytes (slice_bytes (Value e)) |}.
Proof.
  intros Hfit. apply (decodePayload_encodePayload e Hfit).
Qed.

Lemma wal_payload_roundtrip_witness :
  decodePayload (encodePayload wal_second_entry)
  = Ok {| Op := Op wal_second_entry; Key := Key wal_second_entry;
          Value := Bytes (slice_bytes (Value wal_second_entry)) |}.
Proof.
  apply (wal_payload_roundtrip wal_second_entry). vm_compute. reflexivity.
Defined.

(** X6.  Replay of a log of appended records followed by any bytes gives
    the appended entries, in order, and then whatever Replay makes of the
    bytes that follow; it fails only if the replay of those bytes does. *)
Theorem replay_of_appended_log (es : list WALEntry) (g : list byte) :
  Forall wal_fits es ->
  Replay (Some (wal_of es ++ g))
  = (r <- Replay (Some g) ;; Ok (map decoded es ++ r)).
Proof.
  intros Hfit. apply (Replay_app es g Hfit).
Qed.

Lemma replay_of_appended_log_witness :
  Replay (Some (wal_of [wal_second_entry; wal_good_entry] ++ [x09; x00; x00]))
  = (r <- Replay (Some [x09; x00; x00]) ;;
     Ok (map decoded [wal_second_entry; wal_good_entry] ++ r)).
Proof.
  apply (replay_of_appended_log [wal_second_entry; wal_good_entry] [x09; x00; x00]).
  repeat constructor; vm_compute; discriminate.
Defined.

(** X7.  A record that was cut short, by a crash in the middle of the write,
    is dropped: Replay of a log followed by any proper prefix of a record
    gives the entries of the log and nothing else. *)
Theorem replay_drops_torn_record (es : list WALEntry) (e : WALEntry) (n : nat) :
  Forall wal_fits es -> wal_fits e ->
  (n < List.length (encodeRecord e))%nat ->
  Replay (Some (wal_of es ++ firstn n (encodeRecord e))) = Ok (map decoded es).
Proof.
  intros Hes He Hn. rewrite (Replay_app es _ Hes).
  rewrite (Replay_no_frame _ (torn_record_no_frame e n He Hn)).
  cbn [bind]. rewrite app_nil_r. reflexivity.
Qed.

Lemma replay_drops_torn_record_witness :
  Replay (Some (wal_of [wal_good_entry] ++ firstn 17 (encodeRecord wal_second_entry)))
  = Ok (map decoded [wal_good_entry]).
Proof.
  apply (replay_drops_torn_record [wal_good_entry] wal_second_entry 17).
  - repeat constructor. vm_compute. discriminate.
  - vm_compute. discriminate.
  - vm_compute. lia.
Defined.

(** X8.  Replay never returns an error for what the file holds: whatever
    its bytes, it gives the entries it could read, every value a slice that
    is not nil, or it panics.  A missing file gives no entries.  (The one
    error of Replay is a file that cannot be opened; the file system of the
    model opens every file.) *)
Theorem replay_never_errors (file : option (list byte)) :
  Replay file = Panic \/
  exists es, Replay file = Ok es /\ Forall (fun e => is_nil (Value e) = false) es.
Proof.
  destruct file as [f|]; cbn [Replay].
  - apply Replay_loop_outcome.
  - right. exists []. split; [reflexivity|constructor].
Qed.

(** ** memtable.go *)

Lemma mem_Put_sorted (m : Memtable) (k : string) (v : slice) :
  sorted_mem m -> sorted_mem (mem_Put m k v).
Proof.
  intros Hs. destruct (mem_shape m k Hs) as (lo & hi & He & Hr & Hlo & Hhi).
  rewrite (mem_Put_shape m k v lo hi He Hr). unfold sorted_mem in *. cbn [entries].
  apply (upsert_sorted lo hi (mkMemEntry k v false)); [rewrite <- He; exact Hs| |]; assumption.
Qed.

Lemma mem_Delete_sorted (m : Memtable) (k : string) :
  sorted_mem m -> sorted_mem (mem_Delete m k).
Proof.
  intros Hs. destruct (mem_shape m k Hs) as (lo & hi & He & Hr & Hlo & Hhi).
  rewrite (mem_Delete_shape m k lo hi He Hr). unfold sorted_mem in *. cbn [entries].
  apply (upsert_sorted lo hi (mkMemEntry k Nil true)); [rewrite <- He; exact Hs| |]; assumption.
Qed.

Lemma upsert_size (m : Memtable) (lo hi : list memEntry) (new : memEntry) :
  entries m = lo ++ hi -> size m = mem_bytes (entries m) ->
  size m - dropped_size (key new) hi + entry_size new
  = mem_bytes (lo ++ new :: drop_key (key new) hi).
Proof.
  intros He Hsz. unfold mem_bytes in *. rewrite upsert_sum, Hsz, He.
  unfold dropped_size. destruct hi as [|h hi']; [lia|].
  destruct (String.eqb (key h) (key new)); lia.
Qed.

Lemma mem_Put_size (m : Memtable) (k : string) (v : slice) :
  sorted_mem m -> size m = mem_bytes (entries m) ->
  size (mem_Put m k v) = mem_bytes (entries (mem_Put m k v)).
Proof.
  intros Hs Hsz. destruct (mem_shape m k Hs) as (lo & hi & He & Hr & _ & _).
  rewrite (mem_Put_shape m k v lo hi He Hr). cbn [entries size].
  apply (upsert_size m lo hi (mkMemEntry k v false) He Hsz).
Qed.

Lemma mem_Delete_size (m : Memtable) (k : string) :
  sorted_mem m -> size m = mem_bytes (entries m) ->
  size (mem_Delete m k) = mem_bytes (entries (mem_Delete m k)).
Proof.
  intros Hs Hsz. destruct (mem_shape m k Hs) as (lo & hi & He & Hr & _ & _).
  rewrite (mem_Delete_shape m k lo hi He Hr). cbn [entries size].
  apply (upsert_size m lo hi (mkMemEntry k Nil true) He Hsz).
Qed.

Lemma mem_find_upsert (m : Memtable) (lo hi : list memEntry) (new : memEntry) (k' : string) :
  entries m = lo ++ hi ->
  (forall e, In e lo -> String.ltb (key e) (key new) = true) ->
  mem_find k' (lo ++ new :: drop_key (key new) hi)
  = if String.eqb (key new) k' then Some new else mem_find k' (entries m).
Proof.
  intros He Hlo. rewrite He. apply upsert_find.
  intros e Hin. apply ltb_neq. apply Hlo. exact Hin.
Qed.

Lemma mem_found_shape (m : Memtable) (k : string) (lo hi : list memEntry) :
  entries m = lo ++ hi -> search m k = List.length lo ->
  mem_found m k = match hi with
                  | [] => false
                  | h :: _ => String.eqb (key h) k
                  end.
Proof.
  intros He Hr. unfold mem_found, mem_Get. rewrite Hr, He, nth_error_at.
  destruct hi as [|h hi']; cbn [hd_error]; [reflexivity|].
  destruct (String.eqb (key h) k); [|reflexivity]. destruct (tombstone h); reflexivity.
Qed.

Lemma len_upsert (lo hi : list memEntry) (new : memEntry) :
  len (lo ++ new :: drop_key (key new) hi)
  = len (lo ++ hi) + (if match hi with
                          | [] => false
                          | h :: _ => String.eqb (key h) (key new)
                          end then 0 else 1).
Proof.
  unfold len. rewrite !length_app. cbn [List.length]. unfold drop_key.
  destruct hi as [|h hi']; cbn [List.length]; [lia|].
  destruct (String.eqb (key h) (key new)); cbn [List.length]; lia.
Qed.

(** X9.  Whatever the sequence of Put and Delete calls on a new memtable,
    its entries stay sorted by key with one entry per key, and the tracked
    size is the sum over the entries of key length, value length and one. *)
Theorem memtable_sorted_and_sized (threshold : Z) (ops : list mem_op) :
  strictly_sorted (map key (entries (fold_left mem_apply ops (NewMemtable threshold)))) = true /\
  size (fold_left mem_apply ops (NewMemtable threshold))
  = sum_by (fun e => str_len (key e) + len (slice_bytes (value e)) + 1)
      (entries (fold_left mem_apply ops (NewMemtable threshold))).
Proof.
  assert (H : forall m, sorted_mem m /\ size m = mem_bytes (entries m) ->
                   sorted_mem (fold_left mem_apply ops m) /\
                   size (fold_left mem_apply ops m)
                   = mem_bytes (entries (fold_left mem_apply ops m))).
  { induction ops as [|o ops IH]; intros m [Hs Hz]; [split; assumption|].
    cbn [fold_left]. apply IH. destruct o as [k v|k]; cbn [mem_apply].
    - split; [apply mem_Put_sorted|apply mem_Put_size]; assumption.
    - split; [apply mem_Delete_sorted|apply mem_Delete_size]; assumption. }
  apply (H (NewMemtable threshold)). split; reflexivity.
Qed.

(** X10.  On a sorted memtable, Get after Put of a key returns the value put
    and found; the lookup of every other key is as before. *)
Theorem memtable_get_after_put (m : Memtable) (k : string) (v : slice) :
  sorted_mem m ->
  mem_Get (mem_Put m k v) k = (v, true) /\
  forall k', k' <> k -> mem_Get (mem_Put m k v) k' = mem_Get m k'.
Proof.
  intros Hs. pose proof (mem_Put_sorted m k v Hs) as Hs'.
  destruct (mem_shape m k Hs) as (lo & hi & He & Hr & Hlo & _).
  assert (Hfind : forall k', mem_find k' (entries (mem_Put m k v))
                        = if String.eqb k k' then Some (mkMemEntry k v false)
                          else mem_find k' (entries m)).
  { intros k'. rewrite (mem_Put_shape m k v lo hi He Hr). cbn [entries].
    apply (mem_find_upsert m lo hi (mkMemEntry k v false) k' He Hlo). }
  split.
  - rewrite (mem_Get_spec _ k Hs'), Hfind, String.eqb_refl. reflexivity.
  - intros k' Hne. rewrite (mem_Get_spec _ k' Hs'), (mem_Get_spec m k' Hs), Hfind.
    destruct (String.eqb_spec k k'); [congruence|reflexivity].
Qed.

Lemma memtable_get_after_put_witness :
  mem_Get (mem_Put (mem_Put (NewMemtable 64) "b" (Bytes [x01])) "a" (Bytes [])) "a"
  = (Bytes [], true) /\
  forall k', k' <> "a"%string ->
    mem_Get (mem_Put (mem_Put (NewMemtable 64) "b" (Bytes [x01])) "a" (Bytes [])) k'
    = mem_Get (mem_Put (NewMemtable 64) "b" (Bytes [x01])) k'.
Proof.
  apply (memtable_get_after_put (mem_Put (NewMemtable 64) "b" (Bytes [x01])) "a" (Bytes [])).
  reflexivity.
Defined.

(** X11.  On a sorted memtable, Get after Delete of a key returns the nil
    value and found, the mark of a deleted key, whether or not the key was
    there before; the lookup of every other key is as before. *)
Theorem memtable_get_after_delete (m : Memtable) (k : string) :
  sorted_mem m ->
  mem_Get (mem_Delete m k) k = (Nil, true) /\
  forall k', k' <> k -> mem_Get (mem_Delete m k) k' = mem_Get m k'.
Proof.
  intros Hs. pose proof (mem_Delete_sorted m k Hs) as Hs'.
  destruct (mem_shape m k Hs) as (lo & hi & He & Hr & Hlo & _).
  assert (Hfind : forall k', mem_find k' (entries (mem_Delete m k))
                        = if String.eqb k k' then Some (mkMemEntry k Nil true)
                          else mem_find k' (entries m)).
  { intros k'. rewrite (mem_Delete_shape m k lo hi He Hr). cbn [entries].
    apply (mem_find_upsert m lo hi (mkMemEntry k Nil true) k' He Hlo). }
  split.
  - rewrite (mem_Get_spec _ k Hs'), Hfind, String.eqb_refl. reflexivity.
  - intros k' Hne. rewrite (mem_Get_spec _ k' Hs'), (mem_Get_spec m k' Hs), Hfind.
    destruct (String.eqb_spec k k'); [congruence|reflexivity].
Qed.

Lemma memtable_get_after_delete_witness :
  mem_Get (mem_Delete (mem_Put (NewMemtable 64) "b" (Bytes [x01])) "c") "c" = (Nil, true) /\
  forall k', k' <> "c"%string ->
    mem_Get (mem_Delete (mem_Put (NewMemtable 64) "b" (Bytes [x01])) "c") k'
    = mem_Get (mem_Put (NewMemtable 64) "b" (Bytes [x01])) k'.
Proof.
  apply (memtable_get_after_delete (mem_Put (NewMemtable 64) "b" (Bytes [x01])) "c").
  reflexivity.
Defined.

(** X12.  On a sorted memtable, Put and Delete of a key that Get finds (live
    or deleted) replace its entry and keep the number of entries; for a key
    that Get does not find they add one entry.  Delete never removes an
    entry. *)
Theorem memtable_len_after_write (m : Memtable) (k : string) (v : slice) :
  sorted_mem m ->
  mem_Len (mem_Put m k v) = mem_Len m + (if mem_found m k then 0 else 1) /\
  mem_Len (mem_Delete m k) = mem_Len m + (if mem_found m k then 0 else 1).
Proof.
  intros Hs. destruct (mem_shape m k Hs) as (lo & hi & He & Hr & _ & _).
  rewrite (mem_found_shape m k lo hi He Hr). unfold mem_Len.
  rewrite (mem_Put_shape m k v lo hi He Hr), (mem_Delete_shape m k lo hi He Hr).
  cbn [entries]. rewrite He. split.
  - apply (len_upsert lo hi (mkMemEntry k v false)).
  - apply (len_upsert lo hi (mkMemEntry k Nil true)).
Qed.

Lemma memtable_len_after_write_witness :
  mem_Len (mem_Put (mem_Delete (NewMemtable 64) "a") "a" (Bytes [x01]))
  = mem_Len (mem_Delete (NewMemtable 64) "a")
    + (if mem_found (mem_Delete (NewMemtable 64) "a") "a" then 0 else 1) /\
  mem_Len (mem_Delete (mem_Delete (NewMemtable 64) "a") "a")
  = mem_Len (mem_Delete (NewMemtable 64) "a")
    + (if mem_found (mem_Delete (NewMemtable 64) "a") "a" then 0 else 1).
Proof.
  apply (memtable_len_after_write (mem_Delete (NewMemtable 64) "a") "a" (Bytes [x01])).
  reflexivity.
Defined.

(** ** compaction.go *)

Lemma kWayMerge_loop_single (s : list SSTableEntry.t) : forall fuel,
  (List.length s < fuel)%nat -> kWayMerge_loop fuel [s] = s.
Proof.
  induction s as [|e r IH]; intros fuel Hf; (destruct fuel as [|fuel]; [cbn in Hf; lia|]).
  - reflexivity.
  - cbn [kWayMerge_loop find_min pick_winner Z.eqb orb].
    change ((1 =? 1)%positive) with true. cbn [orb]. cbv beta iota.
    change (0 =? -1) with false. cbv beta iota. rewrite String.eqb_refl. cbv beta iota.
    f_equal. apply IH. cbn in Hf. lia.
Qed.

Lemma kWayMerge_loop_from (fuel : nat) : forall rems e,
  In e (kWayMerge_loop fuel rems) -> exists r, In r rems /\ In e r.
Proof.
  induction fuel as [|fuel IH]; intros rems e Hin; [contradiction|].
  destruct (kWayMerge_round rems) as [[_ Hnil]|(m & w & _ & _ & Hw & _ & Hstep)].
  - rewrite Hnil in Hin. contradiction.
  - rewrite Hstep in Hin. destruct Hin as [<-|Hin].
    + apply (first_at_In m rems w Hw).
    + destruct (IH _ e Hin) as (r & Hr & He). apply in_map_iff in Hr.
      destruct Hr as (r0 & <- & Hr0). exists r0. split; [exact Hr0|].
      apply (advance_incl m r0 e He).
Qed.

Lemma newest_None (sets : list (list SSTableEntry.t)) (k : string) :
  newest sets k = None ->
  forall s e, In s sets -> In e s -> SSTableEntry.Key e <> k.
Proof.
  induction sets as [|s0 sets IH]; intros Hn s e Hs He; [contradiction|].
  cbn [newest] in Hn. destruct (find_key k s0) as [e0|] eqn:Ef; [discriminate|].
  destruct Hs as [<-|Hs].
  - unfold find_key in Ef. pose proof (find_none _ _ Ef e He) as Hne.
    intros Hk. cbv beta in Hne. rewrite Hk, String.eqb_refl in Hne. discriminate.
  - apply (IH Hn s e Hs He).
Qed.

(** X13.  Merging one set gives the set back, entry for entry, whether or
    not it is sorted. *)
Theorem kWayMerge_single (s : list SSTableEntry.t) : kWayMerge [s] = s.
Proof.
  unfold kWayMerge. apply kWayMerge_loop_single.
  cbn [List.concat]. rewrite app_nil_r. lia.
Qed.

(** X14.  The merge invents no entry and loses no key: every entry of the
    result is an entry of one of the inputs, and for sorted inputs a key
    has an entry in the result exactly when it has one in some input. *)
Theorem kWayMerge_keys (sets : list (list SSTableEntry.t)) :
  Forall sorted_entries sets ->
  (forall e, In e (kWayMerge sets) -> exists s, In s sets /\ In e s) /\
  (forall k,
     (exists e, In e (kWayMerge sets) /\ SSTableEntry.Key e = k) <->
     (exists s e, In s sets /\ In e s /\ SSTableEntry.Key e = k)).
Proof.
  intros Hs.
  assert (Hfrom : forall e, In e (kWayMerge sets) -> exists s, In s sets /\ In e s).
  { intros e. apply kWayMerge_loop_from. }
  split; [exact Hfrom|]. intros k. split.
  - intros (e & Hin & Hk). destruct (Hfrom e Hin) as (s & Hs1 & He).
    exists s, e. auto.
  - intros (s & e & Hs1 & He & Hk).
    destruct (find_key k (kWayMerge sets)) as [e'|] eqn:Ef.
    + unfold find_key in Ef. apply find_some in Ef. destruct Ef as [Hin Heq].
      exists e'. split; [exact Hin|]. apply String.eqb_eq. exact Heq.
    + rewrite (kWayMerge_newest sets k Hs) in Ef.
      exfalso. apply (newest_None sets k Ef s e Hs1 He Hk).
Qed.

Lemma kWayMerge_keys_witness :
  (forall e, In e (kWayMerge [sample_newer; sample_older]) ->
     exists s, In s [sample_newer; sample_older] /\ In e s) /\
  (forall k,
     (exists e, In e (kWayMerge [sample_newer; sample_older]) /\ SSTableEntry.Key e = k) <->
     (exists s e, In s [sample_newer; sample_older] /\ In e s /\ SSTableEntry.Key e = k)).
Proof.
  apply (kWayMerge_keys [sample_newer; sample_older]). fits.
Defined.

(** X15.  The merge has at most as many entries as its inputs together, and
    dropping the tombstones can only make it shorter: compaction never
    writes more entries than it read. *)
Theorem compaction_never_grows (sets : list (list SSTableEntry.t)) :
  len (kWayMerge sets) <= len (List.concat sets) /\
  len (Compact_live sets) <= len (kWayMerge sets).
Proof.
  split.
  - rewrite !len_sum_by. unfold kWayMerge. apply kWayMerge_loop_sum. intros; lia.
  - rewrite !len_sum_by. unfold Compact_live. apply sum_by_filter. intros; lia.
Qed.

(** ** sstable.go and sstable_reader.go *)

Lemma decode_index_length (n : nat) (indexData : list byte) : forall pos idx,
  decode_index n indexData pos = Ok idx -> List.length idx = n.
Proof.
  induction n as [|n IH]; intros pos idx H; cbn [decode_index] in H.
  - injection H as <-. reflexivity.
  - destruct (subslice indexData pos (pos + 4)) as [b4|]; [|discriminate].
    destruct (subslice indexData (pos + 4) (pos + 4 + Uint32 b4)) as [kb|]; [|discriminate].
    destruct (subslice indexData (pos + 4 + Uint32 b4) (pos + 4 + Uint32 b4 + 8)) as [b8|];
      [|discriminate].
    destruct (decode_index n indexData (pos + 4 + Uint32 b4 + 8)) as [rest| |] eqn:Er;
      cbn [bind] in H; try discriminate.
    injection H as <-. cbn [List.length]. f_equal. apply (IH _ _ Er).
Qed.

Lemma Uint32_skipn_firstn (l : list byte) (a b : nat) :
  (a + 4 <= b)%nat -> Uint32 (skipn a (firstn b l)) = Uint32 (skipn a l).
Proof.
  intros Hab. rewrite <- (Uint32_firstn4 (skipn a (firstn b l))).
  rewrite <- (Uint32_firstn4 (skipn a l)). f_equal.
  rewrite skipn_firstn_comm, firstn_firstn. f_equal. lia.
Qed.

(** X16.  Point lookups on a written table.  For sorted entries within the
    format, the reader opened on the file WriteSSTable produces answers Get
    for a key of the table with the value bytes and the tombstone flag of
    its entry, and for every other key with not found, a false positive of
    the filter included. *)
Theorem sstable_get_written (sizing : Z -> Z * Z) (entries : list SSTableEntry.t) :
  sorted_entries entries ->
  table_fits sizing entries ->
  exists f r,
    WriteSSTable sizing entries = Ok f /\
    OpenSSTable f = Ok r /\
    forall k,
      sst_Get r k
      = Ok (match find_key k entries with
            | Some e => Some (Bytes (slice_bytes (SSTableEntry.Value e)), SSTableEntry.Tombstone e)
            | None => None
            end).
Proof.
  intros Hs Hfits.
  destruct (Write_Open sizing entries Hfits) as (bf & Hc & Hall & Hw & Ho).
  exists (sst_file entries bf). eexists. split; [exact Hw|]. split; [exact Ho|].
  intros k.
  change {| file := sst_file entries bf; index := index_of entries 0; bloom := bf |}
    with (table_reader entries bf).
  rewrite (sst_Get_table entries bf k Hs (proj1 Hfits) Hc Hall).
  destruct (find_key k entries); reflexivity.
Qed.

Lemma sstable_get_written_witness :
  exists f r,
    WriteSSTable sample_sizing sample_newer = Ok f /\
    OpenSSTable f = Ok r /\
    forall k,
      sst_Get r k
      = Ok (match find_key k sample_newer with
            | Some e => Some (Bytes (slice_bytes (SSTableEntry.Value e)), SSTableEntry.Tombstone e)
            | None => None
            end).
Proof.
  apply (sstable_get_written sample_sizing sample_newer); fits.
Defined.

(** X17.  WriteSSTable does not check the order of what it is given.  For
    any list of entries within the format, sorted or not, the reader opened
    on the file has one index entry per entry written, with the keys in the
    order written, and ReadAll returns every entry in that order, each value
    as a fresh slice that is not nil. *)
Theorem sstable_written_in_any_order (sizing : Z -> Z * Z) (entries : list SSTableEntry.t) :
  table_fits sizing entries ->
  exists f r,
    WriteSSTable sizing entries = Ok f /\
    OpenSSTable f = Ok r /\
    map indexEntry.Key (index r) = map SSTableEntry.Key entries /\
    ReadAll r
    = Ok (map (fun e => SSTableEntry.mk (SSTableEntry.Key e)
                          (Bytes (slice_bytes (SSTableEntry.Value e)))
                          (SSTableEntry.Tombstone e)) entries).
Proof.
  intros Hfits.
  destruct (Write_Open sizing entries Hfits) as (bf & _ & _ & Hw & Ho).
  exists (sst_file entries bf). eexists. split; [exact Hw|]. split; [exact Ho|].
  split.
  - cbn [index]. apply keys_index_of.
  - apply (ReadAll_written entries bf (proj1 Hfits)).
Qed.

Lemma sstable_written_in_any_order_witness :
  exists f r,
    WriteSSTable sample_sizing (sample_newer ++ sample_older) = Ok f /\
    OpenSSTable f = Ok r /\
    map indexEntry.Key (index r) = map SSTableEntry.Key (sample_newer ++ sample_older) /\
    ReadAll r
    = Ok (map (fun e => SSTableEntry.mk (SSTableEntry.Key e)
                          (Bytes (slice_bytes (SSTableEntry.Value e)))
                          (SSTableEntry.Tombstone e)) (sample_newer ++ sample_older)).
Proof.
  apply (sstable_written_in_any_order sample_sizing (sample_newer ++ sample_older)); fits.
Defined.

Lemma OpenSSTable_Ok_spec (f : list byte) (r : SSTableReader) :
  OpenSSTable f = Ok r ->
  footerSize <= len f /\
  Uint32 (skipn (Z.to_nat (len f - 4)) f) = sstMagic /\
  file r = f /\
  len (index r) = Uint32 (skipn (Z.to_nat (len f - 20)) f).
Proof.
  unfold OpenSSTable. intros H.
  destruct (Z.ltb_spec (len f) footerSize) as [|Hlen]; [discriminate|].
  change footerSize with 28 in *.
  unfold ReadAt at 1 in H.
  destruct (Z.ltb_spec (len f - 28) 0); [lia|]. change (28 =? 0) with false in H.
  cbv iota in H.
  destruct (Z.leb_spec (len f - 28 + 28) (len f)); [|lia].
  set (footer := firstn (Z.to_nat 28) (skipn (Z.to_nat (len f - 28)) f)) in H.
  destruct (negb (Uint32 (skipn 24 footer) =? sstMagic)) eqn:Em; [discriminate|].
  apply negb_false_iff, Z.eqb_eq in Em.
  destruct (ReadAt f (Uint32 (skipn 20 footer)) (int64 (Uint64 (skipn 12 footer))));
    [|discriminate].
  destruct (int64 (Uint64 (skipn 12 footer)) - int64 (Uint64 footer) <? 0); [discriminate|].
  destruct (ReadAt f _ (int64 (Uint64 footer))) as [indexData|]; [|discriminate].
  destruct (decode_index (Z.to_nat (Uint32 (skipn 8 footer))) indexData 0) as [idx| |] eqn:Ed;
    cbn [bind] in H; try discriminate.
  injection H as <-. cbn [file index].
  assert (Hsk : forall a : nat, (a + 4 <= 28)%nat ->
                  Uint32 (skipn a footer)
                  = Uint32 (skipn (Z.to_nat (len f - 28 + Z.of_nat a)) f)).
  { intros a Ha. unfold footer. rewrite Uint32_skipn_firstn by lia.
    rewrite skipn_skipn. f_equal. f_equal. lia. }
  split; [lia|]. split.
  - rewrite <- Em. rewrite (Hsk 24%nat) by lia. f_equal. f_equal. lia.
  - split; [reflexivity|].
    unfold len at 1. rewrite (decode_index_length _ _ _ _ Ed).
    rewrite (Hsk 8%nat) by lia.
    assert (Hr : 0 <= Uint32 (skipn (Z.to_nat (len f - 28 + Z.of_nat 8)) f)).
    { destruct (skipn (Z.to_nat (len f - 28 + Z.of_nat 8)) f) as [|a [|b [|c [|d tl]]]];
        cbn [Uint32]; try lia.
      pose proof (Z_of_byte_range a). pose proof (Z_of_byte_range b).
      pose proof (Z_of_byte_range c). pose proof (Z_of_byte_range d). lia. }
    rewrite Z2Nat.id by exact Hr. f_equal. f_equal. lia.
Qed.

(** X18.  OpenSSTable accepts only a file of at least 28 bytes whose last
    four bytes are the magic number.  The reader it returns reads from that
    file and holds as many index entries as the footer declares. *)
Theorem OpenSSTable_accepts (f : list byte) (r : SSTableReader) :
  OpenSSTable f = Ok r ->
  footerSize <= len f /\
  Uint32 (skipn (Z.to_nat (len f - 4)) f) = sstMagic /\
  file r = f /\
  len (index r) = Uint32 (skipn (Z.to_nat (len f - 20)) f).
Proof.
  intros H. apply (OpenSSTable_Ok_spec f r H).
Qed.

Lemma OpenSSTable_accepts_witness :
  footerSize <= len (sst_file sample_newer (NewBloomFilter 30 7)) /\
  Uint32 (skipn (Z.to_nat (len (sst_file sample_newer (NewBloomFilter 30 7)) - 4))
            (sst_file sample_newer (NewBloomFilter 30 7))) = sstMagic /\
  file (table_reader sample_newer (NewBloomFilter 30 7))
  = sst_file sample_newer (NewBloomFilter 30 7) /\
  len (index (table_reader sample_newer (NewBloomFilter 30 7)))
  = Uint32 (skipn (Z.to_nat (len (sst_file sample_newer (NewBloomFilter 30 7)) - 20))
              (sst_file sample_newer (NewBloomFilter 30 7))).
Proof.
  apply (OpenSSTable_accepts (sst_file sample_newer (NewBloomFilter 30 7))
           (table_reader sample_newer (NewBloomFilter 30 7))).
  vm_compute. reflexivity.
Defined.

(** ** db.go and db_internal.go *)



Lemma length_insert_by_seq (f : sstFile) (l : list sstFile) :
  List.length (insert_by_seq f l) = S (List.length l).
Proof.
  induction l as [|h l IH]; [reflexivity|]. cbn [insert_by_seq].
  destruct (seq h <? seq f); cbn [List.length]; [reflexivity|]. rewrite IH. reflexivity.
Qed.

Lemma length_sort_newest_first (l : list sstFile) :
  List.length (sort_newest_first l) = List.length l.
Proof.
  induction l as [|f l IH]; [reflexivity|].
  cbn [sort_newest_first fold_right]. rewrite length_insert_by_seq.
  fold (sort_newest_first l). rewrite IH. reflexivity.
Qed.

Lemma length_open_each (files : list sstFile) : forall readers,
  open_each files = Ok readers -> List.length readers = List.length files.
Proof.
  induction files as [|f files IH]; intros readers H; cbn [open_each] in H.
  - injection H as <-. reflexivity.
  - destruct (OpenSSTable (contents f)) as [r| |]; cbn [bind] in H; try discriminate.
    destruct (open_each files) as [rs| |]; cbn [bind] in H; try discriminate.
    injection H as <-. cbn [List.length]. f_equal. apply IH. reflexivity.
Qed.

Lemma loadSSTables_spec (db db' : DB) :
  loadSSTables db = Ok db' ->
  dir db' = dir db /\ mem db' = mem db /\
  nextSeq db <= nextSeq db' /\
  (forall f, In f (ssts (dir db)) -> seq f < nextSeq db') /\
  len (sstables db') = len (sstables db) + len (ssts (dir db)).
Proof.
  unfold loadSSTables. intros H.
  destruct (open_each (sort_newest_first (ssts (dir db)))) as [readers| |] eqn:Eo;
    cbn [bind] in H; try discriminate.
  injection H as <-. cbn [dir mem nextSeq sstables].
  pose proof (bump_seq_spec (ssts (dir db)) (nextSeq db)) as [Hle Hlt].
  split; [reflexivity|]. split; [reflexivity|]. split; [exact Hle|]. split; [exact Hlt|].
  unfold len. rewrite length_app, (length_open_each _ _ Eo), length_sort_newest_first. lia.
Qed.

Lemma Open_spec (d : Dir) (db : DB) :
  Open d = Ok db ->
  exists replayed,
    Replay (wal d) = Ok replayed /\
    dir db = {| wal := Some (match wal d with Some w => w | None => [] end); ssts := ssts d |} /\
    mem db = fold_left apply_entry replayed (NewMemtable DefaultMemtableSize) /\
    1 <= nextSeq db /\
    (forall f, In f (ssts d) -> seq f < nextSeq db) /\
    len (sstables db) = len (ssts d).
Proof.
  unfold Open. intros H.
  destruct (loadSSTables _) as [db1| |] eqn:El; cbn [bind] in H; try discriminate.
  destruct (Replay (wal d)) as [replayed| |] eqn:Er; cbn [bind] in H; try discriminate.
  injection H as <-. cbn [dir mem nextSeq sstables].
  destruct (loadSSTables_spec _ _ El) as (Hd & Hm & Hn & Hs & Hl).
  cbn [dir mem nextSeq sstables] in *.
  exists replayed. split; [reflexivity|]. split; [reflexivity|].
  split; [rewrite Hm; reflexivity|]. split; [exact Hn|]. split; [exact Hs|].
  rewrite Hl. change (len (@nil SSTableReader)) with 0. lia.
Qed.

(** X19.  Open changes nothing in the directory but to create the log file
    when it is missing: opening the directory that Open leaves behind gives
    the same engine state again. *)
Theorem open_twice (d : Dir) (db : DB) :
  Open d = Ok db -> ssts (dir db) = ssts d /\ Open (dir db) = Ok db.
Proof.
  intros H. pose proof H as H0. unfold Open in H.
  destruct (loadSSTables _) as [db1| |] eqn:El; cbn [bind] in H; try discriminate.
  destruct (Replay (wal d)) as [replayed| |] eqn:Er; cbn [bind] in H; try discriminate.
  injection H as <-. cbn [dir ssts]. split; [reflexivity|].
  unfold Open. cbn [ssts wal].
  unfold loadSSTables in *. cbn [dir mem sstables nextSeq ssts] in *.
  destruct (open_each (sort_newest_first (ssts d))) as [readers| |];
    cbn [bind] in *; try discriminate.
  injection El as <-. cbn [mem sstables nextSeq].
  assert (Er' : Replay (Some (match wal d with Some w => w | None => [] end)) = Ok replayed).
  { destruct (wal d); [exact Er|]. cbn in Er. injection Er as <-. reflexivity. }
  rewrite Er'. cbn [bind]. reflexivity.
Qed.

Lemma open_twice_witness :
  ssts (dir sample_db) = ssts sample_dir /\ Open (dir sample_db) = Ok sample_db.
Proof.
  apply (open_twice sample_dir sample_db). vm_compute. reflexivity.
Defined.





(** *** The number of tables *)

Lemma maybeCompact_mem_wal (sizing : Z -> Z * Z) (db db' : DB) :
  maybeCompact sizing db = Ok db' -> mem db' = mem db /\ wal (dir db') = wal (dir db).
Proof.
  unfold maybeCompact. intros H.
  destruct (len (level0SSTables (dir db)) <? CompactionThreshold).
  - injection H as <-. split; reflexivity.
  - destruct (open_each (allSSTables (dir db))) as [readers| |]; cbn [bind] in H;
      try discriminate.
    destruct (Compact sizing readers) as [out| |]; cbn [bind] in H; try discriminate.
    destruct (loadSSTables_spec _ _ H) as (Hd & Hm & _). rewrite Hd, Hm. split; reflexivity.
Qed.

Lemma flush_mem_wal (sizing : Z -> Z * Z) (db db' : DB) :
  flush sizing db = Ok db' ->
  mem db' = NewMemtable DefaultMemtableSize /\ wal (dir db') = Some [].
Proof.
  unfold flush. intros H.
  destruct (WriteSSTable sizing _) as [f| |]; cbn [bind] in H; try discriminate.
  destruct (OpenSSTable f) as [reader| |]; cbn [bind] in H; try discriminate.
  apply maybeCompact_mem_wal in H. exact H.
Qed.








(** *** The memtable and the log *)

Lemma threshold_mem_Put (m : Memtable) (k : string) (v : slice) :
  threshold (mem_Put m k v) = threshold m.
Proof.
  unfold mem_Put. destruct (nth_error (entries m) (search m k)) as [old|]; [|reflexivity].
  destruct (String.eqb (key old) k); reflexivity.
Qed.

Lemma threshold_mem_Delete (m : Memtable) (k : string) :
  threshold (mem_Delete m k) = threshold m.
Proof.
  unfold mem_Delete. destruct (nth_error (entries m) (search m k)) as [old|]; [|reflexivity].
  destruct (String.eqb (key old) k); reflexivity.
Qed.

Lemma threshold_replayed (es : list WALEntry) : forall m,
  threshold (fold_left apply_entry es m) = threshold m.
Proof.
  induction es as [|e es IH]; intros m; [reflexivity|].
  cbn [fold_left]. rewrite IH. unfold apply_entry.
  destruct (Byte.eqb (Op e) OpPut); [apply threshold_mem_Put|].
  destruct (Byte.eqb (Op e) OpDelete); [apply threshold_mem_Delete|reflexivity].
Qed.

Lemma set_nth_not_nil {A : Type} (l : list A) (i : nat) (x e : A) :
  nth_error l i = Some x -> set_nth l i e <> [].
Proof.
  destruct l as [|a l]; [destruct i; discriminate|].
  destruct i; cbn [set_nth]; discriminate.
Qed.

Lemma insert_at_not_nil {A : Type} (l : list A) (i : nat) (e : A) : insert_at l i e <> [].
Proof. unfold insert_at. destruct (firstn i l); discriminate. Qed.

Lemma mem_Put_not_empty (m : Memtable) (k : string) (v : slice) :
  entries (mem_Put m k v) <> [].
Proof.
  unfold mem_Put. destruct (nth_error (entries m) (search m k)) as [old|] eqn:E.
  - destruct (String.eqb (key old) k); cbn [entries].
    + apply (set_nth_not_nil _ _ old _ E).
    + apply insert_at_not_nil.
  - apply insert_at_not_nil.
Qed.

Lemma mem_Delete_not_empty (m : Memtable) (k : string) :
  entries (mem_Delete m k) <> [].
Proof.
  unfold mem_Delete. destruct (nth_error (entries m) (search m k)) as [old|] eqn:E.
  - destruct (String.eqb (key old) k); cbn [entries].
    + apply (set_nth_not_nil _ _ old _ E).
    + apply insert_at_not_nil.
  - apply insert_at_not_nil.
Qed.

(** What a step leaves behind, whatever it started from: a memtable below
    its threshold, and an empty log whenever the memtable is empty. *)
Lemma step_leaves (sizing : Z -> Z * Z) (db db' : DB) (o : operation) :
  threshold (mem db) = DefaultMemtableSize ->
  step sizing db o = Ok db' ->
  threshold (mem db') = DefaultMemtableSize /\
  size (mem db') < DefaultMemtableSize /\
  (entries (mem db') = [] -> wal (dir db') = Some []).
Proof.
  intros Ht H.
  assert (Hflush : forall db1, flush sizing db1 = Ok db' ->
            threshold (mem db') = DefaultMemtableSize /\
            size (mem db') < DefaultMemtableSize /\
            (entries (mem db') = [] -> wal (dir db') = Some [])).
  { intros db1 Hf. destruct (flush_mem_wal sizing db1 db' Hf) as [Hm Hw].
    rewrite Hm, Hw. cbn. repeat split; reflexivity. }
  destruct o as [k v|k]; cbn [step] in H; unfold Put, Delete in H; cbv zeta in H;
    cbn [mem] in H;
    match type of H with
    | (if ?c then _ else _) = _ => destruct c eqn:Efull
    end;
    try exact (Hflush _ H);
    injection H as <-; cbn [mem dir]; unfold IsFull in Efull; apply Z.leb_gt in Efull.
  - rewrite threshold_mem_Put in *. split; [exact Ht|]. split; [lia|].
    intros He. destruct (mem_Put_not_empty _ _ _ He).
  - rewrite threshold_mem_Delete in *. split; [exact Ht|]. split; [lia|].
    intros He. destruct (mem_Delete_not_empty _ _ He).
Qed.

Lemma run_leaves (sizing : Z -> Z * Z) (ops : list operation) : forall db db',
  threshold (mem db) = DefaultMemtableSize ->
  (ops = [] -> size (mem db) < DefaultMemtableSize) ->
  (entries (mem db) = [] -> wal (dir db) = Some []) ->
  run sizing db ops = Ok db' ->
  threshold (mem db') = DefaultMemtableSize /\
  size (mem db') < DefaultMemtableSize /\
  (entries (mem db') = [] -> wal (dir db') = Some []).
Proof.
  induction ops as [|o ops IH]; intros db db' Ht Hs Hw H; cbn [run] in H.
  - injection H as <-. auto.
  - destruct (step sizing db o) as [db1| |] eqn:Es; cbn [bind] in H; try discriminate.
    destruct (step_leaves sizing db db1 o Ht Es) as (Ht1 & Hs1 & Hw1).
    apply (IH db1 db' Ht1 (fun _ => Hs1) Hw1 H).
Qed.

Lemma Open_threshold (d : Dir) (db : DB) :
  Open d = Ok db -> threshold (mem db) = DefaultMemtableSize.
Proof.
  intros H. destruct (Open_spec d db H) as (replayed & _ & _ & Hm & _).
  rewrite Hm. apply threshold_replayed.
Qed.

(** X22.  After every acknowledged write the memtable is below its
    threshold of 4 MiB: Put and Delete flush a full memtable before they
    return.  This holds on any directory, also when the log that Open
    replayed was larger than the threshold. *)
Theorem memtable_below_threshold (sizing : Z -> Z * Z) (d : Dir) (o : operation)
    (ops : list operation) (db db' : DB) :
  Open d = Ok db ->
  run sizing db (o :: ops) = Ok db' ->
  MemtableSize (Stats db') < DefaultMemtableSize.
Proof.
  intros Ho Hr.
  cbn [run] in Hr.
  destruct (step sizing db o) as [db1| |] eqn:Es; cbn [bind] in Hr; try discriminate.
  destruct (step_leaves sizing db db1 o (Open_threshold d db Ho) Es) as (Ht1 & Hs1 & Hw1).
  destruct (run_leaves sizing ops db1 db' Ht1 (fun _ => Hs1) Hw1 Hr) as (_ & Hs & _).
  exact Hs.
Qed.

Lemma memtable_below_threshold_witness :
  MemtableSize (Stats sample_db_after) < DefaultMemtableSize.
Proof.
  apply (memtable_below_threshold sample_sizing sample_dir (DoPut "b" Nil) [DoDelete "d"]
           sample_db sample_db_after); vm_compute; reflexivity.
Defined.

(** X23.  A clean shutdown loses nothing and leaves nothing in the log.
    After any workload on a new directory, Close flushes what the memtable
    holds and leaves an empty log; the engine opened on that directory
    starts with an empty memtable and answers Get for every key with the
    value of the most recent put, the put of a nil value included, or with
    ErrKeyNotFound. *)
Theorem close_then_reopen (sizing : Z -> Z * Z) (ops : list operation) :
  sizing_ok sizing (len ops) ->
  workload_fits ops ->
  exists db0 db d db',
    Open empty_dir = Ok db0 /\
    run sizing db0 ops = Ok db /\
    Close sizing db = Ok d /\
    wal d = Some [] /\
    Open d = Ok db' /\
    entries (mem db') = [] /\
    forall k, Get db' k = Ok (expected ops k).
Proof.
  intros Hsz (Hfit & Hcnt & Hwgt).
  destruct Open_empty as (db0 & O1 & O2 & O3).
  destruct (run_inv sizing ops 0 0 (fun _ => None) db0 Hsz O2 Hfit ltac:(lia) ltac:(lia))
    as (db & R1 & R2 & _).
  rewrite !Z.add_0_l in R2.
  assert (Hlog : entries (mem db) = [] -> wal (dir db) = Some []).
  { refine (proj2 (proj2 (run_leaves sizing ops db0 db (Open_threshold _ _ O1) _ _ R1))).
    - intros _. injection O1 as <-. reflexivity.
    - intros _. injection O1 as <-. reflexivity. }
  assert (Hclose : exists dbc,
             Close sizing db = Ok (dir dbc) /\ wal (dir dbc) = Some [] /\
             Inv (len ops) (sum_by op_weight ops) (fold_left apply_op ops (fun _ => None)) dbc).
  { unfold Close. destruct (Z.ltb_spec 0 (mem_Len (mem db))) as [Hpos|Hzero].
    - destruct R2 as (tables & wes & HS & HL).
      destruct (flush_inv sizing (len ops) (sum_by op_weight ops) _ db tables Hsz Hcnt Hwgt HS)
        as (dbf & tables' & Hrun & HS' & Hmem & Hwal).
      exists dbf. rewrite Hrun. cbn [bind]. split; [reflexivity|]. split; [exact Hwal|].
      apply (Inv_after_flush _ _ _ dbf tables' HS' Hmem Hwal).
    - exists db. split; [reflexivity|]. split; [|exact R2]. apply Hlog.
      unfold mem_Len, len in Hzero. destruct (entries (mem db)); [reflexivity|].
      cbn [List.length] in Hzero. lia. }
  destruct Hclose as (dbc & Hc & Hw & Hinv).
  destruct (Open_inv _ _ _ dbc Hinv) as (db' & P1 & P2 & P3).
  exists db0, db, (dir dbc), db'.
  split; [exact O1|]. split; [exact R1|]. split; [exact Hc|]. split; [exact Hw|].
  split; [exact P1|]. split.
  - destruct (Open_spec _ _ P1) as (replayed & Hr & _ & Hm & _).
    rewrite Hw in Hr. cbn in Hr. injection Hr as <-. rewrite Hm. reflexivity.
  - intros k. rewrite (Get_inv _ _ _ db' k P2 P3). rewrite fold_apply_op. reflexivity.
Qed.

Lemma close_then_reopen_witness :
  exists db0 db d db',
    Open empty_dir = Ok db0 /\
    run sample_sizing db0 (List.concat sample_sessions) = Ok db /\
    Close sample_sizing db = Ok d /\
    wal d = Some [] /\
    Open d = Ok db' /\
    entries (mem db') = [] /\
    forall k, Get db' k = Ok (expected (List.concat sample_sessions) k).
Proof.
  apply (close_then_reopen sample_sizing (List.concat sample_sessions)).
  - change (len (List.concat sample_sessions)) with 4. intros n Hn.
    unfold sizing_fits, sample_sizing. cbn [fst].
    destruct (n <? 1); rewrite u32_small; lia.
  - unfold workload_fits. split; [|split; vm_compute; reflexivity].
    repeat constructor.
Defined.

(** X24.  Without a crash, and when no put has the nil slice for its value,
    Get after each operation of a workload on a new directory answers with
    the value of the most recent put on the key so far, or with
    ErrKeyNotFound when the most recent operation on the key so far is a
    delete or there is none, the flushes and compactions on the way
    included. *)
Theorem get_after_each_operation (sizing : Z -> Z * Z) (ops : list operation) :
  sizing_ok sizing (len ops) ->
  workload_fits ops ->
  non_nil_puts ops ->
  forall (n : nat) (k : string),
    exists db0 db,
      Open empty_dir = Ok db0 /\
      run sizing db0 (firstn n ops) = Ok db /\
      Get db k = Ok (expected (firstn n ops) k).
Proof.
  intros Hsz (Hfit & Hcnt & Hwgt) Hnn n k.
  assert (Hlen : len (firstn n ops) <= len ops).
  { unfold len. rewrite length_firstn. lia. }
  assert (Hsum : sum_by op_weight (firstn n ops) <= sum_by op_weight ops).
  { rewrite <- (firstn_skipn n ops) at 2. rewrite sum_by_app.
    pose proof (op_weight_nonneg (skipn n ops)). lia. }
  apply (get_most_recent_non_nil sizing (firstn n ops) k).
  - intros m Hm. apply Hsz. lia.
  - split; [|split; lia].
    rewrite <- (firstn_skipn n ops) in Hfit. apply Forall_app in Hfit. apply Hfit.
  - intros k' v Hin. apply (Hnn k' v). rewrite <- (firstn_skipn n ops).
    apply in_or_app. left. exact Hin.
Qed.

Lemma get_after_each_operation_witness :
  exists db0 db,
    Open empty_dir = Ok db0 /\
    run sample_sizing db0 (firstn 2 [DoPut "a" (Bytes [x01]); DoDelete "a"; DoPut "b" (Bytes [])])
    = Ok db /\
    Get db "a" = Ok (expected (firstn 2 [DoPut "a" (Bytes [x01]); DoDelete "a";
                                         DoPut "b" (Bytes [])]) "a").
Proof.
  refine (get_after_each_operation sample_sizing
            [DoPut "a" (Bytes [x01]); DoDelete "a"; DoPut "b" (Bytes [])] _ _ _
            2%nat "a"%string).
  - change (len [DoPut "a" (Bytes [x01]); DoDelete "a"; DoPut "b" (Bytes [])]) with 3.
    intros n Hn. unfold sizing_fits, sample_sizing. cbn [fst].
    destruct (n <? 1); rewrite u32_small; lia.
  - unfold workload_fits. split; [|split; vm_compute; reflexivity].
    repeat constructor.
  - intros k v [H|[H|[H|[]]]]; inversion H; reflexivity.
Defined.

(** *** A record cut short in the log *)

Lemma torn_then_bytes_no_frame (e : WALEntry) (n : nat) (g : list byte) :
  wal_fits e ->
  (8 <= n < List.length (encodeRecord e))%nat ->
  Z.of_nat n - 8 + len g < len (encodePayload e) ->
  starts_with_frame (firstn n (encodeRecord e) ++ g) = false.
Proof.
  intros Hfit Hn Hg. unfold starts_with_frame.
  pose proof (len_encodeRecord e) as Hrec. pose proof (len_encodePayload e) as Hpay.
  pose proof (len_nonneg (Key e)) as Hk. pose proof (len_nonneg (slice_bytes (Value e))) as Hv.
  pose proof (len_nonneg g) as Hg0.
  unfold wal_fits in Hfit.
  assert (Hl : len (firstn n (encodeRecord e) ++ g) = Z.of_nat n + len g).
  { rewrite len_app. unfold len. rewrite length_firstn. lia. }
  destruct (Z.leb_spec 8 (len (firstn n (encodeRecord e) ++ g))) as [H8|H8]; [|lia].
  cbn [andb].
  assert (Hlen : Uint32 (firstn 4 (firstn n (encodeRecord e) ++ g)) = len (encodePayload e)).
  { rewrite firstn_app, length_firstn.
    replace (4 - Nat.min n (List.length (encodeRecord e)))%nat with 0%nat by lia.
    rewrite firstn_O, app_nil_r, firstn_firstn. replace (Nat.min 4 n) with 4%nat by lia.
    rewrite Uint32_firstn4. unfold encodeRecord. cbv zeta.
    rewrite Uint32_PutUint32. apply u32_small. lia. }
  rewrite Hlen.
  destruct (Z.leb_spec (len (encodePayload e)) (64 * 1024 * 1024)); [|reflexivity].
  cbn [andb].
  assert (Hrest : len (skipn 8 (firstn n (encodeRecord e) ++ g)) = Z.of_nat n + len g - 8).
  { unfold len in *. rewrite length_skipn, length_app, length_firstn. lia. }
  rewrite Hrest.
  destruct (Z.leb_spec (len (encodePayload e)) (Z.of_nat n + len g - 8)); [|reflexivity].
  lia.
Qed.

Lemma Open_agree (d1 d2 : Dir) (a : DB) :
  ssts d2 = ssts d1 -> Replay (wal d2) = Replay (wal d1) ->
  Open d1 = Ok a ->
  Open d2
  = Ok {| dir := {| wal := Some (match wal d2 with Some w => w | None => [] end);
                    ssts := ssts d2 |};
          mem := mem a; sstables := sstables a; nextSeq := nextSeq a |}.
Proof.
  intros Hs Hr H. unfold Open, loadSSTables in *. cbn [dir mem sstables nextSeq] in *.
  rewrite Hs, Hr.
  destruct (open_each (sort_newest_first (ssts d1))) as [readers| |];
    cbn [bind] in *; try discriminate.
  cbn [mem sstables nextSeq] in *.
  destruct (Replay (wal d1)) as [replayed| |]; cbn [bind] in *; try discriminate.
  injection H as <-. cbn [mem sstables nextSeq]. reflexivity.
Qed.

Lemma Get_agree (a b : DB) (k : string) :
  mem a = mem b -> sstables a = sstables b -> Get a k = Get b k.
Proof. intros Hm Hs. unfold Get. rewrite Hm, Hs. reflexivity. Qed.

Lemma sum_by_le {A : Type} (f g : A -> Z) (l : list A) :
  (forall a, f a <= g a) -> sum_by f l <= sum_by g l.
Proof.
  intros H. induction l as [|a l IH]; [reflexivity|].
  rewrite !sum_by_cons. specialize (H a). lia.
Qed.

Lemma mem_Get_Put_same (m : Memtable) (k : string) (v : slice) :
  sorted_mem m -> mem_Get (mem_Put m k v) k = (v, true).
Proof.
  intros Hs. pose proof (mem_Put_sorted m k v Hs) as Hs'.
  destruct (mem_shape m k Hs) as (lo & hi & He & Hr & Hlo & _).
  rewrite (mem_Get_spec _ k Hs'), (mem_Put_shape m k v lo hi He Hr). cbn [entries].
  pose proof (mem_find_upsert m lo hi (mkMemEntry k v false) k He Hlo) as Hf.
  cbn [key] in Hf. rewrite Hf, String.eqb_refl. reflexivity.
Qed.

Lemma mem_Put_size_le (m : Memtable) (k : string) (v : slice) :
  sorted_mem m ->
  size (mem_Put m k v) <= size m + str_len k + len (slice_bytes v) + 1.
Proof.
  intros Hs. destruct (mem_shape m k Hs) as (lo & hi & He & Hr & _ & _).
  rewrite (mem_Put_shape m k v lo hi He Hr). cbn [size]. unfold entry_size. cbn [key value].
  assert (0 <= dropped_size k hi).
  { unfold dropped_size. destruct hi as [|h hi']; [lia|].
    destruct (String.eqb (key h) k); [|lia]. unfold entry_size, str_len.
    pose proof (len_nonneg (slice_bytes (value h))). lia. }
  lia.
Qed.

(** X25.  A record cut short in the log stays there.  After a workload
    small enough to stay in the memtable, let a crash cut the record of a
    further write after [n] bytes, header included.  The engine reopened on
    that directory answers as before the cut write.  The next Put is
    acknowledged and read back, but its record goes after the cut one, and
    as long as the bytes after the header of the cut record, the new record
    included, are fewer than the payload the cut record declares, the next
    Open stops its replay at the cut record: the acknowledged Put is gone. *)
Theorem put_after_torn_record_is_lost (sizing : Z -> Z * Z) (ops : list operation)
    (e : WALEntry) (n : nat) (k : string) (v : slice) :
  sizing_ok sizing (len ops) ->
  workload_fits ops ->
  sum_by op_weight ops + str_len k + len (slice_bytes v) + 1 < DefaultMemtableSize ->
  wal_fits e ->
  (8 <= n < List.length (encodeRecord e))%nat ->
  Z.of_nat n - 8 + len (encodeRecord (mkWALEntry OpPut (bytes_of k) v))
    < len (encodePayload e) ->
  exists db0 db w db1 db2 db3,
    Open empty_dir = Ok db0 /\
    run sizing db0 ops = Ok db /\
    wal (dir db) = Some w /\
    Open {| wal := Some (w ++ firstn n (encodeRecord e)); ssts := ssts (dir db) |} = Ok db1 /\
    (forall k', Get db1 k' = Ok (expected ops k')) /\
    Put sizing db1 k v = Ok db2 /\
    Get db2 k = Ok (if is_nil v then ErrKeyNotFound else Found v) /\
    Open (dir db2) = Ok db3 /\
    (forall k', Get db3 k' = Ok (expected ops k')).
Proof.
  intros Hsz (Hfit & Hcnt & Hwgt) Hsmall He Hn Hshort.
  destruct Open_empty as (db0 & O1 & O2 & O3).
  destruct (run_inv sizing ops 0 0 (fun _ => None) db0 Hsz O2 Hfit ltac:(lia) ltac:(lia))
    as (db & R1 & R2 & _).
  rewrite !Z.add_0_l in R2.
  destruct (Open_inv _ _ _ db R2) as (dba & A1 & A2 & A3).
  assert (HgetA : forall k', Get dba k' = Ok (expected ops k')).
  { intros k'. rewrite (Get_inv _ _ _ dba k' A2 A3), fold_apply_op. reflexivity. }
  destruct R2 as (tables & wes & HS & [Lwal Lfits _ _]).
  destruct A2 as (tablesA & wesA & HSA & _).
  set (torn := firstn n (encodeRecord e)).
  set (rec := encodeRecord (mkWALEntry OpPut (bytes_of k) v)) in *.
  assert (Rplain : Replay (wal (dir db)) = Ok (map decoded wes)).
  { rewrite Lwal. apply Replay_wal_of. exact Lfits. }
  assert (Rtorn : Replay (Some (wal_of wes ++ torn)) = Ok (map decoded wes)).
  { unfold torn. rewrite (Replay_app wes _ Lfits).
    rewrite (Replay_no_frame _ (torn_record_no_frame e n He ltac:(lia))).
    cbn [bind]. rewrite app_nil_r. reflexivity. }
  assert (Rboth : Replay (Some (wal_of wes ++ torn ++ rec)) = Ok (map decoded wes)).
  { unfold torn. rewrite (Replay_app wes _ Lfits).
    rewrite (Replay_no_frame _ (torn_then_bytes_no_frame e n rec He Hn Hshort)).
    cbn [bind]. rewrite app_nil_r. reflexivity. }
  pose proof (Open_agree (dir db) {| wal := Some (wal_of wes ++ torn); ssts := ssts (dir db) |}
                dba eq_refl ltac:(cbn [wal]; rewrite Rtorn, Rplain; reflexivity) A1) as Hopen1.
  cbn [wal ssts] in Hopen1.
  match type of Hopen1 with _ = Ok ?x => set (db1 := x) in * end.
  assert (Hfull : IsFull (mem_Put (mem dba) k v) = false).
  { unfold IsFull. apply Z.leb_gt. rewrite threshold_mem_Put, (si_threshold _ _ _ _ _ HSA).
    pose proof (mem_Put_size_le (mem dba) k v (si_sorted _ _ _ _ _ HSA)) as Hle.
    pose proof (si_size _ _ _ _ _ HSA) as Hsize. pose proof (si_weight _ _ _ _ _ HSA) as Hw.
    assert (Hmw : mem_bytes (entries (mem dba))
                  <= sum_by (fun e0 => entry_weight (mem_entry e0)) (entries (mem dba))).
    { apply sum_by_le. intros a. unfold entry_size, entry_weight, mem_entry, str_len.
      cbn [SSTableEntry.Key SSTableEntry.Value]. lia. }
    assert (Htw : 0 <= sum_by (fun t => sum_by entry_weight (t_entries t)) tablesA).
    { apply sum_by_nonneg. intros t. apply sum_by_nonneg. apply entry_weight_nonneg. }
    lia. }
  assert (Hput : Put sizing db1 k v
                 = Ok {| dir := wal_append (dir db1) (mkWALEntry OpPut (bytes_of k) v);
                         mem := mem_Put (mem dba) k v;
                         sstables := sstables dba; nextSeq := nextSeq dba |}).
  { unfold Put. cbv zeta. unfold db1 at 2 3 4 5 6. cbn [mem sstables nextSeq]. rewrite Hfull.
    reflexivity. }
  match type of Hput with _ = Ok ?x => set (db2 := x) in * end.
  pose proof (Open_agree (dir db) (dir db2) dba eq_refl
                ltac:(unfold db2, db1; cbn [dir wal wal_append]; unfold Append; fold rec;
                      rewrite <- app_assoc, Rboth, Rplain; reflexivity) A1) as Hopen3.
  match type of Hopen3 with _ = Ok ?x => set (db3 := x) in * end.
  exists db0, db, (wal_of wes), db1, db2, db3.
  split; [exact O1|]. split; [exact R1|]. split; [exact Lwal|]. split; [exact Hopen1|].
  split; [intros k'; rewrite <- HgetA; apply Get_agree; reflexivity|].
  split; [exact Hput|]. split.
  - unfold Get, db2. cbn [mem]. rewrite (mem_Get_Put_same _ k v (si_sorted _ _ _ _ _ HSA)).
    destruct (is_nil v); reflexivity.
  - split; [exact Hopen3|].
    intros k'. rewrite <- HgetA. apply Get_agree; reflexivity.
Qed.

Lemma put_after_torn_record_is_lost_witness :
  exists db0 db w db1 db2 db3,
    Open empty_dir = Ok db0 /\
    run sample_sizing db0 [DoPut "a" (Bytes [x01])] = Ok db /\
    wal (dir db) = Some w /\
    Open {| wal := Some (w ++ firstn 20 (encodeRecord wal_long_entry)); ssts := ssts (dir db) |}
    = Ok db1 /\
    (forall k', Get db1 k' = Ok (expected [DoPut "a" (Bytes [x01])] k')) /\
    Put sample_sizing db1 "k" (Bytes [x76]) = Ok db2 /\
    Get db2 "k" = Ok (if is_nil (Bytes [x76]) then ErrKeyNotFound else Found (Bytes [x76])) /\
    Open (dir db2) = Ok db3 /\
    (forall k', Get db3 k' = Ok (expected [DoPut "a" (Bytes [x01])] k')).
Proof.
  apply (put_after_torn_record_is_lost sample_sizing [DoPut "a" (Bytes [x01])]
           wal_long_entry 20 "k" (Bytes [x76])).
  - change (len [DoPut "a" (Bytes [x01])]) with 1. intros n Hn.
    unfold sizing_fits, sample_sizing. cbn [fst].
    destruct (n <? 1); rewrite u32_small; lia.
  - unfold workload_fits. split; [|split; vm_compute; reflexivity].
    repeat constructor.
  - vm_compute. reflexivity.
  - vm_compute. discriminate.
  - vm_compute. lia.
  - vm_compute. reflexivity.
Defined.

(** *** The log under overwrites *)

Lemma len_wal_of_repeat (e : WALEntry) (n : nat) :
  len (wal_of (repeat e n)) = Z.of_nat n * len (encodeRecord e).
Proof.
  induction n as [|n IH]; [reflexivity|].
  cbn [repeat]. rewrite wal_of_cons, len_app, IH. lia.
Qed.

Lemma Put_overwritten (sizing : Z -> Z * Z) (k : string) (v : slice) (i : nat) :
  str_len k + len (slice_bytes v) + 1 < DefaultMemtableSize ->
  Put sizing (overwritten k v i) k v = Ok (overwritten k v (S i)).
Proof.
  intros Hsmall.
  assert (Hmem : mem_Put (mem (overwritten k v i)) k v = mem (overwritten k v (S i))).
  { destruct i as [|i]; cbn [overwritten mem].
    - unfold mem_Put, NewMemtable, search, Search. cbn. f_equal.
    - unfold mem_Put, search, Search. cbn [entries List.length Search_loop Nat.ltb Nat.leb].
      change ((0 + 1) / 2)%nat with 0%nat. cbn [nth key].
      unfold str_ge. rewrite ltb_irrefl. cbn [negb Search_loop nth_error key value].
      rewrite String.eqb_refl. cbn [set_nth size threshold]. f_equal. lia. }
  unfold Put. cbv zeta. cbn [mem]. rewrite Hmem.
  assert (Hfull : IsFull (mem (overwritten k v (S i))) = false).
  { unfold IsFull. cbn [overwritten mem threshold size]. apply Z.leb_gt. exact Hsmall. }
  rewrite Hfull. unfold overwritten at 3. f_equal.
  f_equal. unfold wal_append. cbn [overwritten dir wal ssts]. f_equal. f_equal.
  rewrite <- wal_of_snoc. f_equal. rewrite <- repeat_cons. reflexivity.
Qed.

Lemma run_overwritten (sizing : Z -> Z * Z) (k : string) (v : slice) (n : nat) : forall i,
  str_len k + len (slice_bytes v) + 1 < DefaultMemtableSize ->
  run sizing (overwritten k v i) (repeat (DoPut k v) n) = Ok (overwritten k v (n + i)).
Proof.
  induction n as [|n IH]; intros i Hsmall; [reflexivity|].
  cbn [repeat run step]. rewrite (Put_overwritten sizing k v i Hsmall). cbn [bind].
  rewrite (IH (S i) Hsmall). f_equal. f_equal. lia.
Qed.

(** X26.  Only a flush resets the log.  Putting one key again and again
    with a value that fits the memtable never fills it: after [n] such puts
    on a new directory Stats reports one memtable entry of the size of key,
    value and one, no table, and a log of [n] records, 17 bytes and the key
    and the value each. *)
Theorem overwrites_grow_the_log (sizing : Z -> Z * Z) (k : string) (v : slice) (n : nat) :
  str_len k + len (slice_bytes v) + 1 < DefaultMemtableSize ->
  exists db0 db,
    Open empty_dir = Ok db0 /\
    run sizing db0 (repeat (DoPut k v) (S n)) = Ok db /\
    Stats db
    = {| NumSSTables := 0;
         MemtableSize := str_len k + len (slice_bytes v) + 1;
         MemtableCount := 1;
         WALSize := Z.of_nat (S n) * (17 + str_len k + len (slice_bytes v)) |}.
Proof.
  intros Hsmall. exists (overwritten k v 0), (overwritten k v (S n + 0)).
  split; [reflexivity|]. split; [apply run_overwritten; exact Hsmall|].
  unfold Stats, mem_Size, mem_Len, wal_Size. cbn [overwritten Nat.add mem dir wal sstables
    entries size]. f_equal.
  rewrite len_wal_of_repeat, len_encodeRecord, len_encodePayload. cbn [Key Value].
  rewrite len_bytes_of. lia.
Qed.

Lemma overwrites_grow_the_log_witness :
  exists db0 db,
    Open empty_dir = Ok db0 /\
    run sample_sizing db0 (repeat (DoPut "k" (Bytes [x76; x31])) (S 2)) = Ok db /\
    Stats db
    = {| NumSSTables := 0;
         MemtableSize := str_len "k" + len (slice_bytes (Bytes [x76; x31])) + 1;
         MemtableCount := 1;
         WALSize := Z.of_nat (S 2) * (17 + str_len "k" + len (slice_bytes (Bytes [x76; x31]))) |}.
Proof.
  apply (overwrites_grow_the_log sample_sizing "k" (Bytes [x76; x31]) 2).
  vm_compute. reflexivity.
Defined.

(** ** db_internal.go: file names *)

Lemma str_length_append (a b : string) :
  String.length (a ++ b) = (String.length a + String.length b)%nat.
Proof. induction a as [|c a IH]; cbn; [reflexivity|]. rewrite IH. reflexivity. Qed.

Lemma str_append_assoc (a b c : string) : ((a ++ b) ++ c = a ++ (b ++ c))%string.
Proof. induction a as [|x a IH]; cbn; [reflexivity|]. rewrite IH. reflexivity. Qed.

Lemma substring_all (b : string) : substring 0 (String.length b) b = b.
Proof. induction b as [|c b IH]; cbn; [reflexivity|]. rewrite IH. reflexivity. Qed.

Lemma substring_front (a b : string) : substring 0 (String.length a) (a ++ b) = a.
Proof.
  induction a as [|c a IH]; cbn.
  - destruct b; reflexivity.
  - rewrite IH. reflexivity.
Qed.

Lemma substring_back (a b : string) :
  substring (String.length a) (String.length b) (a ++ b) = b.
Proof. induction a as [|c a IH]; cbn; [apply substring_all|exact IH]. Qed.

Lemma HasSuffix_append (a suffix : string) : HasSuffix (a ++ suffix) suffix = true.
Proof.
  unfold HasSuffix. rewrite str_length_append.
  replace (String.length a + String.length suffix - String.length suffix)%nat
    with (String.length a) by lia.
  rewrite substring_back, String.eqb_refl, andb_true_r. apply Nat.leb_le. lia.
Qed.

Lemma TrimSuffix_append (a suffix : string) : TrimSuffix (a ++ suffix) suffix = a.
Proof.
  unfold TrimSuffix. rewrite HasSuffix_append, str_length_append.
  replace (String.length a + String.length suffix - String.length suffix)%nat
    with (String.length a) by lia.
  apply substring_front.
Qed.

Lemma nat_of_digit_char (d : Z) :
  0 <= d <= 9 -> Z.of_nat (nat_of_ascii (digit_char d)) = 48 + d.
Proof.
  intros Hd. unfold digit_char. rewrite nat_ascii_embedding by lia. lia.
Qed.

Lemma is_digits_append (a b : string) :
  is_digits (a ++ b) = is_digits a && is_digits b.
Proof.
  induction a as [|c a IH]; cbn [append is_digits]; [reflexivity|].
  rewrite IH, !andb_assoc. reflexivity.
Qed.

Lemma digits_value_digit (d : Z) (rest : string) (a : Z) :
  0 <= d <= 9 ->
  digits_value (String (digit_char d) rest) a = digits_value rest (a * 10 + d).
Proof.
  intros Hd. cbn [digits_value]. rewrite (nat_of_digit_char d Hd).
  replace (48 + d - 48) with d by lia.
  destruct (Z.leb_spec 0 d); [|lia]. destruct (Z.leb_spec d 9); [|lia]. reflexivity.
Qed.

Lemma is_digits_digit (d : Z) : 0 <= d <= 9 -> is_digits (String (digit_char d) EmptyString) = true.
Proof.
  intros Hd. cbn [is_digits]. pose proof (nat_of_digit_char d Hd) as H.
  rewrite andb_true_r. apply andb_true_intro. split; apply Nat.leb_le; lia.
Qed.

Lemma digits_loop_spec (fuel : nat) : forall (n : Z) (acc : string),
  (1 <= fuel)%nat -> 0 <= n < 2 ^ Z.of_nat fuel ->
  exists pre,
    digits_loop fuel n acc = (pre ++ acc)%string /\
    is_digits pre = true /\
    (1 <= String.length pre)%nat /\
    (forall a rest, digits_value (pre ++ rest) a
                    = digits_value rest (a * 10 ^ Z.of_nat (String.length pre) + n)) /\
    (0 < n -> exists c r, pre = String c r /\ c <> "0"%char).
Proof.
  induction fuel as [|fuel IH]; intros n acc Hf Hn; [lia|].
  cbn [digits_loop].
  assert (Hm : 0 <= n mod 10 <= 9) by (pose proof (Z.mod_pos_bound n 10); lia).
  destruct (Z.ltb_spec n 10) as [Hlt|Hge].
  - exists (String (digit_char (n mod 10)) EmptyString).
    rewrite Z.mod_small in * by lia.
    split; [reflexivity|]. split; [apply is_digits_digit; lia|]. split; [cbn; lia|]. split.
    + intros a rest. cbn [append String.length]. rewrite digits_value_digit by lia.
      f_equal.
    + intros Hpos. eexists. eexists. split; [reflexivity|].
      intros Hc. apply (f_equal (fun c => Z.of_nat (nat_of_ascii c))) in Hc.
      cbv beta in Hc. rewrite nat_of_digit_char in Hc by lia.
      change (Z.of_nat (nat_of_ascii "0")) with 48 in Hc. lia.
  - assert (Hdiv : 1 <= n / 10 < 2 ^ Z.of_nat fuel).
    { split; [apply Z.div_le_lower_bound; lia|].
      apply Z.div_lt_upper_bound; [lia|].
      rewrite Nat2Z.inj_succ, Z.pow_succ_r in Hn by lia. lia. }
    assert (Hf' : (1 <= fuel)%nat).
    { destruct fuel; [cbn in Hdiv; lia|lia]. }
    destruct (IH (n / 10) (String (digit_char (n mod 10)) acc) Hf' ltac:(lia))
      as (pre & Hrun & Hdig & Hlen & Hval & Hhead).
    exists (pre ++ String (digit_char (n mod 10)) EmptyString)%string.
    split; [rewrite Hrun, str_append_assoc; reflexivity|].
    split; [rewrite is_digits_append, Hdig, is_digits_digit by lia; reflexivity|].
    split; [rewrite str_length_append; lia|]. split.
    + intros a rest. rewrite str_append_assoc, Hval. cbn [append].
      rewrite digits_value_digit by lia. f_equal.
      rewrite str_length_append. cbn [String.length].
      rewrite Nat2Z.inj_add, Z.pow_add_r by lia. change (10 ^ Z.of_nat 1) with 10.
      pose proof (Z.div_mod n 10 ltac:(lia)). lia.
    + intros _. destruct (Hhead ltac:(lia)) as (c & r & -> & Hc).
      exists c, (r ++ String (digit_char (n mod 10)) EmptyString)%string.
      split; [reflexivity|exact Hc].
Qed.

Lemma digits_spec (n : Z) :
  0 <= n ->
  is_digits (digits n) = true /\
  (1 <= String.length (digits n))%nat /\
  digits_value (digits n) 0 = Some n /\
  (0 < n -> exists c r, digits n = String c r /\ c <> "0"%char).
Proof.
  intros Hn. unfold digits.
  assert (Hb : 0 <= n < 2 ^ Z.of_nat (S (Z.to_nat (Z.log2 n)))).
  { split; [exact Hn|]. rewrite Nat2Z.inj_succ, Z2Nat.id by apply Z.log2_nonneg.
    destruct (Z.eq_dec n 0) as [->|Hne]; [reflexivity|].
    apply Z.log2_spec. lia. }
  destruct (digits_loop_spec (S (Z.to_nat (Z.log2 n))) n EmptyString ltac:(lia) Hb)
    as (pre & Hrun & Hdig & Hlen & Hval & Hhead).
  assert (Hnil : forall s, (s ++ EmptyString)%string = s).
  { induction s as [|c s IH]; cbn; [reflexivity|]. rewrite IH. reflexivity. }
  rewrite Hrun, Hnil. split; [exact Hdig|]. split; [exact Hlen|]. split; [|exact Hhead].
  rewrite <- (Hnil pre) at 1. rewrite Hval. cbn [digits_value]. f_equal; lia.
Qed.

Lemma zeros_spec (k : nat) (s : string) :
  is_digits (zeros k s) = is_digits s /\
  digits_value (zeros k s) 0 = digits_value s 0 /\
  (String.length s <= String.length (zeros k s))%nat.
Proof.
  induction k as [|k (IH1 & IH2 & IH3)]; cbn [zeros]; [repeat split; lia|].
  split; [cbn [is_digits]; rewrite IH1; reflexivity|]. split.
  - cbn [digits_value]. exact IH2.
  - cbn [String.length]. lia.
Qed.

Lemma Split_dash_digits (s : string) : is_digits s = true -> Split_dash s = [s].
Proof.
  induction s as [|c s IH]; intros H; [reflexivity|].
  cbn [is_digits] in H. apply andb_prop in H. destruct H as [Hc Hs].
  cbn [Split_dash]. rewrite (IH Hs).
  destruct (Ascii.eqb_spec c "-"%char) as [->|_]; [discriminate|reflexivity].
Qed.

Lemma Split_dash_two (a b : string) :
  is_digits a = true -> is_digits b = true ->
  Split_dash (a ++ String "-" b) = [a; b].
Proof.
  induction a as [|c a IH]; intros Ha Hb.
  - cbn [append Split_dash]. rewrite (Split_dash_digits b Hb). reflexivity.
  - cbn [is_digits] in Ha. apply andb_prop in Ha. destruct Ha as [Hc Ha].
    cbn [append Split_dash]. rewrite (IH Ha Hb).
    destruct (Ascii.eqb_spec c "-"%char) as [->|_]; [discriminate|reflexivity].
Qed.

Lemma Atoi_digits (c : ascii) (r : string) (n : Z) :
  is_digits (String c r) = true ->
  digits_value (String c r) 0 = Some n -> 0 <= n < 2 ^ 63 ->
  Atoi (String c r) = Some n.
Proof.
  intros Hd Hv Hn.
  assert (Hbody : Atoi (String c r)
                  = match digits_value (String c r) 0 with
                    | None => None
                    | Some n0 => if (- 2 ^ 63 <=? n0) && (n0 <? 2 ^ 63) then Some n0 else None
                    end).
  { cbn [is_digits] in Hd. apply andb_prop in Hd. destruct Hd as [Hc _].
    destruct c as [[] [] [] [] [] [] [] []]; try discriminate Hc; reflexivity. }
  rewrite Hbody, Hv.
  destruct (Z.leb_spec (- 2 ^ 63) n); [|lia]. destruct (Z.ltb_spec n (2 ^ 63)); [|lia].
  reflexivity.
Qed.

Lemma fmt_seq_spec (seq : Z) :
  0 <= seq < 2 ^ 63 ->
  is_digits (fmt_06d seq) = true /\ Atoi (fmt_06d seq) = Some seq.
Proof.
  intros Hs. unfold fmt_06d. destruct (Z.ltb_spec seq 0); [lia|].
  destruct (digits_spec seq ltac:(lia)) as (Hd & Hl & Hv & _).
  unfold pad_zero.
  destruct (zeros_spec (6 - String.length (digits seq)) (digits seq)) as (Z1 & Z2 & Z3).
  split; [rewrite Z1; exact Hd|].
  destruct (zeros (6 - String.length (digits seq)) (digits seq)) as [|c r] eqn:E;
    [cbn [String.length] in Z3; lia|].
  apply Atoi_digits; [rewrite Z1; exact Hd|rewrite Z2; exact Hv|exact Hs].
Qed.

Lemma sstPath_parts (level seq : Z) :
  0 <= level -> 0 <= seq < 2 ^ 63 ->
  Split_dash (TrimSuffix (sstPath level seq) ".sst") = [digits level; fmt_06d seq].
Proof.
  intros Hl Hs. unfold sstPath, fmt_d. destruct (Z.ltb_spec level 0); [lia|].
  replace (digits level ++ "-" ++ fmt_06d seq ++ ".sst")%string
    with ((digits level ++ String "-" (fmt_06d seq)) ++ ".sst")%string
    by (rewrite str_append_assoc; reflexivity).
  rewrite TrimSuffix_append. apply Split_dash_two.
  - apply (digits_spec level Hl).
  - apply (fmt_seq_spec seq Hs).
Qed.

(** X27.  The name sstPath gives a table is the name the directory scans
    read back.  For a level and a sequence number that are not negative,
    loadSSTables and allSSTables take the file for an SSTable with that
    sequence number, level0SSTables counts it exactly when the level is 0,
    and two tables have the same name only if they have the same level and
    sequence number. *)
Theorem sst_name_roundtrip (level seq : Z) :
  0 <= level -> 0 <= seq < 2 ^ 63 ->
  sst_seq_of_name (sstPath level seq) = Some seq /\
  is_level0_name (sstPath level seq) = (level =? 0) /\
  forall level' seq',
    0 <= level' -> 0 <= seq' < 2 ^ 63 ->
    sstPath level seq = sstPath level' seq' -> level = level' /\ seq = seq'.
Proof.
  intros Hl Hs.
  assert (Hsuf : forall l s, HasSuffix (sstPath l s) ".sst" = true).
  { intros l s. unfold sstPath.
    replace (fmt_d l ++ "-" ++ fmt_06d s ++ ".sst")%string
      with ((fmt_d l ++ String "-" (fmt_06d s)) ++ ".sst")%string
      by (rewrite str_append_assoc; reflexivity).
    apply HasSuffix_append. }
  split; [|split].
  - unfold sst_seq_of_name. rewrite Hsuf, (sstPath_parts level seq Hl Hs). cbn [negb].
    apply (fmt_seq_spec seq Hs).
  - unfold is_level0_name. rewrite Hsuf, andb_true_r.
    unfold HasPrefix, sstPath, fmt_d. destruct (Z.ltb_spec level 0); [lia|].
    destruct (Z.eqb_spec level 0) as [->|Hne].
    { change (digits 0) with "0"%string. cbn [append prefix].
      destruct (ascii_dec "0" "0") as [_|N]; [|congruence].
      destruct (ascii_dec "-" "-") as [_|N]; [|congruence].
      destruct (fmt_06d seq ++ ".sst")%string; reflexivity. }
    destruct (digits_spec level Hl) as (_ & _ & _ & Hhead).
    destruct (Hhead ltac:(lia)) as (c & r & -> & Hc).
    cbn [append prefix]. destruct (ascii_dec "0" c) as [E|_]; [congruence|reflexivity].
  - intros level' seq' Hl' Hs' Heq.
    pose proof (sstPath_parts level seq Hl Hs) as P1.
    pose proof (sstPath_parts level' seq' Hl' Hs') as P2.
    rewrite Heq, P2 in P1. injection P1 as Hd Hq.
    destruct (digits_spec level Hl) as (_ & _ & V1 & _).
    destruct (digits_spec level' Hl') as (_ & _ & V2 & _).
    destruct (fmt_seq_spec seq Hs) as [_ A1]. destruct (fmt_seq_spec seq' Hs') as [_ A2].
    rewrite Hd in V2. rewrite Hq in A2. split; congruence.
Qed.

Lemma sst_name_roundtrip_witness :
  sst_seq_of_name (sstPath 1 1234567) = Some 1234567 /\
  is_level0_name (sstPath 1 1234567) = (1 =? 0) /\
  forall level' seq',
    0 <= level' -> 0 <= seq' < 2 ^ 63 ->
    sstPath 1 1234567 = sstPath level' seq' -> 1 = level' /\ 1234567 = seq'.
Proof.
  apply (sst_name_roundtrip 1 1234567); lia.
Defined.

(** *** Get and the puts of the nil slice *)

Lemma Get_inv_key (cnt wgt : Z) (h : string -> option (list byte)) (db : DB) (k : string) :
  Inv cnt wgt h db ->
  Get db k = Ok (if nil_in_mem (mem db) k then ErrKeyNotFound else to_get_result (h k)).
Proof.
  intros (tables & wes & HS & _).
  rewrite <- (si_lookup _ _ _ _ _ HS k). unfold Get, tier_lookup, nil_in_mem.
  rewrite (mem_Get_spec (mem db) k (si_sorted _ _ _ _ _ HS)).
  destruct (mem_find k (entries (mem db))) as [e|] eqn:Ef.
  - unfold entry_value. cbn [mem_entry SSTableEntry.Tombstone SSTableEntry.Value].
    destruct (tombstone e); cbn [negb andb]; [reflexivity|].
    destruct (value e); reflexivity.
  - rewrite (si_readers _ _ _ _ _ HS).
    apply Get_sstables_tables. exact (si_good _ _ _ _ _ HS).
Qed.

Lemma nil_in_mem_Put (m : Memtable) (k : string) (v : slice) (k' : string) :
  sorted_mem m ->
  nil_in_mem (mem_Put m k v) k' = if String.eqb k k' then is_nil v else nil_in_mem m k'.
Proof.
  intros Hs. destruct (mem_shape m k Hs) as (lo & hi & He & Hr & Hlo & _).
  unfold nil_in_mem. rewrite (mem_Put_shape m k v lo hi He Hr). cbn [entries].
  pose proof (mem_find_upsert m lo hi (mkMemEntry k v false) k' He Hlo) as Hf.
  cbn [key] in Hf. rewrite Hf. destruct (String.eqb k k'); reflexivity.
Qed.

Lemma nil_in_mem_Delete (m : Memtable) (k : string) (k' : string) :
  sorted_mem m ->
  nil_in_mem (mem_Delete m k) k' = if String.eqb k k' then false else nil_in_mem m k'.
Proof.
  intros Hs. destruct (mem_shape m k Hs) as (lo & hi & He & Hr & Hlo & _).
  unfold nil_in_mem. rewrite (mem_Delete_shape m k lo hi He Hr). cbn [entries].
  pose proof (mem_find_upsert m lo hi (mkMemEntry k Nil true) k' He Hlo) as Hf.
  cbn [key] in Hf. rewrite Hf. destruct (String.eqb k k'); reflexivity.
Qed.

Lemma latest_is_nil_put_mono (ops : list operation) (k : string) : forall a b : bool,
  (a = true -> b = true) ->
  latest_is_nil_put ops k a = true -> latest_is_nil_put ops k b = true.
Proof.
  induction ops as [|o ops IH]; intros a b Hab H; [apply Hab; exact H|].
  destruct o as [k' v|k']; cbn [latest_is_nil_put] in *;
    (eapply IH; [|exact H]); destruct (String.eqb k' k); auto.
Qed.

Lemma latest_of_nil_put (ops : list operation) (k : string) :
  forall (a : bool) (acc : option (list byte)),
  (a = true -> acc = Some []) ->
  latest_is_nil_put ops k a = true -> latest ops k acc = Some [].
Proof.
  induction ops as [|o ops IH]; intros a acc Hacc H; [apply Hacc; exact H|].
  destruct o as [k' v|k']; cbn [latest_is_nil_put latest] in *;
    (eapply IH; [|exact H]); destruct (String.eqb k' k); auto.
  - intros Hv. destruct v; [reflexivity|discriminate].
  - discriminate.
Qed.

Lemma step_nil (sizing : Z -> Z * Z) (cnt wgt : Z) (h : string -> option (list byte))
    (db db' : DB) (o : operation) (k : string) :
  Inv cnt wgt h db ->
  step sizing db o = Ok db' ->
  nil_in_mem (mem db') k = true ->
  match o with
  | DoPut k' v => if String.eqb k' k then is_nil v else nil_in_mem (mem db) k
  | DoDelete k' => if String.eqb k' k then false else nil_in_mem (mem db) k
  end = true.
Proof.
  intros (tables & wes & HS & _) H Hnil.
  pose proof (si_sorted _ _ _ _ _ HS) as Hs.
  assert (Hflush : forall db1, flush sizing db1 = Ok db' -> False).
  { intros db1 Hf. destruct (flush_mem_wal sizing db1 db' Hf) as [Hm _].
    rewrite Hm in Hnil. discriminate. }
  destruct o as [k' v|k']; cbn [step] in H; unfold Put, Delete in H; cbv zeta in H;
    cbn [mem] in H;
    match type of H with
    | (if ?c then _ else _) = _ => destruct c
    end;
    try (exfalso; exact (Hflush _ H));
    injection H as <-; cbn [mem] in Hnil.
  - rewrite (nil_in_mem_Put _ k' v k Hs) in Hnil. exact Hnil.
  - rewrite (nil_in_mem_Delete _ k' k Hs) in Hnil. exact Hnil.
Qed.

Lemma step_inv (sizing : Z -> Z * Z) (cnt wgt : Z) (h : string -> option (list byte))
    (db : DB) (o : operation) :
  sizing_ok sizing (cnt + 1) ->
  Inv cnt wgt h db ->
  op_fits o ->
  cnt + 1 < 2 ^ 32 -> wgt + op_weight o < 2 ^ 63 ->
  exists db', step sizing db o = Ok db' /\ Inv (cnt + 1) (wgt + op_weight o) (apply_op h o) db'.
Proof.
  intros Hsz HI Ho Hc Hw. destruct o as [k v|k]; cbn [step].
  - destruct (Put_inv sizing cnt wgt h db k v Hsz HI Ho Hc Hw) as (db' & H1 & H2 & _).
    exists db'. split; assumption.
  - destruct (Delete_inv sizing cnt wgt h db k Hsz HI Ho Hc Hw) as (db' & H1 & H2 & _).
    exists db'. split; assumption.
Qed.

Lemma run_inv_nil (sizing : Z -> Z * Z) (k : string) (ops : list operation) :
  forall (cnt wgt : Z) (h : string -> option (list byte)) (db : DB),
  sizing_ok sizing (cnt + len ops) ->
  Inv cnt wgt h db ->
  Forall op_fits ops ->
  cnt + len ops < 2 ^ 32 -> wgt + sum_by op_weight ops < 2 ^ 63 ->
  exists db',
    run sizing db ops = Ok db' /\
    Inv (cnt + len ops) (wgt + sum_by op_weight ops) (fold_left apply_op ops h) db' /\
    (nil_in_mem (mem db') k = true ->
     latest_is_nil_put ops k (nil_in_mem (mem db) k) = true).
Proof.
  induction ops as [|o ops IH]; intros cnt wgt h db Hsz HI Hfit Hcnt Hwgt.
  - exists db. split; [reflexivity|]. change (len (@nil operation)) with 0.
    change (sum_by op_weight []) with 0. rewrite !Z.add_0_r. split; [exact HI|auto].
  - inversion Hfit as [|? ? Ho Hops]; subst.
    assert (Hlen : len (o :: ops) = 1 + len ops) by (unfold len; cbn [List.length]; lia).
    rewrite Hlen in *. rewrite sum_by_cons in *.
    pose proof (len_nonneg ops) as Hl0. pose proof (op_weight_nonneg ops) as Hw0.
    assert (Hsz1 : sizing_ok sizing (cnt + 1)) by (intros n Hn; apply Hsz; lia).
    assert (Hsz2 : sizing_ok sizing (cnt + 1 + len ops)) by (intros n Hn; apply Hsz; lia).
    destruct (step_inv sizing cnt wgt h db o Hsz1 HI Ho ltac:(lia) ltac:(lia))
      as (db1 & H1 & H2).
    destruct (IH (cnt + 1) (wgt + op_weight o) (apply_op h o) db1 Hsz2 H2 Hops
                ltac:(lia) ltac:(lia)) as (db' & R1 & R2 & R3).
    exists db'. cbn [run]. rewrite H1. cbn [bind]. split; [exact R1|].
    cbn [fold_left].
    replace (cnt + (1 + len ops)) with (cnt + 1 + len ops) by lia.
    replace (wgt + (op_weight o + sum_by op_weight ops))
      with (wgt + op_weight o + sum_by op_weight ops) by lia.
    split; [exact R2|].
    intros Hnil. specialize (R3 Hnil).
    pose proof (step_nil sizing cnt wgt h db db1 o k HI H1) as Hstep.
    destruct o as [k' v|k']; cbn [latest_is_nil_put];
      (eapply latest_is_nil_put_mono; [|exact R3]); exact Hstep.
Qed.

(** X28.  What Get answers after any workload on a new directory, puts of
    the nil slice included.  For every key it is the value of the most
    recent put, or ErrKeyNotFound after a delete or when the key was never
    written, with one exception: when the most recent operation on the key
    is a put of the nil slice, which stands for the empty value, Get may
    answer ErrKeyNotFound instead. *)
Theorem get_after_any_workload (sizing : Z -> Z * Z) (ops : list operation) :
  sizing_ok sizing (len ops) ->
  workload_fits ops ->
  exists db0 db,
    Open empty_dir = Ok db0 /\
    run sizing db0 ops = Ok db /\
    forall k,
      Get db k = Ok (expected ops k) \/
      (latest_is_nil_put ops k false = true /\
       expected ops k = Found (Bytes []) /\
       Get db k = Ok ErrKeyNotFound).
Proof.
  intros Hsz (Hfit & Hcnt & Hwgt).
  destruct Open_empty as (db0 & O1 & O2 & _).
  exists db0.
  assert (Hmem0 : forall k, nil_in_mem (mem db0) k = false).
  { intros k. injection O1 as <-. reflexivity. }
  destruct (run_inv sizing ops 0 0 (fun _ => None) db0 Hsz O2 Hfit ltac:(lia) ltac:(lia))
    as (db & R1 & R2 & _).
  exists db. split; [exact O1|]. split; [exact R1|]. intros k.
  destruct (run_inv_nil sizing k ops 0 0 (fun _ => None) db0 Hsz O2 Hfit ltac:(lia) ltac:(lia))
    as (db' & R1' & _ & R3).
  rewrite R1 in R1'. injection R1' as <-.
  rewrite (Get_inv_key _ _ _ db k R2), fold_apply_op.
  destruct (nil_in_mem (mem db) k) eqn:En; [|left; reflexivity].
  right. specialize (R3 eq_refl). rewrite Hmem0 in R3.
  split; [exact R3|]. split; [|reflexivity].
  unfold expected. rewrite (latest_of_nil_put ops k false None ltac:(discriminate) R3).
  reflexivity.
Qed.

Lemma get_after_any_workload_witness :
  exists db0 db,
    Open empty_dir = Ok db0 /\
    run sample_sizing db0 (List.concat sample_sessions) = Ok db /\
    forall k,
      Get db k = Ok (expected (List.concat sample_sessions) k) \/
      (latest_is_nil_put (List.concat sample_sessions) k false = true /\
       expected (List.concat sample_sessions) k = Found (Bytes []) /\
       Get db k = Ok ErrKeyNotFound).
Proof.
  apply (get_after_any_workload sample_sizing (List.concat sample_sessions)).
  - change (len (List.concat sample_sessions)) with 4. intros n Hn.
    unfold sizing_fits, sample_sizing. cbn [fst].
    destruct (n <? 1); rewrite u32_small; lia.
  - unfold workload_fits. split; [|split; vm_compute; reflexivity].
    repeat constructor.
Defined.

(** *** The memtable of the engine *)

Lemma replayed_sorted_sized (es : list WALEntry) : forall m,
  sorted_mem m /\ size m = mem_bytes (entries m) ->
  sorted_mem (fold_left apply_entry es m) /\
  size (fold_left apply_entry es m) = mem_bytes (entries (fold_left apply_entry es m)).
Proof.
  induction es as [|e es IH]; intros m [Hs Hz]; [split; assumption|].
  cbn [fold_left]. apply IH. unfold apply_entry.
  destruct (Byte.eqb (Op e) OpPut);
    [split; [apply mem_Put_sorted|apply mem_Put_size]; assumption|].
  destruct (Byte.eqb (Op e) OpDelete);
    [split; [apply mem_Delete_sorted|apply mem_Delete_size]; assumption|].
  split; assumption.
Qed.

Lemma step_sorted_sized (sizing : Z -> Z * Z) (db db' : DB) (o : operation) :
  sorted_mem (mem db) /\ size (mem db) = mem_bytes (entries (mem db)) ->
  step sizing db o = Ok db' ->
  sorted_mem (mem db') /\ size (mem db') = mem_bytes (entries (mem db')).
Proof.
  intros [Hs Hz] H.
  assert (Hflush : forall db1, flush sizing db1 = Ok db' ->
            sorted_mem (mem db') /\ size (mem db') = mem_bytes (entries (mem db'))).
  { intros db1 Hf. destruct (flush_mem_wal sizing db1 db' Hf) as [Hm _].
    rewrite Hm. split; reflexivity. }
  destruct o as [k v|k]; cbn [step] in H; unfold Put, Delete in H; cbv zeta in H;
    cbn [mem] in H;
    match type of H with
    | (if ?c then _ else _) = _ => destruct c
    end;
    try exact (Hflush _ H);
    injection H as <-; cbn [mem].
  - split; [apply mem_Put_sorted|apply mem_Put_size]; assumption.
  - split; [apply mem_Delete_sorted|apply mem_Delete_size]; assumption.
Qed.

(** X29.  The memtable of the engine is always sorted.  Whatever the
    directory holds, in its log too, and whatever the operations, the
    memtable that Open builds and that the acknowledged operations leave has
    its entries sorted by key, one entry per key, and a tracked size equal
    to the sum over the entries of key length, value length and one: the
    binary search of Get is always on a sorted slice. *)
Theorem engine_memtable_sorted (sizing : Z -> Z * Z) (d : Dir) (ops : list operation)
    (db db' : DB) :
  Open d = Ok db ->
  run sizing db ops = Ok db' ->
  strictly_sorted (map key (entries (mem db'))) = true /\
  MemtableSize (Stats db')
  = sum_by (fun e => str_len (key e) + len (slice_bytes (value e)) + 1) (entries (mem db')).
Proof.
  intros Ho Hr.
  assert (H0 : sorted_mem (mem db) /\ size (mem db) = mem_bytes (entries (mem db))).
  { destruct (Open_spec d db Ho) as (replayed & _ & _ & Hm & _). rewrite Hm.
    apply replayed_sorted_sized. split; reflexivity. }
  clear Ho. revert db H0 Hr.
  induction ops as [|o ops IH]; intros db H0 Hr; cbn [run] in Hr.
  - injection Hr as <-. exact H0.
  - destruct (step sizing db o) as [db1| |] eqn:Es; cbn [bind] in Hr; try discriminate.
    apply (IH db1 (step_sorted_sized sizing db db1 o H0 Es) Hr).
Qed.

Lemma engine_memtable_sorted_witness :
  strictly_sorted (map key (entries (mem sample_db_after))) = true /\
  MemtableSize (Stats sample_db_after)
  = sum_by (fun e => str_len (key e) + len (slice_bytes (value e)) + 1)
      (entries (mem sample_db_after)).
Proof.
  apply (engine_memtable_sorted sample_sizing sample_dir sample_ops sample_db sample_db_after);
    vm_compute; reflexivity.
Defined.

(** *** Merging in stages *)

Lemma sorted_entries_ext (l1 : list SSTableEntry.t) : forall l2,
  sorted_entries l1 -> sorted_entries l2 ->
  (forall k, find_key k l1 = find_key k l2) -> l1 = l2.
Proof.
  induction l1 as [|e1 l1 IH]; intros l2 H1 H2 Hext.
  - destruct l2 as [|e2 l2]; [reflexivity|].
    specialize (Hext (SSTableEntry.Key e2)). rewrite find_key_cons, String.eqb_refl in Hext.
    discriminate.
  - destruct l2 as [|e2 l2].
    { specialize (Hext (SSTableEntry.Key e1)).
      rewrite find_key_cons, String.eqb_refl in Hext. discriminate. }
    pose proof (proj1 (sorted_entries_cons e1 l1) H1) as [Hlt1 Hs1].
    pose proof (proj1 (sorted_entries_cons e2 l2) H2) as [Hlt2 Hs2].
    assert (Hk : SSTableEntry.Key e1 = SSTableEntry.Key e2).
    { pose proof (Hext (SSTableEntry.Key e1)) as A. pose proof (Hext (SSTableEntry.Key e2)) as B.
      rewrite !find_key_cons, String.eqb_refl in A.
      rewrite !find_key_cons, String.eqb_refl in B.
      destruct (String.eqb_spec (SSTableEntry.Key e2) (SSTableEntry.Key e1)) as [E|NE];
        [congruence|].
      destruct (String.eqb_spec (SSTableEntry.Key e1) (SSTableEntry.Key e2)) as [E'|_];
        [congruence|].
      symmetry in A. unfold find_key in A, B. apply find_some in A, B.
      destruct A as [A1 _], B as [B1 _].
      pose proof (Hlt2 _ A1) as L2. pose proof (Hlt1 _ B1) as L1.
      rewrite (ltb_asym _ _ L1) in L2. discriminate. }
    assert (He : e1 = e2).
    { pose proof (Hext (SSTableEntry.Key e1)) as A.
      rewrite !find_key_cons, String.eqb_refl in A. rewrite <- Hk, String.eqb_refl in A.
      congruence. }
    subst e2. f_equal. apply (IH l2 Hs1 Hs2). intros k.
    specialize (Hext k). rewrite !find_key_cons in Hext.
    destruct (String.eqb_spec (SSTableEntry.Key e1) k) as [E|NE]; [|exact Hext].
    rewrite (find_key_None k l1), (find_key_None k l2); [reflexivity| |].
    + intros e' Hin Hk'. specialize (Hlt2 e' Hin). rewrite E, Hk', ltb_irrefl in Hlt2.
      discriminate.
    + intros e' Hin Hk'. specialize (Hlt1 e' Hin). rewrite E, Hk', ltb_irrefl in Hlt1.
      discriminate.
Qed.

(** X30.  Merging can be done in stages.  For sorted sets, merging the
    newer sets with the merge of the older ones gives the same sequence as
    merging all of them at once. *)
Theorem kWayMerge_in_stages (newer older : list (list SSTableEntry.t)) :
  Forall sorted_entries newer -> Forall sorted_entries older ->
  kWayMerge (newer ++ [kWayMerge older]) = kWayMerge (newer ++ older).
Proof.
  intros Hn Ho.
  assert (Hall : Forall sorted_entries (newer ++ older)) by (apply Forall_app; split; assumption).
  assert (Hst : Forall sorted_entries (newer ++ [kWayMerge older])).
  { apply Forall_app. split; [exact Hn|]. constructor; [|constructor].
    apply kWayMerge_sorted. exact Ho. }
  apply sorted_entries_ext; try (apply kWayMerge_sorted; assumption).
  intros k. rewrite (kWayMerge_newest _ k Hst), (kWayMerge_newest _ k Hall).
  clear Hn Hall Hst. induction newer as [|s newer IH]; cbn [app newest].
  - rewrite (kWayMerge_newest older k Ho). destruct (newest older k); reflexivity.
  - destruct (find_key k s); [reflexivity|exact IH].
Qed.

Lemma kWayMerge_in_stages_witness :
  kWayMerge ([sample_newer] ++ [kWayMerge [sample_older; sample_newer]])
  = kWayMerge ([sample_newer] ++ [sample_older; sample_newer]).
Proof.
  apply (kWayMerge_in_stages [sample_newer] [sample_older; sample_newer]); fits.
Defined.
